(** * GhostGPT: the streaming chat client

    A shallow embedding of [src/components/MessageList.tsx] (the content
    segmenter [parseContent], the inline annotator [processInlineCode], the
    formatting of the parts by [stripMarkdown], [formatTextPart],
    [formatCodeContent] and [formatContent], and the scroll listener)
    and of [App.tsx] (the session controller: [sendMessage],
    [stopGeneration], [toggleVoiceRecording] and the read loop that decodes
    the streamed response), with the properties of the specification that
    concern them.

    Text is modelled the way the JavaScript runtime holds it: a string is a
    sequence of UTF-16 code units. *)

From Stdlib Require Import String Ascii.
From Stdlib Require Import List NArith Arith Bool Lia.
Import ListNotations.
Local Open Scope list_scope.

(* ================================================================== *)
(** * The runtime: strings, regular expressions                          *)
(* ================================================================== *)

Module JS.

(** ** Strings *)

Definition char := N.
Definition jsstring := list char.

(** [str "abc"] is the JavaScript string with the code units of the literal. *)
Definition str (s : String.string) : jsstring :=
  map N_of_ascii (String.list_ascii_of_string s).
Arguments str s%_string.

(** [dq "{'a':1}"] is the text of the literal with every apostrophe read as
    a double quote: a way to write JSON texts. *)
Definition dq (s : String.string) : jsstring :=
  map (fun c => if N.eqb c 39 then 34%N else c) (str s).
Arguments dq s%_string.

Definition nl : char := 10%N.
Definition backtick : char := 96%N.

Fixpoint eqb (a b : jsstring) : bool :=
  match a, b with
  | [], [] => true
  | x :: a', y :: b' => N.eqb x y && eqb a' b'
  | _, _ => false
  end.

(** Truthiness of a string: [if (s)]. *)
Definition nonempty (s : jsstring) : bool :=
  match s with [] => false | _ :: _ => true end.

(** [s.slice(i, j)] and [s.slice(i)] for [0 <= i], [0 <= j]. *)
Definition slice (s : jsstring) (i j : nat) : jsstring :=
  firstn (j - i) (skipn i s).
Definition slice_from (s : jsstring) (i : nat) : jsstring := skipn i s.

(** [s.startsWith(p)]; [strip_prefix] also returns what follows the prefix. *)
Fixpoint strip_prefix (p s : jsstring) : option jsstring :=
  match p, s with
  | [], _ => Some s
  | x :: p', y :: s' => if N.eqb x y then strip_prefix p' s' else None
  | _ :: _, [] => None
  end.
Definition startsWith (s p : jsstring) : bool :=
  match strip_prefix p s with Some _ => true | None => false end.

(** WhiteSpace and LineTerminator code units: what [String.prototype.trim]
    strips and what the class [\s] matches. *)
Definition isWhiteSpace (c : char) : bool :=
  ((9 <=? c) && (c <=? 13) || (c =? 32) || (c =? 160) || (c =? 5760)
   || (8192 <=? c) && (c <=? 8202) || (c =? 8232) || (c =? 8233)
   || (c =? 8239) || (c =? 8287) || (c =? 12288) || (c =? 65279))%N.

(** The class [\w]: [A-Za-z0-9_]. *)
Definition isWordChar (c : char) : bool :=
  ((65 <=? c) && (c <=? 90) || (97 <=? c) && (c <=? 122)
   || (48 <=? c) && (c <=? 57) || (c =? 95))%N.

Fixpoint trimStart (s : jsstring) : jsstring :=
  match s with
  | c :: s' => if isWhiteSpace c then trimStart s' else s
  | [] => []
  end.
Definition trimEnd (s : jsstring) : jsstring := rev (trimStart (rev s)).
Definition trim (s : jsstring) : jsstring := trimEnd (trimStart s).

(** [s.split('\n')]. *)
Fixpoint split_nl (s : jsstring) : list jsstring :=
  match s with
  | [] => [[]]
  | c :: s' =>
      if N.eqb c nl then [] :: split_nl s'
      else match split_nl s' with
           | l :: ls => (c :: l) :: ls
           | [] => [[c]]
           end
  end.

(** ** Regular expressions

    A backtracking matcher in continuation-passing style, for the fragment
    the program's patterns are written in: literals, classes, sequence,
    greedy and lazy repetition and capture groups.  Alternatives are tried
    in the order the ECMAScript matcher tries them. *)

Inductive regex : Type :=
| Eps
| Lit (c : char)
| Class (p : char -> bool)
| Cat (r1 r2 : regex)
| Rep (greedy : bool) (r : regex)
| Group (i : nat) (r : regex).

Definition captures := list (nat * jsstring).

Definition orelse {A} (x y : option A) : option A :=
  match x with Some _ => x | None => y end.

Section Matcher.
Variable R : Type.

(** One more round of a repetition, then the rest; a round that consumes
    nothing is refused (the empty check of RepeatMatcher). *)
Fixpoint repeat_ (greedy : bool)
      (once : jsstring -> captures -> (jsstring -> captures -> option R) -> option R)
      (k : jsstring -> captures -> option R)
      (fuel : nat) (s : jsstring) (c : captures) : option R :=
    match fuel with
    | O => k s c
    | S fuel' =>
        let more :=
          once s c (fun s' c' =>
            if length s' <? length s then repeat_ greedy once k fuel' s' c'
            else None) in
        if greedy then orelse more (k s c) else orelse (k s c) more
    end.

Fixpoint run (r : regex) (s : jsstring) (c : captures)
      (k : jsstring -> captures -> option R) : option R :=
    match r with
    | Eps => k s c
    | Lit a =>
        match s with
        | x :: s' => if N.eqb x a then k s' c else None
        | [] => None
        end
    | Class p =>
        match s with
        | x :: s' => if p x then k s' c else None
        | [] => None
        end
    | Cat r1 r2 => run r1 s c (fun s' c' => run r2 s' c' k)
    | Rep greedy r0 => repeat_ greedy (run r0) k (S (length s)) s c
    | Group i r0 =>
        run r0 s c (fun s' c' =>
          k s' ((i, firstn (length s - length s') s) :: c'))
    end.
End Matcher.
Arguments repeat_ {R} greedy once k fuel s c.
Arguments run {R} r s c k.

(** [r+] and a literal string. *)
Definition plus (greedy : bool) (r : regex) : regex := Cat r (Rep greedy r).
Fixpoint lits (s : jsstring) : regex :=
  match s with
  | [] => Eps
  | c :: s' => Cat (Lit c) (lits s')
  end.

(** A compiled pattern with its number of capture groups. *)
Record RegExp := { body : regex; ngroups : nat }.

(** The match object: [index], [match[0]] and [match[1..]];
    [match.length] is one more than the number of groups. *)
Record Match := { index : nat; whole : jsstring; groups : list (option jsstring) }.

Fixpoint lookup (i : nat) (c : captures) : option jsstring :=
  match c with
  | [] => None
  | (j, v) :: c' => if Nat.eqb i j then Some v else lookup i c'
  end.

Definition match_at (re : RegExp) (s : jsstring) : option (jsstring * captures) :=
  run (body re) s [] (fun s' c => Some (s', c)).

Definition mkMatch (re : RegExp) (i : nat) (s rest : jsstring) (c : captures) : Match :=
  {| index := i;
     whole := firstn (length s - length rest) s;
     groups := map (fun g => lookup g c) (seq 1 (ngroups re)) |}.

(** The leftmost match in the suffix [s], which starts at index [i]. *)
Fixpoint search (re : RegExp) (s : jsstring) (i : nat) : option Match :=
  match match_at re s with
  | Some (rest, c) => Some (mkMatch re i s rest c)
  | None =>
      match s with
      | [] => None
      | _ :: s' => search re s' (S i)
      end
  end.

(** [re.exec(text)] of a global pattern whose [lastIndex] is [lastIndex]. *)
Definition exec (re : RegExp) (text : jsstring) (lastIndex : nat) : option Match :=
  if length text <? lastIndex then None
  else search re (skipn lastIndex text) lastIndex.

Definition match_end (m : Match) : nat := index m + length (whole m).

(** [[...text.matchAll(re)]] with [re.lastIndex = 0]: after an empty match
    the iterator advances [lastIndex] by one. *)
Fixpoint matchAll_from (fuel : nat) (re : RegExp) (text : jsstring) (lastIndex : nat)
  : list Match :=
  match fuel with
  | O => []
  | S fuel' =>
      match exec re text lastIndex with
      | None => []
      | Some m =>
          m :: matchAll_from fuel' re text
                 (if nonempty (whole m) then match_end m else S (match_end m))
      end
  end.
Definition matchAll (re : RegExp) (text : jsstring) : list Match :=
  matchAll_from (2 + length text) re text 0.

End JS.

(* ================================================================== *)
(** * MessageList.tsx: segmenter and inline annotator                    *)
(* ================================================================== *)

Module MessageList.
Import JS.

(** An element of [parts] in [parseContent]:
    [{ type: 'text' | 'code', content, language? }]. *)
Inductive Part : Type :=
| text (content : jsstring)
| code (content : jsstring) (language : jsstring).

Definition fence : regex := lits (str "```").
Definition any : regex := Class (fun _ => true).

(** [/```(\w+)\s*\n([\s\S]*?)```/g] *)
Definition pattern1 : RegExp :=
  {| body := Cat fence
              (Cat (Group 1 (plus true (Class isWordChar)))
              (Cat (Rep true (Class isWhiteSpace))
              (Cat (Lit nl)
              (Cat (Group 2 (Rep false any)) fence))));
     ngroups := 2 |}.

(** [/```\s*\n([\s\S]*?)```/g] *)
Definition pattern2 : RegExp :=
  {| body := Cat fence
              (Cat (Rep true (Class isWhiteSpace))
              (Cat (Lit nl)
              (Cat (Group 1 (Rep false any)) fence)));
     ngroups := 1 |}.

(** [/```([\s\S]*?)```/g] *)
Definition pattern3 : RegExp :=
  {| body := Cat fence (Cat (Group 1 (Rep false any)) fence);
     ngroups := 1 |}.

Definition patterns : list RegExp := [pattern1; pattern2; pattern3].

Definition plaintext : jsstring := str "plaintext".

(** [match[i]], [undefined] when out of range or when the group did not
    take part. *)
Definition group (m : Match) (i : nat) : option jsstring :=
  match i with
  | O => Some (whole m)
  | S j => match nth_error (groups m) j with Some g => g | None => None end
  end.

Definition truthy (v : option jsstring) : bool :=
  match v with Some s => nonempty s | None => false end.

(** [language] and [codeContent] of one match (lines 107-117). *)
Definition language_of (m : Match) : jsstring :=
  if Nat.eqb (S (length (groups m))) 3 then
    match group m 1 with
    | Some l => if nonempty l then l else plaintext
    | None => plaintext
    end
  else plaintext.

Definition codeContent_of (m : Match) : option jsstring :=
  if Nat.eqb (S (length (groups m))) 3 then group m 2
  else if Nat.eqb (S (length (groups m))) 2 then group m 1
  else Some [].

(** The body of [for (const match of matches)]: the prose before the match,
    then the code block when its content is truthy. *)
Definition push_match (t : jsstring) (lastIndex : nat) (parts : list Part) (m : Match)
  : list Part :=
  let parts1 :=
    if lastIndex <? index m then
      let textContent := trim (slice t lastIndex (index m)) in
      if nonempty textContent then parts ++ [text textContent] else parts
    else parts in
  match codeContent_of m with
  | Some c => if nonempty c then parts1 ++ [code c (language_of m)] else parts1
  | None => parts1
  end.

Fixpoint scan_matches (t : jsstring) (matches : list Match) (lastIndex : nat)
    (parts : list Part) : nat * list Part :=
  match matches with
  | [] => (lastIndex, parts)
  | m :: rest => scan_matches t rest (match_end m) (push_match t lastIndex parts m)
  end.

(** What one pattern with at least one match contributes (lines 94-136). *)
Definition parts_of_matches (t : jsstring) (matches : list Match) : list Part :=
  let '(lastIndex, parts) := scan_matches t matches 0 [] in
  if lastIndex <? length t then
    let remaining := trim (slice_from t lastIndex) in
    if nonempty remaining then parts ++ [text remaining] else parts
  else parts.

(** [for (const pattern of patterns)]: the first pattern with a match is
    used and the loop is left. *)
Fixpoint try_patterns (t : jsstring) (ps : list RegExp) : option (list Part) :=
  match ps with
  | [] => None
  | p :: ps' =>
      match matchAll p t with
      | [] => try_patterns t ps'
      | matches => Some (parts_of_matches t matches)
      end
  end.

Definition parseContent (t : jsstring) : list Part :=
  match try_patterns t patterns with
  | Some parts => parts
  | None => if nonempty (trim t) then [text t] else []
  end.

(** A run of [processInlineCode]: [{ type: 'text' | 'inline-code', content }]. *)
Inductive Run : Type :=
| plain (content : jsstring)
| inline_code (content : jsstring).

(** [/`([^`]+)`/g] *)
Definition inlineCodeRegex : RegExp :=
  {| body := Cat (Lit backtick)
              (Cat (Group 1 (plus true (Class (fun c => negb (N.eqb c backtick)))))
                   (Lit backtick));
     ngroups := 1 |}.

(** The [while] loop of [processInlineCode].  The pattern's own [lastIndex]
    and the local [lastIndex] are both the end of the previous match, so one
    variable stands for the two.  A match of this pattern is never empty;
    [fuel] bounds the number of matches. *)
Fixpoint inline_loop (fuel : nat) (t : jsstring) (lastIndex : nat) (parts : list Run)
  : nat * list Run :=
  match fuel with
  | O => (lastIndex, parts)
  | S fuel' =>
      match exec inlineCodeRegex t lastIndex with
      | None => (lastIndex, parts)
      | Some m =>
          let parts1 :=
            if lastIndex <? index m
            then parts ++ [plain (slice t lastIndex (index m))] else parts in
          let parts2 :=
            parts1 ++ [inline_code (match group m 1 with Some g => g | None => [] end)] in
          inline_loop fuel' t (match_end m) parts2
      end
  end.

Definition processInlineCode (t : jsstring) : list Run :=
  let '(lastIndex, parts) := inline_loop (S (length t)) t 0 [] in
  let parts1 :=
    if lastIndex <? length t then parts ++ [plain (slice_from t lastIndex)] else parts in
  match parts1 with
  | [] => [plain t]
  | _ => parts1
  end.

End MessageList.

(* ================================================================== *)
(** * The runtime: JSON.parse                                            *)
(* ================================================================== *)

Module JSON.
Import JS.

Local Set Warnings "-register-all".

(** A parsed JSON text.  A number keeps its literal: which double it denotes
    is the host's business (see [Host] below). *)
Inductive value : Type :=
| JNull
| JBool (b : bool)
| JNumber (literal : jsstring)
| JString (s : jsstring)
| JArray (elements : list value)
| JObject (members : list (jsstring * value)).

(** JSON white space: space, tab, line feed, carriage return. *)
Definition isJSONWhiteSpace (c : char) : bool :=
  ((c =? 32) || (c =? 9) || (c =? 10) || (c =? 13))%N.

Fixpoint skip_ws (s : jsstring) : jsstring :=
  match s with
  | c :: s' => if isJSONWhiteSpace c then skip_ws s' else s
  | [] => []
  end.

Definition isDigit (c : char) : bool := ((48 <=? c) && (c <=? 57))%N.

Definition hexval (c : char) : option N :=
  if isDigit c then Some (c - 48)%N
  else if ((97 <=? c) && (c <=? 102))%N then Some (c - 87)%N
  else if ((65 <=? c) && (c <=? 70))%N then Some (c - 55)%N
  else None.

Definition hex4 (a b c d : char) : option char :=
  match hexval a, hexval b, hexval c, hexval d with
  | Some x, Some y, Some z, Some w => Some (((x * 16 + y) * 16 + z) * 16 + w)%N
  | _, _, _, _ => None
  end.

(** The characters of a string literal, after its opening quote. *)
Fixpoint parse_string (s : jsstring) : option (jsstring * jsstring) :=
  match s with
  | [] => None
  | c :: s' =>
      if (c =? 34)%N then Some ([], s')
      else if (c =? 92)%N then
        match s' with
        | [] => None
        | e :: s'' =>
            let simple (x : char) :=
              match parse_string s'' with
              | Some (r, rest) => Some (x :: r, rest)
              | None => None
              end in
            if (e =? 34)%N then simple 34%N
            else if (e =? 92)%N then simple 92%N
            else if (e =? 47)%N then simple 47%N
            else if (e =? 98)%N then simple 8%N
            else if (e =? 102)%N then simple 12%N
            else if (e =? 110)%N then simple 10%N
            else if (e =? 114)%N then simple 13%N
            else if (e =? 116)%N then simple 9%N
            else if (e =? 117)%N then
              match s'' with
              | h1 :: h2 :: h3 :: h4 :: s4 =>
                  match hex4 h1 h2 h3 h4, parse_string s4 with
                  | Some x, Some (r, rest) => Some (x :: r, rest)
                  | _, _ => None
                  end
              | _ => None
              end
            else None
        end
      else if (c <? 32)%N then None
      else match parse_string s' with
           | Some (r, rest) => Some (c :: r, rest)
           | None => None
           end
  end.

Fixpoint take_digits (s : jsstring) : jsstring * jsstring :=
  match s with
  | c :: s' =>
      if isDigit c then let '(d, rest) := take_digits s' in (c :: d, rest)
      else ([], s)
  | [] => ([], [])
  end.

(** A number literal: an optional minus sign; a zero, or a digit from one to
    nine and then any digits; optionally a point and one digit or more;
    optionally an exponent mark, a sign and one digit or more. *)
Definition parse_number (s : jsstring) : option (jsstring * jsstring) :=
  let '(sign, s1) :=
    match s with
    | c :: s' => if (c =? 45)%N then ([c], s') else ([], s)
    | [] => ([], s)
    end in
  let int_part :=
    match s1 with
    | c :: s' =>
        if (c =? 48)%N then Some ([c], s')
        else if isDigit c then let '(d, rest) := take_digits s' in Some (c :: d, rest)
        else None
    | [] => None
    end in
  match int_part with
  | None => None
  | Some (i, s2) =>
      let frac :=
        match s2 with
        | c :: s' =>
            if (c =? 46)%N then
              match take_digits s' with
              | ([], _) => None
              | (d, rest) => Some (c :: d, rest)
              end
            else Some ([], s2)
        | [] => Some ([], s2)
        end in
      match frac with
      | None => None
      | Some (f, s3) =>
          let exp :=
            match s3 with
            | c :: s' =>
                if ((c =? 101) || (c =? 69))%N then
                  let '(sg, s'') :=
                    match s' with
                    | x :: r => if ((x =? 43) || (x =? 45))%N then ([x], r) else ([], s')
                    | [] => ([], s')
                    end in
                  match take_digits s'' with
                  | ([], _) => None
                  | (d, rest) => Some (c :: sg ++ d, rest)
                  end
                else Some ([], s3)
            | [] => Some ([], s3)
            end in
          match exp with
          | None => None
          | Some (e, s4) => Some (sign ++ i ++ f ++ e, s4)
          end
      end
  end.

Definition expect (lit : jsstring) (v : value) (s : jsstring) : option (value * jsstring) :=
  match strip_prefix lit s with
  | Some rest => Some (v, rest)
  | None => None
  end.

(** A value, the elements of an array after its first bracket, the members
    of an object after its first brace.  Every call hands on less [fuel]. *)
Fixpoint parse_value (fuel : nat) (s : jsstring) : option (value * jsstring) :=
  match fuel with
  | O => None
  | S fuel' =>
      match skip_ws s with
      | [] => None
      | c :: r =>
          if (c =? 123)%N then
            match skip_ws r with
            | d :: r' =>
                if (d =? 125)%N then Some (JObject [], r')
                else match parse_members fuel' (d :: r') with
                     | Some (ms, rest) => Some (JObject ms, rest)
                     | None => None
                     end
            | [] => None
            end
          else if (c =? 91)%N then
            match skip_ws r with
            | d :: r' =>
                if (d =? 93)%N then Some (JArray [], r')
                else match parse_elements fuel' (d :: r') with
                     | Some (vs, rest) => Some (JArray vs, rest)
                     | None => None
                     end
            | [] => None
            end
          else if (c =? 34)%N then
            match parse_string r with
            | Some (str, rest) => Some (JString str, rest)
            | None => None
            end
          else if (c =? 116)%N then expect (str "true") (JBool true) (c :: r)
          else if (c =? 102)%N then expect (str "false") (JBool false) (c :: r)
          else if (c =? 110)%N then expect (str "null") JNull (c :: r)
          else match parse_number (c :: r) with
               | Some (lit, rest) => Some (JNumber lit, rest)
               | None => None
               end
      end
  end

with parse_elements (fuel : nat) (s : jsstring) : option (list value * jsstring) :=
  match fuel with
  | O => None
  | S fuel' =>
      match parse_value fuel' s with
      | None => None
      | Some (v, r) =>
          match skip_ws r with
          | c :: r' =>
              if (c =? 44)%N then
                match parse_elements fuel' r' with
                | Some (vs, rest) => Some (v :: vs, rest)
                | None => None
                end
              else if (c =? 93)%N then Some ([v], r')
              else None
          | [] => None
          end
      end
  end

with parse_members (fuel : nat) (s : jsstring) : option (list (jsstring * value) * jsstring) :=
  match fuel with
  | O => None
  | S fuel' =>
      match skip_ws s with
      | q :: r0 =>
          if (q =? 34)%N then
            match parse_string r0 with
            | None => None
            | Some (key, r1) =>
                match skip_ws r1 with
                | c :: r2 =>
                    if (c =? 58)%N then
                      match parse_value fuel' r2 with
                      | None => None
                      | Some (v, r3) =>
                          match skip_ws r3 with
                          | d :: r4 =>
                              if (d =? 44)%N then
                                match parse_members fuel' r4 with
                                | Some (ms, rest) => Some ((key, v) :: ms, rest)
                                | None => None
                                end
                              else if (d =? 125)%N then Some ([(key, v)], r4)
                              else None
                          | [] => None
                          end
                      end
                    else None
                | [] => None
                end
            end
          else None
      | [] => None
      end
  end.

(** [JSON.parse(text)]: [None] is a SyntaxError. *)
Definition parse (t : jsstring) : option value :=
  match parse_value (2 * length t + 2) t with
  | Some (v, rest) =>
      match skip_ws rest with
      | [] => Some v
      | _ :: _ => None
      end
  | None => None
  end.

(** [v.key] for a parsed value: [None] is a TypeError (a property of
    [null]), [Some None] is [undefined].  Of two members with one key the
    later one is kept; primitives and arrays have no property of the names
    the program reads ([error], [content]). *)
Fixpoint find_member (key : jsstring) (ms : list (jsstring * value)) : option value :=
  match ms with
  | [] => None
  | (k, v) :: ms' =>
      match find_member key ms' with
      | Some later => Some later
      | None => if eqb k key then Some v else None
      end
  end.

Definition get (v : value) (key : jsstring) : option (option value) :=
  match v with
  | JNull => None
  | JObject ms => Some (find_member key ms)
  | _ => Some None
  end.

End JSON.

(* ================================================================== *)
(** * App.tsx: the session controller                                    *)
(* ================================================================== *)

Module App.
Import JS JSON.

Inductive Role : Type := user | assistant.

(** [interface Message]; the optional fields are options. *)
Record Message := {
  role : Role;
  content : jsstring;
  timestamp : N;
  screenshot : option jsstring;
  isStreaming : option bool
}.

(** [msg.isStreaming] read as a condition. *)
Definition streaming (m : Message) : bool :=
  match isStreaming m with Some b => b | None => false end.

(** ** The state updaters of the read loop

    [setMessages(prev => { const updated = [...prev];
       const lastMsg = updated[updated.length - 1];
       if (lastMsg.role === 'assistant') { ... } return updated; })].
    On an empty [prev] the updater would throw; the read loop runs only
    after the assistant message was appended ([reading_has_assistant]
    below), and the model leaves the empty list as it is. *)
Fixpoint update_last (f : Message -> Message) (prev : list Message) : list Message :=
  match prev with
  | [] => []
  | [lastMsg] =>
      [match role lastMsg with assistant => f lastMsg | user => lastMsg end]
  | m :: rest => m :: update_last f rest
  end.

Definition clear_streaming (m : Message) : Message :=
  {| role := role m; content := content m; timestamp := timestamp m;
     screenshot := screenshot m; isStreaming := Some false |}.

Definition set_content (c : jsstring) (m : Message) : Message :=
  {| role := role m; content := c; timestamp := timestamp m;
     screenshot := screenshot m; isStreaming := isStreaming m |}.

(** ** The host

    Two things the read loop asks of the JavaScript engine are left to it:
    whether the double a number literal denotes is non-zero, and the string
    that [+=] makes of a value that is not a string ([None] when the
    conversion throws a TypeError).  Everything below holds for any host. *)
Record Host := {
  number_truthy : jsstring -> bool;
  to_primitive_string : value -> option jsstring
}.

(** What a [throw] inside the [try] of the read loop carries. *)
Inductive Thrown : Type :=
| SyntaxError
| TypeError
| NewError (argument : value).

Inductive Completion (A : Type) : Type :=
| Normal (a : A)
| Throw (e : Thrown).
Arguments Normal {A} a.
Arguments Throw {A} e.

Section WithHost.
Variable host : Host.

(** [if (v)] for an optional parsed value. *)
Definition truthy (v : option value) : bool :=
  match v with
  | None => false
  | Some JNull => false
  | Some (JBool b) => b
  | Some (JNumber lit) => number_truthy host lit
  | Some (JString s) => nonempty s
  | Some (JArray _) => true
  | Some (JObject _) => true
  end.

(** [accumulatedContent += v]. *)
Definition append_value (acc : jsstring) (v : value) : option jsstring :=
  match v with
  | JString s => Some (acc ++ s)
  | _ => match to_primitive_string host v with
         | Some s => Some (acc ++ s)
         | None => None
         end
  end.

(** The body of the [try] (lines 645-661), on the transcript and the
    accumulated content. *)
Definition try_data (data : jsstring) (msgs : list Message) (acc : jsstring)
  : Completion (list Message * jsstring) :=
  match parse data with
  | None => Throw SyntaxError
  | Some parsed =>
      match get parsed (str "error") with
      | None => Throw TypeError
      | Some e =>
          if truthy e then
            Throw (NewError (match e with Some v => v | None => JNull end))
          else
            match get parsed (str "content") with
            | None => Throw TypeError
            | Some c =>
                if truthy c then
                  match append_value acc (match c with Some v => v | None => JNull end) with
                  | None => Throw TypeError
                  | Some acc' =>
                      Normal (update_last (set_content acc') msgs, acc')
                  end
                else Normal (msgs, acc)
            end
      end
  end.

(** [try { ... } catch (e) { /* Skip invalid JSON */ }]: whatever is thrown
    in the body is dropped, and nothing was changed before the throw. *)
Definition on_data (data : jsstring) (msgs : list Message) (acc : jsstring)
  : list Message * jsstring :=
  match try_data data msgs acc with
  | Normal r => r
  | Throw _ => (msgs, acc)
  end.

Definition data_prefix : jsstring := str "data: ".
Definition DONE : jsstring := str "[DONE]".

(** [for (const line of lines)] (lines 628-666); [break] at the sentinel
    leaves this loop, not the [while] around it. *)
Fixpoint for_lines (lines : list jsstring) (msgs : list Message) (acc : jsstring)
  : list Message * jsstring :=
  match lines with
  | [] => (msgs, acc)
  | line :: rest =>
      match strip_prefix data_prefix line with
      | Some data =>
          if eqb data DONE then (update_last clear_streaming msgs, acc)
          else let '(msgs', acc') := on_data data msgs acc in
               for_lines rest msgs' acc'
      | None => for_lines rest msgs acc
      end
  end.

(** One round of the [while]: a chunk as [decoder.decode] returns it. *)
Definition on_chunk (chunk : jsstring) (msgs : list Message) (acc : jsstring)
  : list Message * jsstring :=
  for_lines (split_nl chunk) msgs acc.

(** ** The component's state and its asynchronous functions *)

(** A request sent to the backend. *)
Inductive Request : Type :=
| start_recording
| stop_recording
| process_audio
| capture_screenshot
| send_message (messages : list (Role * jsstring)) (screenshotBase64 : option jsstring).

(** Where the one asynchronous function in flight is suspended:
    nowhere, at [await fetch(.../send_message)] (with its local
    [updatedMessages]), or at [await reader.read()] (with its local
    [accumulatedContent]). *)
Inductive Phase : Type :=
| Quiet
| AwaitResponse (updatedMessages : list Message)
| Reading (accumulatedContent : jsstring).

Record Sys := {
  messages : list Message;
  input : jsstring;
  isLoading : bool;
  isRecording : bool;
  error : option jsstring;
  abortControllerRef : bool;   (* [.current] holds a controller *)
  phase : Phase;
  outbox : list Request        (* the requests sent so far, oldest first *)
}.

Definition init : Sys :=
  {| messages := []; input := []; isLoading := false; isRecording := false;
     error := None; abortControllerRef := false; phase := Quiet; outbox := [] |}.

Definition setMessages (v : list Message) (s : Sys) : Sys :=
  {| messages := v; input := input s; isLoading := isLoading s;
     isRecording := isRecording s; error := error s;
     abortControllerRef := abortControllerRef s; phase := phase s;
     outbox := outbox s |}.
Definition setInput (v : jsstring) (s : Sys) : Sys :=
  {| messages := messages s; input := v; isLoading := isLoading s;
     isRecording := isRecording s; error := error s;
     abortControllerRef := abortControllerRef s; phase := phase s;
     outbox := outbox s |}.
Definition setIsLoading (v : bool) (s : Sys) : Sys :=
  {| messages := messages s; input := input s; isLoading := v;
     isRecording := isRecording s; error := error s;
     abortControllerRef := abortControllerRef s; phase := phase s;
     outbox := outbox s |}.
Definition setIsRecording (v : bool) (s : Sys) : Sys :=
  {| messages := messages s; input := input s; isLoading := isLoading s;
     isRecording := v; error := error s;
     abortControllerRef := abortControllerRef s; phase := phase s;
     outbox := outbox s |}.
Definition setError (v : option jsstring) (s : Sys) : Sys :=
  {| messages := messages s; input := input s; isLoading := isLoading s;
     isRecording := isRecording s; error := v;
     abortControllerRef := abortControllerRef s; phase := phase s;
     outbox := outbox s |}.
Definition setAbortController (v : bool) (s : Sys) : Sys :=
  {| messages := messages s; input := input s; isLoading := isLoading s;
     isRecording := isRecording s; error := error s;
     abortControllerRef := v; phase := phase s; outbox := outbox s |}.
Definition setPhase (v : Phase) (s : Sys) : Sys :=
  {| messages := messages s; input := input s; isLoading := isLoading s;
     isRecording := isRecording s; error := error s;
     abortControllerRef := abortControllerRef s; phase := v;
     outbox := outbox s |}.
Definition fetch (r : Request) (s : Sys) : Sys :=
  {| messages := messages s; input := input s; isLoading := isLoading s;
     isRecording := isRecording s; error := error s;
     abortControllerRef := abortControllerRef s; phase := phase s;
     outbox := outbox s ++ [r] |}.

(** The [finally] of [sendMessage] and of the stop branch of
    [toggleVoiceRecording]; the function is over. *)
Definition finally_ (s : Sys) : Sys :=
  setPhase Quiet (setIsLoading false (setAbortController false s)).

(** [catch (err)] for an error that is not an AbortError, then [finally]. *)
Definition catch_error (message : jsstring) (s : Sys) : Sys :=
  finally_ (setError (Some (str "Error: " ++ message)) s).

(** [x || d] for an optional string. *)
Definition or_default (x : option jsstring) (d : jsstring) : jsstring :=
  match x with
  | Some v => if nonempty v then v else d
  | None => d
  end.

Definition truthy_string (x : option jsstring) : bool :=
  match x with Some v => nonempty v | None => false end.

(** What the screenshot collaborator answers: an [ok] response with its
    [screenshot] field, a response that is not [ok] with its [error] field,
    or a failed request. *)
Inductive ShotAnswer : Type :=
| ShotOk (screenshot : option jsstring)
| ShotNotOk (error : option jsstring)
| ShotThrows (message : jsstring).

(** [captureScreenshot] (lines 542-557). *)
Definition captureScreenshot (a : ShotAnswer) (s : Sys) : Sys * option jsstring :=
  let s1 := fetch capture_screenshot (setError None s) in
  let failed (message : jsstring) :=
    (setError (Some (str "Screenshot failed: " ++ message)) s1, None) in
  match a with
  | ShotOk shot => (s1, shot)
  | ShotNotOk e => failed (or_default e (str "Failed to capture screenshot"))
  | ShotThrows message => failed message
  end.

Definition request_body (ms : list Message) : list (Role * jsstring) :=
  map (fun m => (role m, content m)) ms.

(** The common part of the two senders: the user message is appended, a
    fresh controller is stored and the request is sent; the function then
    waits for the response. *)
Definition submit (userMessage : Message) (shot : option jsstring) (s : Sys) : Sys :=
  let updatedMessages := messages s ++ [userMessage] in
  setPhase (AwaitResponse updatedMessages)
    (fetch (send_message (request_body updatedMessages) shot)
      (setAbortController true (setMessages updatedMessages s))).

(** [sendMessage(withScreenshot)] up to [await fetch] (lines 559-599).
    The screenshot collaborator's answer [a] is taken at once: while the
    function waits for it, [isLoading] is set and no controller is stored,
    so neither sender nor [stopGeneration] does anything. *)
Definition sendMessage (withScreenshot : bool) (a : ShotAnswer) (now : N) (s : Sys) : Sys :=
  if (negb (nonempty (trim (input s))) && negb withScreenshot) || isLoading s then s
  else
    let s1 := setError None (setIsLoading true s) in
    let '(s2, screenshotBase64) :=
      if withScreenshot then captureScreenshot a s1 else (s1, None) in
    if withScreenshot && negb (truthy_string screenshotBase64) then
      finally_ (setIsLoading false s2)
    else
      let userMessage :=
        {| role := user;
           content := (if nonempty (trim (input s)) then trim (input s)
                       else str "Analyze this screenshot");
           timestamp := now;
           screenshot := (if truthy_string screenshotBase64 then screenshotBase64 else None);
           isStreaming := None |} in
      let s3 := submit userMessage screenshotBase64 s2 in
      setInput [] s3.

(** What the recording collaborator answers to [/start_recording]: the
    response is [ok] with status "recording started", or it is not (with its
    [message] field), or the request fails. *)
Inductive StartAnswer : Type :=
| StartOk
| StartRejected (message : option jsstring)
| StartThrows (message : jsstring).

(** What it answers when the recording is stopped: [/stop_recording] fails;
    or [/process_audio] fails, is not [ok] (with its [error] field), or is
    [ok] with its [transcription] field. *)
Inductive AudioAnswer : Type :=
| StopThrows (message : jsstring)
| AudioThrows (message : jsstring)
| AudioNotOk (error : option jsstring)
| AudioOk (transcription : option jsstring).

(** [toggleVoiceRecording] up to [await fetch(.../send_message)]
    (lines 378-442), with the collaborator's answers [sa] (start branch)
    and [aa] (stop branch) taken at once, as for the screenshot. *)
Definition toggleVoiceRecording (sa : StartAnswer) (aa : AudioAnswer) (now : N) (s : Sys)
  : Sys :=
  if isLoading s then s
  else if negb (isRecording s) then
    let s1 := fetch start_recording (setError None s) in
    let failed (message : jsstring) :=
      setError (Some (str "Failed to start recording: " ++ message)) s1 in
    match sa with
    | StartOk => setIsRecording true s1
    | StartRejected m => failed (or_default m (str "Failed to start recording"))
    | StartThrows message => failed message
    end
  else
    let s1 := fetch stop_recording (setIsLoading true (setIsRecording false s)) in
    match aa with
    | StopThrows message => catch_error message s1
    | AudioThrows message => catch_error message (fetch process_audio s1)
    | AudioNotOk e =>
        catch_error (or_default e (str "Failed to process audio")) (fetch process_audio s1)
    | AudioOk transcription =>
        let s2 := fetch process_audio s1 in
        match transcription with
        | Some t =>
            if nonempty t && nonempty (trim t) then
              submit {| role := user; content := t; timestamp := now;
                        screenshot := None; isStreaming := None |} None s2
            else finally_ (setIsLoading false (setError (Some (str "No speech detected")) s2))
        | None => finally_ (setIsLoading false (setError (Some (str "No speech detected")) s2))
        end
    end.

(** [stopGeneration] (lines 370-376), and what the abort does to the
    function in flight: its pending [fetch] or [read] rejects with an
    AbortError, the [catch] only logs, the [finally] runs and the function
    is over. *)
Definition stopGeneration (s : Sys) : Sys :=
  if abortControllerRef s then
    finally_ (setIsLoading false (setAbortController false s))
  else s.

(** The response arrives (lines 601-620): not [ok] is thrown as an error;
    else the streaming assistant message is appended to the function's
    [updatedMessages], and the read loop starts when the response has a
    body. *)
Definition on_response (ok hasBody : bool) (now : N) (s : Sys) : Sys :=
  match phase s with
  | AwaitResponse updatedMessages =>
      if ok then
        let assistantMessage :=
          {| role := assistant; content := []; timestamp := now;
             screenshot := None; isStreaming := Some true |} in
        let s1 := setMessages (updatedMessages ++ [assistantMessage]) s in
        if hasBody then setPhase (Reading []) s1 else finally_ s1
      else catch_error (str "Failed to send message") s
  | _ => s
  end.

(** What happens to the component. *)
Inductive Event : Type :=
| TypeInput (v : jsstring)
| SendMessage (withScreenshot : bool) (a : ShotAnswer) (now : N)
| ToggleVoiceRecording (sa : StartAnswer) (aa : AudioAnswer) (now : N)
| StopGeneration
| ResponseArrives (ok hasBody : bool) (now : N)
| RequestFails (message : jsstring)
| ChunkArrives (chunk : jsstring)
| StreamEnds.

(** The response events reach the function in flight only: with no [fetch]
    or [read] pending there is nobody to resume. *)
Definition step (e : Event) (s : Sys) : Sys :=
  match e with
  | TypeInput v => setInput v s
  | SendMessage w a now => sendMessage w a now s
  | ToggleVoiceRecording sa aa now => toggleVoiceRecording sa aa now s
  | StopGeneration => stopGeneration s
  | ResponseArrives ok hasBody now => on_response ok hasBody now s
  | RequestFails message =>
      match phase s with
      | Quiet => s
      | _ => catch_error message s
      end
  | ChunkArrives chunk =>
      match phase s with
      | Reading acc =>
          let '(msgs, acc') := on_chunk chunk (messages s) acc in
          setPhase (Reading acc') (setMessages msgs s)
      | _ => s
      end
  | StreamEnds =>
      match phase s with
      | Reading _ => finally_ s
      | _ => s
      end
  end.

Fixpoint run_events (es : list Event) (s : Sys) : Sys :=
  match es with
  | [] => s
  | e :: es' => run_events es' (step e s)
  end.

Inductive reachable : Sys -> Prop :=
| reach_init : reachable init
| reach_step : forall e s, reachable s -> reachable (step e s).

(** The last message of the transcript. *)
Definition trailing (s : Sys) : option Message := last (map Some (messages s)) None.

(** The transcript invariant of the specification: no message but the last
    one is streaming. *)
Definition none_streaming (ms : list Message) : bool :=
  forallb (fun m => negb (streaming m)) ms.
Definition transcript_ok (ms : list Message) : bool :=
  none_streaming (removelast ms).

End WithHost.

(** A host for closed examples, none of which has a number or a value that
    is not a string to convert: a literal is non-zero when one of its digits
    before the exponent is, and no conversion is offered. *)
Fixpoint mantissa_nonzero (lit : jsstring) : bool :=
  match lit with
  | [] => false
  | c :: l' =>
      if ((c =? 101) || (c =? 69))%N then false
      else if ((49 <=? c) && (c <=? 57))%N then true
      else mantissa_nonzero l'
  end.
Definition example_host : Host :=
  {| number_truthy := mantissa_nonzero; to_primitive_string := fun _ => None |}.

End App.

(* ================================================================== *)
(** * The runtime: patterns with alternatives and line anchors,
      [replace], [match], [split]                                        *)
(* ================================================================== *)

(** The patterns of [stripMarkdown], [formatTextPart] and
    [formatCodeContent] also use alternatives and, under the flag [m], the
    anchor [^], which looks at the character before the position.  [RX] is
    the matcher of [JS] with these two added; a position is the character
    before it (if any) and the text ahead. *)
Module RX.
Import JS.

(** LineTerminator code units: what [.] does not match and what [^] may
    follow under the flag [m]. *)
Definition isLineTerminator (c : char) : bool :=
  ((c =? 10) || (c =? 13) || (c =? 8232) || (c =? 8233))%N.

Inductive rx : Type :=
| Empty
| Chr (c : char)
| Cls (p : char -> bool)
| Seq (r1 r2 : rx)
| Alt (r1 r2 : rx)
| Star (greedy : bool) (r : rx)
| Grp (i : nat) (r : rx)
| Bol.

Section Matcher.
Variable R : Type.

Definition cont : Type := option char -> jsstring -> captures -> option R.

Fixpoint loop (greedy : bool)
    (once : option char -> jsstring -> captures -> cont -> option R)
    (k : cont) (fuel : nat) (prev : option char) (s : jsstring) (c : captures)
  : option R :=
  match fuel with
  | O => k prev s c
  | S fuel' =>
      let more :=
        once prev s c (fun prev' s' c' =>
          if length s' <? length s then loop greedy once k fuel' prev' s' c'
          else None) in
      if greedy then orelse more (k prev s c) else orelse (k prev s c) more
  end.

Fixpoint run (r : rx) (prev : option char) (s : jsstring) (c : captures) (k : cont)
  : option R :=
  match r with
  | Empty => k prev s c
  | Chr a =>
      match s with
      | x :: s' => if N.eqb x a then k (Some x) s' c else None
      | [] => None
      end
  | Cls p =>
      match s with
      | x :: s' => if p x then k (Some x) s' c else None
      | [] => None
      end
  | Seq r1 r2 => run r1 prev s c (fun prev' s' c' => run r2 prev' s' c' k)
  | Alt r1 r2 => orelse (run r1 prev s c k) (run r2 prev s c k)
  | Star greedy r0 => loop greedy (run r0) k (S (length s)) prev s c
  | Grp i r0 =>
      run r0 prev s c (fun prev' s' c' =>
        k prev' s' ((i, firstn (length s - length s') s) :: c'))
  | Bol =>
      match prev with
      | None => k prev s c
      | Some x => if isLineTerminator x then k prev s c else None
      end
  end.
End Matcher.
Arguments loop {R} greedy once k fuel prev s c.
Arguments run {R} r prev s c k.

Definition plus (greedy : bool) (r : rx) : rx := Seq r (Star greedy r).
Fixpoint lits (s : jsstring) : rx :=
  match s with
  | [] => Empty
  | c :: s' => Seq (Chr c) (lits s')
  end.
Fixpoint alts (rs : list rx) : rx :=
  match rs with
  | [] => Cls (fun _ => false)
  | [r] => r
  | r :: rs' => Alt r (alts rs')
  end.
(** [r{n,}] for a class [r]. *)
Fixpoint at_least (n : nat) (r : rx) : rx :=
  match n with
  | O => Star true r
  | S n' => Seq r (at_least n' r)
  end.

Record RegExp := { body : rx; ngroups : nat }.

Definition match_at (re : RegExp) (prev : option char) (s : jsstring)
  : option (jsstring * captures) :=
  run (body re) prev s [] (fun _ s' c => Some (s', c)).

Definition mkMatch (re : RegExp) (i : nat) (s rest : jsstring) (c : captures) : Match :=
  {| index := i;
     whole := firstn (length s - length rest) s;
     groups := map (fun g => lookup g c) (seq 1 (ngroups re)) |}.

Fixpoint search (re : RegExp) (prev : option char) (s : jsstring) (i : nat)
  : option Match :=
  match match_at re prev s with
  | Some (rest, c) => Some (mkMatch re i s rest c)
  | None =>
      match s with
      | [] => None
      | x :: s' => search re (Some x) s' (S i)
      end
  end.

Definition char_before (t : jsstring) (i : nat) : option char :=
  match i with
  | O => None
  | S j => nth_error t j
  end.

Definition exec (re : RegExp) (t : jsstring) (lastIndex : nat) : option Match :=
  if length t <? lastIndex then None
  else search re (char_before t lastIndex) (skipn lastIndex t) lastIndex.

(** The matches a global pattern yields one after the other, as [replace]
    and [match] collect them. *)
Fixpoint matches_from (fuel : nat) (re : RegExp) (t : jsstring) (lastIndex : nat)
  : list Match :=
  match fuel with
  | O => []
  | S fuel' =>
      match exec re t lastIndex with
      | None => []
      | Some m =>
          m :: matches_from fuel' re t
                 (if nonempty (whole m) then match_end m else S (match_end m))
      end
  end.
Definition matches (re : RegExp) (t : jsstring) : list Match :=
  matches_from (2 + length t) re t 0.

(** A replacement string: text and group references [$n]. *)
Inductive item : Type :=
| Text (s : jsstring)
| Ref (n : nat).

Definition group (m : Match) (n : nat) : option jsstring :=
  match n with
  | O => Some (whole m)
  | S j => match nth_error (groups m) j with Some g => g | None => None end
  end.

Definition substitution (tmpl : list item) (m : Match) : jsstring :=
  flat_map (fun it =>
              match it with
              | Text s => s
              | Ref n => match group m n with Some g => g | None => [] end
              end) tmpl.

(** The accumulation of [replace]: the text between the matches and the
    substitutions. *)
Fixpoint accumulate (t : jsstring) (tmpl : list item) (ms : list Match)
    (nextSourcePosition : nat) (accumulatedResult : jsstring) : nat * jsstring :=
  match ms with
  | [] => (nextSourcePosition, accumulatedResult)
  | m :: ms' =>
      if nextSourcePosition <=? index m then
        accumulate t tmpl ms' (match_end m)
          (accumulatedResult ++ slice t nextSourcePosition (index m)
           ++ substitution tmpl m)
      else accumulate t tmpl ms' nextSourcePosition accumulatedResult
  end.

(** [t.replace(re, tmpl)] for a global pattern. *)
Definition replace (re : RegExp) (tmpl : list item) (t : jsstring) : jsstring :=
  let '(next, acc) := accumulate t tmpl (matches re t) 0 [] in
  if length t <=? next then acc else acc ++ slice_from t next.

(** [t.match(re)] for a global pattern: [None] is [null]. *)
Definition match_g (re : RegExp) (t : jsstring) : option (list jsstring) :=
  match matches re t with
  | [] => None
  | ms => Some (map whole ms)
  end.

(** [t.includes(sub)]. *)
Fixpoint includes (t sub : jsstring) : bool :=
  startsWith t sub ||
  match t with
  | [] => false
  | _ :: t' => includes t' sub
  end.

(** [t.split('\n\n')]. *)
Fixpoint split_blank (s : jsstring) : list jsstring :=
  match s with
  | [] => [[]]
  | c :: s' =>
      let keep :=
        match split_blank s' with
        | l :: ls => (c :: l) :: ls
        | [] => [[c]]
        end in
      match s' with
      | d :: s'' => if N.eqb c nl && N.eqb d nl then [] :: split_blank s'' else keep
      | [] => keep
      end
  end.

(** [parts.join(' ')]. *)
Fixpoint join_space (parts : list jsstring) : jsstring :=
  match parts with
  | [] => []
  | [p] => p
  | p :: ps => p ++ 32%N :: join_space ps
  end.

End RX.

(* ================================================================== *)
(** * MessageList.tsx: the formatting of the parts                       *)
(* ================================================================== *)

Module Format.
Import JS MessageList.
Import RX.

Definition dot : rx := Cls (fun c => negb (isLineTerminator c)).
Definition space : rx := Cls isWhiteSpace.
Definition nonspace : rx := Cls (fun c => negb (isWhiteSpace c)).
Definition word : rx := Cls isWordChar.

Definition bullet : jsstring := [8226%N; 32%N].

(** The eleven replacements of [stripMarkdown] (lines 177-187), in the
    order they are chained. *)
Definition markdown_rules : list (RegExp * list item) :=
  [ (* /\*\*(.+?)\*\*/g, '$1' *)
    ({| body := Seq (lits (str "**")) (Seq (Grp 1 (plus false dot)) (lits (str "**")));
        ngroups := 1 |}, [Ref 1]);
    (* /\*(.+?)\*/g, '$1' *)
    ({| body := Seq (lits (str "*")) (Seq (Grp 1 (plus false dot)) (lits (str "*")));
        ngroups := 1 |}, [Ref 1]);
    (* /\_\_(.+?)\_\_/g, '$1' *)
    ({| body := Seq (lits (str "__")) (Seq (Grp 1 (plus false dot)) (lits (str "__")));
        ngroups := 1 |}, [Ref 1]);
    (* /\_(.+?)\_/g, '$1' *)
    ({| body := Seq (lits (str "_")) (Seq (Grp 1 (plus false dot)) (lits (str "_")));
        ngroups := 1 |}, [Ref 1]);
    (* /\#+ /g, '' *)
    ({| body := Seq (plus true (Chr 35%N)) (Chr 32%N); ngroups := 0 |}, []);
    (* /\[(.+?)\]\(.+?\)/g, '$1' *)
    ({| body := Seq (Chr 91%N) (Seq (Grp 1 (plus false dot))
                 (Seq (lits (str "](")) (Seq (plus false dot) (Chr 41%N))));
        ngroups := 1 |}, [Ref 1]);
    (* /\!\[.*?\]\(.+?\)/g, '' *)
    ({| body := Seq (lits (str "![")) (Seq (Star false dot)
                 (Seq (lits (str "](")) (Seq (plus false dot) (Chr 41%N))));
        ngroups := 0 |}, []);
    (* /^\> /gm, '' *)
    ({| body := Seq Bol (lits (str "> ")); ngroups := 0 |}, []);
    (* /^\* /gm, bullet *)
    ({| body := Seq Bol (lits (str "* ")); ngroups := 0 |}, [Text bullet]);
    (* /^\- /gm, bullet *)
    ({| body := Seq Bol (lits (str "- ")); ngroups := 0 |}, [Text bullet]);
    (* /^\+ /gm, bullet *)
    ({| body := Seq Bol (lits (str "+ ")); ngroups := 0 |}, [Text bullet]) ].

Definition apply_rules (rules : list (RegExp * list item)) (t : jsstring) : jsstring :=
  fold_left (fun acc rule => replace (fst rule) (snd rule) acc) rules t.

Definition stripMarkdown (t : jsstring) : jsstring := apply_rules markdown_rules t.

(** The keywords of the first Python rule (line 265). *)
Definition python_keywords : list jsstring :=
  [str "def "; str "class "; str "if "; str "elif "; str "else:"; str "for ";
   str "while "; str "try:"; str "except "; str "finally:"; str "with ";
   str "return "; str "import "; str "from "].

Definition indent : jsstring := nl :: str "    ".

(** The three rules for Python (lines 265-267) and the three for any
    language (lines 271-273). *)
Definition python_rules : list (RegExp * list item) :=
  [ ({| body := Seq (Grp 1 (Chr 41%N)) (Seq (Grp 2 (Star true space))
                  (Grp 3 (alts (map lits python_keywords))));
        ngroups := 3 |}, [Text [41%N; nl]; Ref 2; Ref 3]);
    ({| body := Seq (Grp 1 (Seq (Chr 58%N) (at_least 2 space))) (Grp 2 nonspace);
        ngroups := 2 |}, [Text (58%N :: indent); Ref 2]);
    ({| body := Seq (Grp 1 nonspace) (Seq (Grp 2 (at_least 4 space)) (Grp 3 nonspace));
        ngroups := 3 |}, [Ref 1; Text indent; Ref 3]) ].

Definition break_after (c : char) : RegExp * list item :=
  ({| body := Seq (Grp 1 (Chr c)) (Seq (Grp 2 (Star true space)) (Grp 3 word));
      ngroups := 3 |}, [Ref 1; Text [nl]; Ref 2; Ref 3]).

Definition general_rules : list (RegExp * list item) :=
  [break_after 59%N; break_after 123%N; break_after 125%N].

(** [formatCodeContent] (lines 253-276). *)
Definition formatCodeContent (code language : jsstring) : jsstring :=
  if includes code [nl] then code
  else
    let formatted :=
      if eqb language (str "python") || eqb language (str "py")
      then apply_rules python_rules code else code in
    apply_rules general_rules formatted.

(** [/[^.!?]+[.!?]+/g] *)
Definition isSentenceEnd (c : char) : bool :=
  ((c =? 46) || (c =? 33) || (c =? 63))%N.
Definition sentence : RegExp :=
  {| body := Seq (plus true (Cls (fun c => negb (isSentenceEnd c))))
                 (plus true (Cls isSentenceEnd));
     ngroups := 0 |}.

Definition nonblank (s : jsstring) : bool := nonempty (trim s).

(** [for (let i = 0; i < sentences.length; i += 3)] with
    [sentences.slice(i, i + 3).join(' ').trim()]. *)
Fixpoint group_sentences (sentences : list jsstring) : list jsstring :=
  match sentences with
  | [] => []
  | a :: b :: c :: rest =>
      let chunk := trim (join_space [a; b; c]) in
      (if nonempty chunk then [chunk] else []) ++ group_sentences rest
  | few =>
      let chunk := trim (join_space few) in
      if nonempty chunk then [chunk] else []
  end.

(** [formatTextPart] (lines 208-251): the texts of the paragraphs it
    renders, each through [renderTextWithInlineCode]; [None] is [null]. *)
Definition formatTextPart (t : jsstring) : option (list jsstring) :=
  let cleaned := stripMarkdown t in
  if includes cleaned [nl; nl] then
    Some (map trim (filter nonblank (split_blank cleaned)))
  else
    let lines := filter nonblank (split_nl cleaned) in
    if 1 <? length lines then Some (map trim lines)
    else
      let textContent := trim cleaned in
      if nonempty textContent then
        let sentences :=
          match match_g sentence textContent with
          | Some ss => ss
          | None => [textContent]
          end in
        Some (group_sentences sentences)
      else None.

(** What [formatContent] (lines 278-298) renders for a part: a code block
    with its reflowed code and its language, or the paragraphs of a prose
    part with their runs. *)
Inductive Block : Type :=
| pre (code : jsstring) (language : jsstring)
| div (paragraphs : option (list (list Run))).

Definition formatContent (content : jsstring) : list Block :=
  map (fun part =>
         match part with
         | code c l =>
             pre (formatCodeContent c (if nonempty l then l else plaintext)) l
         | text c =>
             div (option_map (map processInlineCode) (formatTextPart c))
         end)
      (parseContent content).

End Format.

(* ================================================================== *)
(** * MessageList.tsx: following the end of the list                     *)
(* ================================================================== *)

(** The scroll listener of the list, the timer it arms and the effect that
    scrolls the end of the list into view (lines 16-63).  The window's
    timers are part of the state; the metrics of the container are read
    by the listener only to decide whether the list is at its bottom, and
    a scroll event carries that decision. *)
Module Scroll.

Record View := {
  isUserScrolling : bool;
  scrollTimeoutRef : option nat;
  timers : list nat;          (* the timers of the window that are armed *)
  nextTimer : nat;            (* the id [window.setTimeout] returns next *)
  scrolledIntoView : nat      (* the calls of [scrollIntoView] so far *)
}.

(** The effect of lines 58-63. *)
Definition autoScroll (v : View) : View :=
  if negb (isUserScrolling v) then
    {| isUserScrolling := isUserScrolling v;
       scrollTimeoutRef := scrollTimeoutRef v;
       timers := timers v;
       nextTimer := nextTimer v;
       scrolledIntoView := S (scrolledIntoView v) |}
  else v.

(** After the first render: no timer, and the effect has run once. *)
Definition mounted : View :=
  autoScroll {| isUserScrolling := false; scrollTimeoutRef := None;
                timers := []; nextTimer := 1; scrolledIntoView := 0 |}.

(** The effect runs again when [isUserScrolling] has changed. *)
Definition rerender (before : bool) (v : View) : View :=
  if Bool.eqb before (isUserScrolling v) then v else autoScroll v.

Definition setIsUserScrolling (b : bool) (v : View) : View :=
  {| isUserScrolling := b;
     scrollTimeoutRef := scrollTimeoutRef v;
     timers := timers v;
     nextTimer := nextTimer v;
     scrolledIntoView := scrolledIntoView v |}.

Definition clearTimeout (id : nat) (v : View) : View :=
  {| isUserScrolling := isUserScrolling v;
     scrollTimeoutRef := scrollTimeoutRef v;
     timers := filter (fun i => negb (Nat.eqb i id)) (timers v);
     nextTimer := nextTimer v;
     scrolledIntoView := scrolledIntoView v |}.

(** [scrollTimeoutRef.current = window.setTimeout(...)]. *)
Definition setTimeout (v : View) : View :=
  {| isUserScrolling := isUserScrolling v;
     scrollTimeoutRef := Some (nextTimer v);
     timers := nextTimer v :: timers v;
     nextTimer := S (nextTimer v);
     scrolledIntoView := scrolledIntoView v |}.

(** [handleScroll] (lines 25-47). *)
Definition handleScroll (isAtBottom : bool) (v : View) : View :=
  let v1 := setIsUserScrolling (negb isAtBottom) v in
  let v2 :=
    match scrollTimeoutRef v1 with
    | Some id => if Nat.eqb id 0 then v1 else clearTimeout id v1
    | None => v1
    end in
  if isAtBottom then setTimeout v2 else v2.

Inductive Event : Type :=
| ScrollEvent (isAtBottom : bool)
| TimerFires (id : nat)
| MessagesChange.

Definition step (e : Event) (v : View) : View :=
  match e with
  | ScrollEvent b => rerender (isUserScrolling v) (handleScroll b v)
  | TimerFires id =>
      if existsb (Nat.eqb id) (timers v) then
        rerender (isUserScrolling v)
                 (setIsUserScrolling false (clearTimeout id v))
      else v
  | MessagesChange => autoScroll v
  end.

Definition run (es : list Event) (v : View) : View :=
  fold_left (fun v e => step e v) es v.

End Scroll.

Import JS MessageList JSON App.

(* ================================================================== *)
(** * Vocabulary of the specification                                    *)
(* ================================================================== *)

(** ** Segmenter *)

(** The grammar the segmenter settles on, with its matches: the first
    pattern, in priority order, that matches somewhere. *)
Fixpoint select (t : jsstring) (ps : list RegExp) : option (RegExp * list Match) :=
  match ps with
  | [] => None
  | p :: ps' =>
      match matchAll p t with
      | [] => select t ps'
      | ms => Some (p, ms)
      end
  end.

(** What a grammar captured in a match: the body is its last group, the
    language tag its first group when it has two. *)
Definition captured_body (re : RegExp) (m : Match) : option jsstring :=
  group m (ngroups re).
Definition captured_tag (re : RegExp) (m : Match) : option jsstring :=
  if Nat.eqb (ngroups re) 2 then group m 1 else None.

(** The Code segment owed to a match: none when the body is empty. *)
Definition segment_of (re : RegExp) (m : Match) : list Part :=
  match captured_body re m with
  | Some b =>
      if nonempty b
      then [code b (or_default (captured_tag re m) plaintext)]
      else []
  | None => []
  end.

Definition is_code (p : Part) : bool :=
  match p with code _ _ => true | text _ => false end.
Definition code_parts (ps : list Part) : list Part := filter is_code ps.

(** ** Inline annotator *)

Definition not_backtick (c : char) : bool := negb (N.eqb c backtick).

(** [closes s]: [s] starts with one character or more that are not
    backticks, and then a backtick. *)
Fixpoint closes_after (seen : bool) (s : jsstring) : bool :=
  match s with
  | [] => false
  | c :: s' => if N.eqb c backtick then seen else closes_after true s'
  end.
Definition closes (s : jsstring) : bool := closes_after false s.

(** [has_span t]: somewhere in [t] there is an inline-code span. *)
Fixpoint has_span (t : jsstring) : bool :=
  match t with
  | [] => false
  | c :: t' => (N.eqb c backtick && closes t') || has_span t'
  end.

(** ** Stream decoder and session controller *)

(** One frame of the response: a line with the event prefix. *)
Definition frame (payload : jsstring) : jsstring := data_prefix ++ payload ++ [nl].

Definition single_line (s : jsstring) : bool :=
  forallb (fun c => negb (N.eqb c nl)) s.

(** [ends_line pre]: a line starts right after [pre]. *)
Definition ends_line (pre : jsstring) : bool :=
  match rev pre with
  | [] => true
  | c :: _ => N.eqb c nl
  end.

(** The payload is a delta frame's: an object with no truthy [error] and a
    non-empty string [content], which is returned. *)
Definition delta_of (host : Host) (payload : jsstring) : option jsstring :=
  match parse payload with
  | Some (JObject ms) =>
      if truthy host (find_member (str "error") ms) then None
      else match find_member (str "content") ms with
           | Some (JString d) => if nonempty d then Some d else None
           | _ => None
           end
  | _ => None
  end.

(** The payload is an object with a truthy [error] field. *)
Definition carries_error (host : Host) (payload : jsstring) : bool :=
  match parse payload with
  | Some (JObject ms) => truthy host (find_member (str "error") ms)
  | _ => false
  end.


(** The line is the sentinel frame; the text has such a line. *)
Definition done_line (line : jsstring) : bool :=
  match strip_prefix data_prefix line with
  | Some data => eqb data DONE
  | None => false
  end.
Definition has_done (chunk : jsstring) : bool := existsb done_line (split_nl chunk).


(** Events that start a turn, and events of the response stream. *)
Definition starts_turn (e : Event) : bool :=
  match e with
  | SendMessage _ _ _ | ToggleVoiceRecording _ _ _ => true
  | _ => false
  end.
Definition stream_event (e : Event) : bool :=
  match e with
  | ResponseArrives _ _ _ | RequestFails _ | ChunkArrives _ | StreamEnds => true
  | _ => false
  end.

(** An empty or whitespace-only transcription (or none at all). *)
Definition blank (transcription : option jsstring) : bool :=
  match transcription with
  | None => true
  | Some t => negb (nonempty (trim t))
  end.

(** What holds of the component in every state it can reach: the flags
    agree with where the function in flight is suspended, the function's
    [updatedMessages] is the transcript and ends with the user message,
    and the read loop's transcript ends with the assistant message whose
    content is [accumulatedContent]. *)
Definition wf (s : Sys) : Prop :=
  match phase s with
  | Quiet => isLoading s = false /\ abortControllerRef s = false
  | AwaitResponse um =>
      isLoading s = true /\ abortControllerRef s = true /\ messages s = um
      /\ exists ms u, um = ms ++ [u] /\ role u = user /\ isStreaming u = None
  | Reading acc =>
      isLoading s = true /\ abortControllerRef s = true
      /\ exists ms m, messages s = ms ++ [m] /\ role m = assistant /\ content m = acc
  end.

(** The three frames of the specification's example, in each of the ways
    to cut them into chunks at frame boundaries. *)
Definition hello_chunkings : list (list jsstring) :=
  let f1 := frame (dq "{'content':'Hello'}") in
  let f2 := frame (dq "{'content':' world'}") in
  let f3 := frame DONE in
  [ [f1 ++ f2 ++ f3]; [f1; f2 ++ f3]; [f1 ++ f2; f3]; [f1; f2; f3] ].

(** A turn just opened, for closed examples: the user typed and sent "hi",
    the response arrived and the read loop waits for its first chunk. *)
Definition opened_turn : Sys :=
  run_events example_host
    [TypeInput (str "hi"); SendMessage false (ShotOk None) 1; ResponseArrives true true 2]
    init.

(** ** Further vocabulary *)

(** [has_fence t]: three backticks in a row occur in [t]. *)
Fixpoint has_fence (t : jsstring) : bool :=
  match t with
  | [] => false
  | _ :: t' => startsWith t (str "```") || has_fence t'
  end.

(** A prose part whose content is not blank, a code part with a content
    and a language. *)
Definition part_filled (p : Part) : bool :=
  match p with
  | text c => nonempty (trim c)
  | code c l => nonempty c && nonempty l
  end.

(** A prose part with no white space around its content. *)
Definition part_trimmed (p : Part) : Prop :=
  match p with
  | text c => trim c = c
  | code _ _ => True
  end.

(** The text a run was cut from: an inline-code run gets its backticks
    back. *)
Definition run_source (r : Run) : jsstring :=
  match r with
  | plain c => c
  | inline_code c => backtick :: c ++ [backtick]
  end.
Definition runs_source (rs : list Run) : jsstring := flat_map run_source rs.

Definition run_filled (r : Run) : bool :=
  match r with
  | plain c => nonempty c
  | inline_code c => nonempty c && forallb not_backtick c
  end.

Definition is_inline_code (r : Run) : bool :=
  match r with inline_code _ => true | plain _ => false end.

Definition part_good (p : Part) : Prop := part_filled p = true /\ part_trimmed p.

(** A chat request is in flight: its response is awaited or its stream
    is read. *)
Definition in_flight (s : Sys) : bool :=
  match phase s with
  | Quiet => false
  | _ => true
  end.

Definition is_user (m : Message) : bool :=
  match role m with user => true | assistant => false end.
Definition is_send (r : Request) : bool :=
  match r with send_message _ _ => true | _ => false end.

(** Every assistant message comes right after a user message. *)
Fixpoint follows_user (after_user : bool) (rs : list Role) : bool :=
  match rs with
  | [] => true
  | user :: rs' => follows_user true rs'
  | assistant :: rs' => after_user && follows_user false rs'
  end.

(** The screenshot collaborator gave nothing to send. *)
Definition shot_failed (a : ShotAnswer) : bool :=
  match a with
  | ShotOk shot => negb (truthy_string shot)
  | ShotNotOk _ | ShotThrows _ => true
  end.

(** The payload is a JSON text with a truthy [content] to append (and no
    truthy [error] before it). *)
Definition has_content (host : Host) (payload : jsstring) : bool :=
  match parse payload with
  | Some (JObject ms) =>
      negb (truthy host (find_member (str "error") ms))
      && truthy host (find_member (str "content") ms)
  | _ => false
  end.

(** What is known of the requests sent, beside [wf]: one chat request per
    user message, and while the response is awaited the last request is the
    chat request with the whole transcript. *)
Definition requests_ok (s : Sys) : Prop :=
  length (filter is_user (messages s)) = length (filter is_send (outbox s))
  /\ follows_user false (map role (messages s)) = true
  /\ match phase s with
     | AwaitResponse um =>
         exists sent shot, outbox s = sent ++ [send_message (request_body um) shot]
     | _ => True
     end.

(** ** What a pattern of [RX] can match

    [sem r prev g c c' prev']: the pattern [r], started after the
    character [prev] with the captures [c], can match the text [g], and
    then leaves the captures [c'] and stands after [prev']. *)

Inductive rounds
    (P : option char -> jsstring -> captures -> captures -> option char -> Prop)
  : option char -> jsstring -> captures -> captures -> option char -> Prop :=
| rounds_done prev c : rounds P prev [] c c prev
| rounds_more prev g1 c c1 p1 g2 c2 p2 :
    P prev g1 c c1 p1 -> g1 <> [] -> rounds P p1 g2 c1 c2 p2 ->
    rounds P prev (g1 ++ g2) c c2 p2.

Fixpoint sem (r : RX.rx) (prev : option char) (g : jsstring) (c c' : captures)
    (prev' : option char) : Prop :=
  match r with
  | RX.Empty => g = [] /\ c' = c /\ prev' = prev
  | RX.Chr a => g = [a] /\ c' = c /\ prev' = Some a
  | RX.Cls p => exists x, p x = true /\ g = [x] /\ c' = c /\ prev' = Some x
  | RX.Seq r1 r2 =>
      exists g1 g2 c1 p1,
        g = g1 ++ g2 /\ sem r1 prev g1 c c1 p1 /\ sem r2 p1 g2 c1 c' prev'
  | RX.Alt r1 r2 => sem r1 prev g c c' prev' \/ sem r2 prev g c c' prev'
  | RX.Star _ r0 => rounds (sem r0) prev g c c' prev'
  | RX.Grp i r0 => exists c1, sem r0 prev g c c1 prev' /\ c' = (i, g) :: c1
  | RX.Bol =>
      g = [] /\ c' = c /\ prev' = prev
      /\ match prev with
         | None => True
         | Some x => RX.isLineTerminator x = true
         end
  end.

(** [m] is a match of [re]: its text is one the pattern can match, and its
    groups are the captures of that match. *)
Definition is_match (re : RX.RegExp) (m : Match) : Prop :=
  exists p0 c p',
    sem (RX.body re) p0 (whole m) [] c p'
    /\ groups m = map (fun g => lookup g c) (seq 1 (RX.ngroups re)).

(** A text cut into stretches, each followed by a match, and a rest; and
    the same text with every match replaced. *)
Definition source_of (segs : list (jsstring * Match)) (rest : jsstring) : jsstring :=
  flat_map (fun pm => fst pm ++ whole (snd pm)) segs ++ rest.
Definition result_of (tmpl : list RX.item) (segs : list (jsstring * Match))
    (rest : jsstring) : jsstring :=
  flat_map (fun pm => fst pm ++ RX.substitution tmpl (snd pm)) segs ++ rest.

(** A pattern with no capture group in it. *)
Fixpoint groupless (r : RX.rx) : bool :=
  match r with
  | RX.Seq r1 r2 | RX.Alt r1 r2 => groupless r1 && groupless r2
  | RX.Star _ r0 => groupless r0
  | RX.Grp _ _ => false
  | _ => true
  end.

(** A pattern that matches characters of [P] only. *)
Fixpoint within (P : char -> Prop) (r : RX.rx) : Prop :=
  match r with
  | RX.Chr a => P a
  | RX.Cls p => forall x, p x = true -> P x
  | RX.Seq r1 r2 | RX.Alt r1 r2 => within P r1 /\ within P r2
  | RX.Star _ r0 | RX.Grp _ r0 => within P r0
  | _ => True
  end.

(** A pattern whose every match starts with the character [a]. *)
Fixpoint starts (a : char) (r : RX.rx) : Prop :=
  match r with
  | RX.Chr b => b = a
  | RX.Seq r1 r2 =>
      match r1 with
      | RX.Bol => starts a r2
      | _ => starts a r1
      end
  | RX.Grp _ r0 => starts a r0
  | _ => False
  end.

(** The characters the rules of [stripMarkdown] start at. *)
Definition markdown_chars : jsstring := str "*_#[>-+".
Definition is_markdown_char (x : char) : bool := existsb (N.eqb x) markdown_chars.
Definition plain_text (t : jsstring) : bool :=
  forallb (fun x => negb (is_markdown_char x)) t.

Definition not_space (c : char) : bool := negb (isWhiteSpace c).
Definition not_nl (c : char) : bool := negb (N.eqb c nl).
Definition is_python (language : jsstring) : bool :=
  eqb language (str "python") || eqb language (str "py").

(** A paragraph as [formatTextPart] hands it on: not empty, no white space
    around it. *)
Definition paragraph_ok (p : jsstring) : Prop := nonempty p = true /\ trim p = p.

(** A text with no sentence end [. ! ?] in it. *)
Definition unpunctuated (t : jsstring) : bool :=
  forallb (fun x => negb (Format.isSentenceEnd x)) t.

(** [formatTextPart] rendered at least one paragraph. *)
Definition has_paragraph (o : option (list jsstring)) : bool :=
  match o with
  | Some (_ :: _) => true
  | _ => false
  end.

Definition nonempty_list {A : Type} (l : list A) : bool :=
  match l with [] => false | _ :: _ => true end.

(** A paragraph that ends with a sentence end. *)
Definition ends_sentence (p : jsstring) : bool :=
  match rev p with
  | x :: _ => Format.isSentenceEnd x
  | [] => false
  end.

(** ** The view that follows the end of the list *)

(** The decision of the last scroll event of a history. *)
Definition last_scroll (es : list Scroll.Event) : option bool :=
  fold_left (fun acc e =>
               match e with
               | Scroll.ScrollEvent b => Some b
               | _ => acc
               end) es None.

(** What holds of the timers after every history: at most one is armed,
    the stored one, and then the list is at its bottom. *)
Definition timers_ok (v : Scroll.View) : Prop :=
  0 < Scroll.nextTimer v
  /\ (Scroll.timers v = []
      \/ exists id, Scroll.timers v = [id]
                    /\ Scroll.scrollTimeoutRef v = Some id
                    /\ 0 < id
                    /\ Scroll.isUserScrolling v = false).

(* ================================================================== *)
(** * The bounds of the runtime model are never met                      *)
(* ================================================================== *)

(** The loops of the matcher and of [matchAll] are written with a bound on
    the number of rounds.  A round consumes at least one character, so the
    bound taken from the length of the text is never reached: any larger
    bound gives the same result. *)

Section Bounds.

Lemma repeat_ext {R : Type} (g : bool)
      (once : jsstring -> captures -> (jsstring -> captures -> option R) -> option R)
      (k1 k2 : jsstring -> captures -> option R) :
  (forall s c h1 h2, (forall s' c', h1 s' c' = h2 s' c') -> once s c h1 = once s c h2) ->
  (forall s c, k1 s c = k2 s c) ->
  forall fuel s c, repeat_ g once k1 fuel s c = repeat_ g once k2 fuel s c.
Proof.
  intros Honce Hk. induction fuel as [|fuel IH]; intros s c; cbn [repeat_].
  - apply Hk.
  - rewrite (Hk s c).
    rewrite (Honce s c _ (fun s' c' =>
               if length s' <? length s then repeat_ g once k2 fuel s' c' else None)).
    + reflexivity.
    + intros s' c'. destruct (length s' <? length s); [apply IH|reflexivity].
Qed.

(** The matcher depends on its continuation through its values only. *)
Lemma run_ext {R : Type} (r : regex) :
  forall s c (k1 k2 : jsstring -> captures -> option R),
    (forall s' c', k1 s' c' = k2 s' c') -> run r s c k1 = run r s c k2.
Proof.
  induction r as [|a|p|r1 IH1 r2 IH2|g r0 IH0|i r0 IH0]; intros s c k1 k2 Hk;
    cbn [run].
  - apply Hk.
  - destruct s as [|x s']; [reflexivity|]. destruct (N.eqb x a); [apply Hk|reflexivity].
  - destruct s as [|x s']; [reflexivity|]. destruct (p x); [apply Hk|reflexivity].
  - apply IH1. intros s' c'. now apply IH2.
  - apply repeat_ext; [|exact Hk]. intros s0 c0 h1 h2 Hh. now apply IH0.
  - apply IH0. intros s' c'. apply Hk.
Qed.

Lemma repeat_fuel {R : Type} (g : bool) (r0 : regex)
      (k : jsstring -> captures -> option R) :
  forall f1 f2 s c,
    length s < f1 -> length s < f2 ->
    repeat_ g (run r0) k f1 s c = repeat_ g (run r0) k f2 s c.
Proof.
  induction f1 as [|f1 IH]; intros f2 s c H1 H2; [lia|].
  destruct f2 as [|f2]; [lia|]. cbn [repeat_].
  rewrite (run_ext r0 s c _ (fun s' c' =>
             if length s' <? length s then repeat_ g (run r0) k f2 s' c' else None)).
  - reflexivity.
  - intros s' c'. destruct (length s' <? length s) eqn:E; [|reflexivity].
    apply Nat.ltb_lt in E. apply IH; lia.
Qed.

Lemma search_index (re : RegExp) (s : jsstring) :
  forall i m, search re s i = Some m -> i <= index m.
Proof.
  induction s as [|x s IH]; intros i m; cbn [search].
  - destruct (match_at re []) as [[rest c]|]; [|discriminate].
    intros H. inversion H. simpl. lia.
  - destruct (match_at re (x :: s)) as [[rest c]|].
    + intros H. inversion H. simpl. lia.
    + intros H. apply IH in H. lia.
Qed.

Lemma exec_index (re : RegExp) (t : jsstring) (li : nat) (m : Match) :
  exec re t li = Some m -> li <= index m.
Proof.
  unfold exec. destruct (length t <? li); [discriminate|]. apply search_index.
Qed.

Lemma exec_past_end (re : RegExp) (t : jsstring) (li : nat) :
  length t < li -> exec re t li = None.
Proof.
  intros H. unfold exec. apply Nat.ltb_lt in H. now rewrite H.
Qed.

Lemma matchAll_fuel (re : RegExp) (t : jsstring) :
  forall f1 f2 li,
    length t + 2 <= f1 + li -> length t + 2 <= f2 + li ->
    matchAll_from f1 re t li = matchAll_from f2 re t li.
Proof.
  induction f1 as [|f1 IH]; intros f2 li H1 H2.
  - destruct f2 as [|f2]; [reflexivity|]. cbn [matchAll_from].
    rewrite exec_past_end by lia. reflexivity.
  - destruct f2 as [|f2]; cbn [matchAll_from].
    + rewrite exec_past_end by lia. reflexivity.
    + destruct (exec re t li) as [m|] eqn:E; [|reflexivity].
      apply exec_index in E. f_equal. unfold match_end.
      destruct (whole m) as [|x w]; cbn [nonempty length]; apply IH; lia.
Qed.

(** [matchAll] ends because a search failed, not because its bound was
    met. *)
Lemma matchAll_unbounded (re : RegExp) (t : jsstring) (extra : nat) :
  matchAll_from (extra + (2 + length t)) re t 0 = matchAll re t.
Proof. unfold matchAll. apply matchAll_fuel; lia. Qed.

End Bounds.

(** The same for [JSON.parse]: a call of the parser consumes at least one
    character, so twice the length of the text is fuel enough, and more
    fuel gives the same result.  [None] is always a syntax error. *)

Section ParserBounds.

(** One case analysis on something the goal, or else a hypothesis,
    scrutinises. *)
Ltac scrutinee :=
  match goal with
  | |- context [match ?x with _ => _ end] => destruct x eqn:?
  | _ : context [match ?x with _ => _ end] |- _ => destruct x eqn:?
  end.

Lemma skip_ws_length (s : jsstring) : length (skip_ws s) <= length s.
Proof.
  induction s as [|c s IH]; simpl; [lia|].
  destruct (isJSONWhiteSpace c); simpl; lia.
Qed.

Lemma strip_prefix_length (p s r : jsstring) :
  strip_prefix p s = Some r -> length s = length p + length r.
Proof.
  revert s. induction p as [|x p IH]; intros s; simpl.
  - intros H. inversion H. reflexivity.
  - destruct s as [|y s]; [discriminate|]. destruct (N.eqb x y); [|discriminate].
    intros H. apply IH in H. simpl. lia.
Qed.

Lemma parse_string_length (n : nat) :
  forall s x r, length s <= n -> parse_string s = Some (x, r) -> length r < length s.
Proof.
  induction n as [|n IH]; intros s x r Hn.
  - destruct s; [discriminate|simpl in Hn; lia].
  - destruct s as [|c s']; [discriminate|]. cbn [parse_string length] in *.
    destruct (N.eqb c 34); [intros H; inversion H; subst; lia|].
    destruct (N.eqb c 92).
    + destruct s' as [|e s'']; [discriminate|]. cbn [length] in *.
      assert (Hs : forall y x0 r0,
                match parse_string s'' with
                | Some (r1, rest) => Some (y :: r1, rest)
                | None => None
                end = Some (x0, r0) -> length r0 < S (S (length s''))).
      { intros y x0 r0. destruct (parse_string s'') as [[r1 rest]|] eqn:E; [|discriminate].
        intros H. inversion H; subst. apply IH in E; lia. }
      repeat (match goal with
              | |- context [if ?b then _ else _] => destruct b
              end; [now apply Hs|]).
      match goal with
      | |- context [if ?b then _ else _] => destruct b
      end; [|discriminate].
      destruct s'' as [|h1 [|h2 [|h3 [|h4 s4]]]]; try discriminate.
      destruct (hex4 h1 h2 h3 h4); [|discriminate].
      destruct (parse_string s4) as [[r1 rest]|] eqn:E; [|discriminate].
      intros H. inversion H; subst. apply IH in E; cbn [length] in *; lia.
    + destruct (N.ltb c 32); [discriminate|].
      destruct (parse_string s') as [[r1 rest]|] eqn:E; [|discriminate].
      intros H. inversion H; subst. apply IH in E; lia.
Qed.

Lemma take_digits_length (s d r : jsstring) :
  take_digits s = (d, r) -> length r <= length s.
Proof.
  revert d r. induction s as [|c s IH]; intros d r; simpl.
  - intros H. inversion H. simpl. lia.
  - destruct (isDigit c).
    + destruct (take_digits s) as [d0 r0]. intros H. inversion H; subst.
      specialize (IH _ _ eq_refl). lia.
    + intros H. inversion H. simpl. lia.
Qed.

Lemma parse_number_length (s l r : jsstring) :
  parse_number s = Some (l, r) -> length r < length s.
Proof.
  unfold parse_number.
  repeat (scrutinee; try discriminate); intros H; inversion H; subst;
    repeat match goal with
           | E : take_digits _ = (_, _) |- _ => apply take_digits_length in E
           | E : (_, _) = (_, _) |- _ => inversion E; clear E; subst
           | E : Some _ = Some _ |- _ => inversion E; clear E; subst
           end;
    cbn [length] in *; lia.
Qed.

Lemma parse_consumes (f : nat) :
  (forall s v r, parse_value f s = Some (v, r) -> length r < length s)
  /\ (forall s vs r, parse_elements f s = Some (vs, r) -> length r < length s)
  /\ (forall s ms r, parse_members f s = Some (ms, r) -> length r < length s).
Proof.
  induction f as [|f (IHv & IHe & IHm)]; [repeat split; discriminate|].
  repeat split.
  - intros s v r. cbn [parse_value]. unfold expect.
    pose proof (skip_ws_length s) as Hs.
    destruct (skip_ws s) as [|c r0]; [discriminate|]. cbn [length] in Hs.
    pose proof (skip_ws_length r0) as Hr0.
    repeat (scrutinee; try discriminate); intros H; inversion H; subst;
      repeat match goal with
             | E : parse_members _ _ = Some _ |- _ => apply IHm in E
             | E : parse_elements _ _ = Some _ |- _ => apply IHe in E
             | E : parse_string _ = Some _ |- _ => apply (parse_string_length _ _ _ _ (le_n _)) in E
             | E : parse_number _ = Some _ |- _ => apply parse_number_length in E
             | E : strip_prefix _ _ = Some _ |- _ => apply strip_prefix_length in E
             end;
      cbn [length str map String.list_ascii_of_string] in *; lia.
  - intros s vs r. cbn [parse_elements].
    destruct (parse_value f s) as [[v r0]|] eqn:E; [|discriminate].
    apply IHv in E. pose proof (skip_ws_length r0) as Hr0.
    repeat (scrutinee; try discriminate); intros H; inversion H; subst;
      repeat match goal with
             | E : parse_elements _ _ = Some _ |- _ => apply IHe in E
             end;
      cbn [length] in *; lia.
  - intros s ms r. cbn [parse_members].
    pose proof (skip_ws_length s) as Hs.
    destruct (skip_ws s) as [|q r0]; [discriminate|]. cbn [length] in Hs.
    destruct (N.eqb q 34); [|discriminate].
    destruct (parse_string r0) as [[key r1]|] eqn:E1; [|discriminate].
    apply (parse_string_length _ _ _ _ (le_n _)) in E1.
    pose proof (skip_ws_length r1) as Hr1.
    destruct (skip_ws r1) as [|c r2]; [discriminate|]. cbn [length] in Hr1.
    destruct (N.eqb c 58); [|discriminate].
    destruct (parse_value f r2) as [[v r3]|] eqn:E2; [|discriminate].
    apply IHv in E2. pose proof (skip_ws_length r3) as Hr3.
    repeat (scrutinee; try discriminate); intros H; inversion H; subst;
      repeat match goal with
             | E : parse_members _ _ = Some _ |- _ => apply IHm in E
             end;
      cbn [length] in *; lia.
Qed.

Lemma parse_fuel (f : nat) :
  (forall s f', 2 * length s + 1 <= f -> 2 * length s + 1 <= f' ->
     parse_value f s = parse_value f' s)
  /\ (forall s f', 2 * length s + 2 <= f -> 2 * length s + 2 <= f' ->
        parse_elements f s = parse_elements f' s)
  /\ (forall s f', 2 * length s + 2 <= f -> 2 * length s + 2 <= f' ->
        parse_members f s = parse_members f' s).
Proof.
  induction f as [|f (IHv & IHe & IHm)]; [repeat split; intros; lia|].
  repeat split; intros s f' H1 H2; (destruct f' as [|f']; [lia|]).
  - cbn [parse_value].
    pose proof (skip_ws_length s) as Hs.
    destruct (skip_ws s) as [|c r0]; [reflexivity|]. cbn [length] in Hs.
    pose proof (skip_ws_length r0) as Hr0.
    destruct (N.eqb c 123).
    { destruct (skip_ws r0) as [|d r']; [reflexivity|]. cbn [length] in Hr0.
      destruct (N.eqb d 125); [reflexivity|].
      rewrite (IHm (d :: r') f') by (cbn [length]; lia). reflexivity. }
    destruct (N.eqb c 91); [|reflexivity].
    destruct (skip_ws r0) as [|d r']; [reflexivity|]. cbn [length] in Hr0.
    destruct (N.eqb d 93); [reflexivity|].
    rewrite (IHe (d :: r') f') by (cbn [length]; lia). reflexivity.
  - cbn [parse_elements].
    rewrite (IHv s f') by lia.
    destruct (parse_value f' s) as [[v r0]|] eqn:E; [|reflexivity].
    apply (proj1 (parse_consumes f')) in E.
    pose proof (skip_ws_length r0) as Hr0.
    destruct (skip_ws r0) as [|c r']; [reflexivity|]. cbn [length] in Hr0.
    destruct (N.eqb c 44); [|reflexivity].
    rewrite (IHe r' f') by lia. reflexivity.
  - cbn [parse_members].
    pose proof (skip_ws_length s) as Hs.
    destruct (skip_ws s) as [|q r0]; [reflexivity|]. cbn [length] in Hs.
    destruct (N.eqb q 34); [|reflexivity].
    destruct (parse_string r0) as [[key r1]|] eqn:E1; [|reflexivity].
    apply (parse_string_length _ _ _ _ (le_n _)) in E1.
    pose proof (skip_ws_length r1) as Hr1.
    destruct (skip_ws r1) as [|c r2]; [reflexivity|]. cbn [length] in Hr1.
    destruct (N.eqb c 58); [|reflexivity].
    rewrite (IHv r2 f') by lia.
    destruct (parse_value f' r2) as [[v r3]|] eqn:E2; [|reflexivity].
    apply (proj1 (parse_consumes f')) in E2.
    pose proof (skip_ws_length r3) as Hr3.
    destruct (skip_ws r3) as [|d r4]; [reflexivity|]. cbn [length] in Hr3.
    destruct (N.eqb d 44); [|reflexivity].
    rewrite (IHm r4 f') by lia. reflexivity.
Qed.

(** [JSON.parse] with any more fuel is [JSON.parse]. *)
Lemma parse_unbounded (t : jsstring) (extra : nat) :
  parse_value (extra + (2 * length t + 2)) t = parse_value (2 * length t + 2) t.
Proof. apply (proj1 (parse_fuel _)); lia. Qed.

End ParserBounds.

(* ================================================================== *)
(** * Properties of the segmenter                                        *)
(* ================================================================== *)

Section Segmenter.

Lemma try_patterns_select (t : jsstring) (ps : list RegExp) :
  try_patterns t ps =
  option_map (fun pm => parts_of_matches t (snd pm)) (select t ps).
Proof.
  induction ps as [|p ps IH]; simpl; [reflexivity|].
  destruct (matchAll p t); [exact IH | reflexivity].
Qed.

Lemma select_sound (t : jsstring) (ps : list RegExp) (re : RegExp) (ms : list Match) :
  select t ps = Some (re, ms) ->
  In re ps /\ ms = matchAll re t /\ ms <> [].
Proof.
  induction ps as [|p ps IH]; simpl; [discriminate|].
  destruct (matchAll p t) eqn:E.
  - intros H. destruct (IH H) as (? & ? & ?). auto.
  - intros H. inversion H; subst. rewrite E. repeat split; auto. discriminate.
Qed.

Lemma search_groups (re : RegExp) (s : jsstring) (i : nat) (m : Match) :
  search re s i = Some m -> length (groups m) = ngroups re.
Proof.
  revert i. induction s as [|c s IH]; intros i; simpl.
  - destruct (match_at re []) as [[rest c]|]; [|discriminate].
    intros H; inversion H; subst. simpl. now rewrite length_map, length_seq.
  - destruct (match_at re (c :: s)) as [[rest c0]|]; [|apply IH].
    intros H; inversion H; subst. simpl. now rewrite length_map, length_seq.
Qed.

Lemma matchAll_groups (re : RegExp) (t : jsstring) (m : Match) :
  In m (matchAll re t) -> length (groups m) = ngroups re.
Proof.
  unfold matchAll. generalize (2 + length t) as fuel. generalize 0 as li.
  intros li fuel. revert li.
  induction fuel as [|fuel IH]; intros li; simpl; [tauto|].
  destruct (exec re t li) as [m0|] eqn:E; simpl; [|tauto].
  intros [<-|H].
  - unfold exec in E. destruct (length t <? li); [discriminate|].
    eapply search_groups; eauto.
  - eapply IH; eauto.
Qed.

(** On a match of a pattern with one or two groups, what the code reads
    off [match.length] is what the grammar captured. *)
Lemma push_match_code (re : RegExp) (t : jsstring) (li : nat)
      (parts : list Part) (m : Match) :
  length (groups m) = ngroups re ->
  ngroups re = 1 \/ ngroups re = 2 ->
  code_parts (push_match t li parts m) = code_parts parts ++ segment_of re m.
Proof.
  intros Hg Hn. unfold push_match, segment_of, captured_body, captured_tag,
    codeContent_of, language_of, or_default, code_parts.
  rewrite Hg.
  set (parts1 := if li <? index m then _ else parts).
  assert (H1 : filter is_code parts1 = filter is_code parts).
  { subst parts1. destruct (li <? index m); [|reflexivity].
    destruct (nonempty _); [|reflexivity].
    rewrite filter_app. simpl. now rewrite app_nil_r. }
  destruct Hn as [-> | ->]; cbn [Nat.eqb group].
  - destruct (nth_error (groups m) 0) as [[b|]|];
      rewrite ?app_nil_r; auto.
    destruct (nonempty b); rewrite ?app_nil_r; auto.
    rewrite filter_app, H1. reflexivity.
  - destruct (nth_error (groups m) 1) as [[b|]|];
      rewrite ?app_nil_r; auto.
    destruct (nonempty b); rewrite ?app_nil_r; auto.
    rewrite filter_app, H1. reflexivity.
Qed.

Lemma scan_matches_code (re : RegExp) (t : jsstring) (ms : list Match) :
  (forall m, In m ms -> length (groups m) = ngroups re) ->
  ngroups re = 1 \/ ngroups re = 2 ->
  forall li parts,
    code_parts (snd (scan_matches t ms li parts)) =
    code_parts parts ++ flat_map (segment_of re) ms.
Proof.
  intros Hg Hn. induction ms as [|m ms IH]; intros li parts; simpl.
  - now rewrite app_nil_r.
  - rewrite IH by (intros; apply Hg; now right).
    rewrite (push_match_code re) by (auto; apply Hg; now left).
    now rewrite app_assoc.
Qed.

Lemma parts_of_matches_code (re : RegExp) (t : jsstring) (ms : list Match) :
  (forall m, In m ms -> length (groups m) = ngroups re) ->
  ngroups re = 1 \/ ngroups re = 2 ->
  code_parts (parts_of_matches t ms) = flat_map (segment_of re) ms.
Proof.
  intros Hg Hn. unfold parts_of_matches.
  pose proof (scan_matches_code re t ms Hg Hn 0 []) as H.
  destruct (scan_matches t ms 0 []) as [li parts]. simpl in H.
  destruct (li <? length t); [|exact H].
  destruct (nonempty _); [|exact H].
  unfold code_parts in *. rewrite filter_app, H. simpl. now rewrite app_nil_r.
Qed.

Lemma patterns_groups (re : RegExp) :
  In re patterns -> ngroups re = 1 \/ ngroups re = 2.
Proof.
  simpl. intros [<-|[<-|[<-|[]]]]; simpl; auto.
Qed.

(** Two runs of the segmenter: a tagged fence between prose, and a fence
    with an empty body, which leaves the prose after it only. *)
Example parseContent_tagged_fence :
  parseContent (str "pre ```js" ++ [nl] ++ str "console.log(1)" ++ [nl] ++ str "``` post")
  = [text (str "pre"); code (str "console.log(1)" ++ [nl]) (str "js"); text (str "post")].
Proof. vm_compute. reflexivity. Qed.

Example parseContent_empty_tagged_fence :
  parseContent (str "```a" ++ [nl] ++ str "```b" ++ [nl] ++ str "```")
  = [text (str "b" ++ [nl] ++ str "```")].
Proof. vm_compute. reflexivity. Qed.

(** C7.  Segmenting the text of three backticks, [print(1)] and three
    backticks, with no line break and no language tag, yields exactly one
    segment, a Code segment with language "plaintext" and content
    [print(1)]; the first two grammars have no match in it and the third
    has one. *)
Theorem parseContent_one_line_fence :
  parseContent (str "```print(1)```") = [code (str "print(1)") (str "plaintext")]
  /\ matchAll pattern1 (str "```print(1)```") = []
  /\ matchAll pattern2 (str "```print(1)```") = []
  /\ option_map (fun pm => length (snd pm)) (select (str "```print(1)```") patterns)
     = Some 1
  /\ option_map (fun pm => ngroups (fst pm)) (select (str "```print(1)```") patterns)
     = Some 1.
Proof. vm_compute. repeat split. Qed.

(** C8, as the claim states it, fails on a fence with an empty body: the
    third grammar is selected for the text of six backticks and matches it
    once, and the output has no segment at all. *)
Lemma empty_fence_yields_no_segment :
  option_map (fun pm => map whole (snd pm)) (select (str "``````") patterns)
  = Some [str "``````"]
  /\ option_map (fun pm => map (captured_body (fst pm)) (snd pm))
       (select (str "``````") patterns)
     = Some [Some []]
  /\ parseContent (str "``````") = [].
Proof. vm_compute. repeat split. Qed.

(** C8, amended.  For the grammar the segmenter selects, the Code segments
    of the output are, in order, those of the matches whose captured body
    is not empty, each with the captured language tag or "plaintext" when
    the grammar captured none; a match with an empty body yields no
    segment. *)
Theorem parseContent_code_segments (t : jsstring) (re : RegExp) (ms : list Match) :
  select t patterns = Some (re, ms) ->
  code_parts (parseContent t) = flat_map (segment_of re) ms
  /\ forall m b, In m ms -> captured_body re m = Some b -> b <> [] ->
       In (code b (or_default (captured_tag re m) plaintext)) (parseContent t).
Proof.
  intros Hsel.
  destruct (select_sound _ _ _ _ Hsel) as (Hin & Hms & _).
  assert (Hcode : code_parts (parseContent t) = flat_map (segment_of re) ms).
  { unfold parseContent. rewrite try_patterns_select, Hsel.
    cbn [option_map snd]. apply parts_of_matches_code.
    - intros m Hm. subst ms. exact (matchAll_groups _ _ _ Hm).
    - now apply patterns_groups. }
  split; [exact Hcode|].
  intros m b Hm Hb Hne.
  assert (H : In (code b (or_default (captured_tag re m) plaintext))
                 (code_parts (parseContent t))).
  { rewrite Hcode. apply in_flat_map. exists m. split; [exact Hm|].
    unfold segment_of. rewrite Hb. destruct b; [congruence|]. simpl. now left. }
  unfold code_parts in H. now apply filter_In in H.
Qed.

Lemma parseContent_code_segments_witness :
  select (str "a```b```c``````") patterns
  = Some (pattern3,
          [ {| index := 1; whole := str "```b```"; groups := [Some (str "b")] |};
            {| index := 9; whole := str "``````"; groups := [Some []] |} ])
  /\ code_parts (parseContent (str "a```b```c``````")) = [code (str "b") plaintext].
Proof.
  assert (Hs : select (str "a```b```c``````") patterns
    = Some (pattern3,
          [ {| index := 1; whole := str "```b```"; groups := [Some (str "b")] |};
            {| index := 9; whole := str "``````"; groups := [Some []] |} ]))
    by (vm_compute; reflexivity).
  split; [exact Hs|].
  exact (proj1 (parseContent_code_segments _ _ _ Hs)).
Defined.

End Segmenter.

(* ================================================================== *)
(** * Properties of the inline annotator                                 *)
(* ================================================================== *)

Section InlineAnnotator.

(** A repetition of a class consumes characters of the class only. *)
Lemma repeat_class_inv {R : Type} (g : bool) (p : char -> bool)
      (k : jsstring -> captures -> option R) (fuel : nat) :
  forall s c r,
    repeat_ g (run (Class p)) k fuel s c = Some r ->
    exists b s', s = b ++ s' /\ forallb p b = true /\ k s' c = Some r.
Proof.
  induction fuel as [|fuel IH]; intros s c r; simpl.
  - intros H. exists [], s. auto.
  - set (more := match s with [] => None | _ :: _ => _ end).
    assert (Hmore : more = Some r ->
              exists b s', s = b ++ s' /\ forallb p b = true /\ k s' c = Some r).
    { subst more. destruct s as [|x s0]; [discriminate|].
      destruct (p x) eqn:Hp; [|discriminate].
      destruct (length s0 <? length (x :: s0)); [|discriminate].
      intros H. destruct (IH _ _ _ H) as (b & s' & -> & Hb & Hk).
      exists (x :: b), s'. simpl. rewrite Hp, Hb. auto. }
    assert (Hstop : k s c = Some r ->
              exists b s', s = b ++ s' /\ forallb p b = true /\ k s' c = Some r).
    { intros H. exists [], s. auto. }
    destruct g; unfold orelse.
    + destruct more as [r'|]; [|exact Hstop].
      intros H. apply Hmore. exact H.
    + destruct (k s c) as [r'|]; [|exact Hmore].
      intros H. apply Hstop. exact H.
Qed.

Lemma closes_after_run (b rest : jsstring) (seen : bool) :
  forallb not_backtick b = true ->
  closes_after seen (b ++ backtick :: rest) = seen || nonempty b.
Proof.
  revert seen. induction b as [|x b IH]; intros seen; simpl.
  - intros _. now rewrite orb_false_r.
  - unfold not_backtick at 1. destruct (N.eqb x backtick); simpl; [discriminate|].
    intros H. rewrite IH by exact H. simpl. now rewrite orb_true_r.
Qed.

(** A match of the inline pattern at the head of [s] is a span there. *)
Lemma match_at_inline_span (s rest : jsstring) (c : captures) :
  match_at inlineCodeRegex s = Some (rest, c) ->
  exists s', s = backtick :: s' /\ closes s' = true.
Proof.
  unfold match_at, inlineCodeRegex, plus. cbn [body run].
  destruct s as [|x s1]; [discriminate|].
  destruct (N.eqb x backtick) eqn:Hx; [|discriminate].
  apply N.eqb_eq in Hx. subst x.
  destruct s1 as [|y s2]; [discriminate|].
  destruct (negb (N.eqb y backtick)) eqn:Hy; [|discriminate].
  intros H. exists (y :: s2). split; [reflexivity|].
  apply (repeat_class_inv true) in H. destruct H as (b & s' & Hs & Hb & Hk).
  destruct s' as [|z s3]; [discriminate|].
  destruct (N.eqb z backtick) eqn:Hz; [|discriminate].
  apply N.eqb_eq in Hz. subst z.
  change (y :: s2) with ([y] ++ s2). rewrite Hs, app_assoc.
  unfold closes. rewrite closes_after_run; [reflexivity|].
  simpl. unfold not_backtick at 1. rewrite Hy. exact Hb.
Qed.

Lemma search_inline_none (s : jsstring) (i : nat) :
  has_span s = false -> search inlineCodeRegex s i = None.
Proof.
  revert i. induction s as [|x s IH]; intros i Hs.
  - reflexivity.
  - cbn [search].
    destruct (match_at inlineCodeRegex (x :: s)) as [[rest c]|] eqn:E.
    + apply match_at_inline_span in E. destruct E as (s' & Heq & Hc).
      inversion Heq; subst. cbn [has_span] in Hs.
      rewrite N.eqb_refl, Hc in Hs. discriminate.
    + apply IH. cbn [has_span] in Hs. apply orb_false_iff in Hs. tauto.
Qed.

Lemma firstn_exact {A : Type} (a b : list A) (n : nat) :
  n = length a -> firstn n (a ++ b) = a.
Proof.
  intros ->. rewrite firstn_app, Nat.sub_diag, firstn_all. cbn [firstn]. apply app_nil_r.
Qed.

(** A match of the inline pattern, in full: a backtick, a non-empty run
    without backticks (the captured group), a backtick. *)
Lemma match_at_inline_inv (s rest : jsstring) (c : captures) :
  match_at inlineCodeRegex s = Some (rest, c) ->
  exists b, s = backtick :: b ++ backtick :: rest
            /\ b <> [] /\ forallb not_backtick b = true /\ c = [(1, b)].
Proof.
  unfold match_at, inlineCodeRegex, plus. cbn [body run].
  destruct s as [|x s1]; [discriminate|].
  destruct (N.eqb x backtick) eqn:Hx; [|discriminate].
  apply N.eqb_eq in Hx. subst x.
  destruct s1 as [|y s2]; [discriminate|].
  destruct (negb (N.eqb y backtick)) eqn:Hy; [|discriminate].
  intros H. apply (repeat_class_inv true) in H.
  destruct H as (b & s' & Hs & Hb & Hk).
  destruct s' as [|z s3]; [discriminate|].
  destruct (N.eqb z backtick) eqn:Hz; [|discriminate].
  apply N.eqb_eq in Hz. subst z. inversion Hk; subst.
  exists (y :: b). repeat split.
  - discriminate.
  - cbn [forallb]. unfold not_backtick. rewrite Hy. exact Hb.
  - do 3 f_equal. change (y :: b ++ backtick :: rest) with ((y :: b) ++ backtick :: rest).
    apply firstn_exact. cbn [length]. rewrite ?length_app. cbn [length]. lia.
Qed.

Lemma search_inline_nonempty (s : jsstring) :
  forall i m, search inlineCodeRegex s i = Some m -> whole m <> [].
Proof.
  induction s as [|x s IH]; intros i m; cbn [search].
  - destruct (match_at inlineCodeRegex []) as [[rest c]|] eqn:E; [|discriminate].
    apply match_at_inline_inv in E. destruct E as (b & E & _). discriminate.
  - destruct (match_at inlineCodeRegex (x :: s)) as [[rest c]|] eqn:E; [|apply IH].
    apply match_at_inline_inv in E. destruct E as (b & E & _).
    intros H. inversion H; subst. cbn [whole mkMatch]. rewrite E.
    assert (Hn : length (backtick :: b ++ backtick :: rest) - length rest
                 = S (length b + 1))
      by (cbn [length]; rewrite length_app; cbn [length]; lia).
    rewrite Hn. discriminate.
Qed.

(** The loop of the annotator ends because a search failed. *)
Lemma inline_loop_fuel (t : jsstring) :
  forall f1 f2 li parts,
    length t + 1 <= f1 + li -> length t + 1 <= f2 + li ->
    inline_loop f1 t li parts = inline_loop f2 t li parts.
Proof.
  induction f1 as [|f1 IH]; intros f2 li parts H1 H2.
  - destruct f2 as [|f2]; [reflexivity|]. cbn [inline_loop].
    rewrite exec_past_end by lia. reflexivity.
  - destruct f2 as [|f2]; cbn [inline_loop].
    + rewrite exec_past_end by lia. reflexivity.
    + destruct (exec inlineCodeRegex t li) as [m|] eqn:E; [|reflexivity].
      pose proof (exec_index _ _ _ _ E) as Hi.
      unfold exec in E. destruct (length t <? li); [discriminate|].
      apply search_inline_nonempty in E.
      apply IH; unfold match_end; destruct (whole m); cbn [length]; try congruence; lia.
Qed.

(** What [has_span] says, spelled out: the text splits into a prefix, a
    backtick, one character or more that are not backticks, a backtick, and
    a suffix. *)
Lemma closes_after_inv (s : jsstring) :
  forall seen, closes_after seen s = true ->
    exists b c, s = b ++ backtick :: c /\ ~ In backtick b
                /\ (seen = true \/ b <> []).
Proof.
  induction s as [|x s IH]; intros seen; simpl; [discriminate|].
  destruct (N.eqb x backtick) eqn:Hx.
  - apply N.eqb_eq in Hx. subst x. intros ->.
    exists [], s. simpl. auto.
  - apply N.eqb_neq in Hx. intros H.
    destruct (IH _ H) as (b & c & -> & Hb & _).
    exists (x :: b), c. simpl. repeat split.
    + intros [E|E]; [congruence|tauto].
    + right. discriminate.
Qed.

Lemma has_span_iff (t : jsstring) :
  has_span t = true <->
  exists a b c, t = a ++ [backtick] ++ b ++ [backtick] ++ c
                /\ b <> [] /\ ~ In backtick b.
Proof.
  split.
  - induction t as [|x t IH]; simpl; [discriminate|].
    intros H. apply orb_true_iff in H. destruct H as [H|H].
    + apply andb_true_iff in H. destruct H as [Hx Hc].
      apply N.eqb_eq in Hx. subst x.
      apply closes_after_inv in Hc. destruct Hc as (b & c & -> & Hb & [E|Hne]);
        [discriminate|].
      exists [], b, c. auto.
    + destruct (IH H) as (a & b & c & -> & Hne & Hb).
      exists (x :: a), b, c. auto.
  - intros (a & b & c & -> & Hne & Hb).
    induction a as [|x a IH]; cbn [app has_span].
    + rewrite N.eqb_refl. unfold closes.
      rewrite closes_after_run.
      * destruct b; [congruence|reflexivity].
      * apply forallb_forall. intros y Hy. unfold not_backtick.
        apply negb_true_iff, N.eqb_neq. intros ->. tauto.
    + cbn [app] in IH. rewrite IH. apply orb_true_r.
Qed.

Example processInlineCode_one_span :
  processInlineCode (str "use `x.y()` now")
  = [plain (str "use "); inline_code (str "x.y()"); plain (str " now")].
Proof. vm_compute. reflexivity. Qed.

(** C10, as the claim states it, fails on the empty text: the annotator
    returns one Plain run, whose content is empty, and not an empty
    sequence. *)
Lemma processInlineCode_empty_text :
  has_span [] = false
  /\ processInlineCode [] = [plain []]
  /\ processInlineCode [] <> [].
Proof. repeat split. discriminate. Qed.

(** C10, amended.  For every prose text with no inline-code span the
    annotator returns exactly one Plain run holding the entire text; the
    empty text is no exception (its one run is empty). *)
Theorem processInlineCode_no_span (t : jsstring) :
  has_span t = false -> processInlineCode t = [plain t].
Proof.
  intros H. unfold processInlineCode. cbn [inline_loop].
  unfold exec. cbn [Nat.ltb Nat.leb skipn].
  rewrite (search_inline_none t 0 H).
  destruct t as [|x t]; reflexivity.
Qed.

Lemma processInlineCode_no_span_witness :
  has_span (str "one `` pair, no code") = false
  /\ processInlineCode (str "one `` pair, no code")
     = [plain (str "one `` pair, no code")].
Proof.
  split; [reflexivity|].
  apply (processInlineCode_no_span (str "one `` pair, no code")).
  reflexivity.
Defined.

End InlineAnnotator.

(* ================================================================== *)
(** * Properties of the stream decoder                                   *)
(* ================================================================== *)

Section StreamDecoder.
Variable host : Host.

Lemma eqb_eq (a b : jsstring) : eqb a b = true <-> a = b.
Proof.
  revert b. induction a as [|x a IH]; destruct b as [|y b]; simpl;
    try (split; [discriminate|congruence]); [tauto|].
  rewrite andb_true_iff, N.eqb_eq, IH. split.
  - intros [-> ->]. reflexivity.
  - intros H. inversion H. auto.
Qed.

Lemma strip_prefix_app (p s : jsstring) : strip_prefix p (p ++ s) = Some s.
Proof.
  induction p as [|x p IH]; simpl; [reflexivity|].
  now rewrite N.eqb_refl.
Qed.

Lemma split_nl_cons (s : jsstring) : exists l ls, split_nl s = l :: ls.
Proof.
  induction s as [|c s (l & ls & IH)]; simpl; [eauto|].
  destruct (N.eqb c nl); [eauto|]. rewrite IH. eauto.
Qed.

(** Splitting at a line feed splits the list of lines. *)
Lemma split_nl_app (a b : jsstring) :
  split_nl (a ++ nl :: b) = split_nl a ++ split_nl b.
Proof.
  induction a as [|c a IH]; simpl.
  - reflexivity.
  - destruct (N.eqb c nl); rewrite IH; [reflexivity|].
    destruct (split_nl_cons a) as (l & ls & ->). reflexivity.
Qed.

Lemma split_nl_single (s : jsstring) :
  single_line s = true -> split_nl s = [s].
Proof.
  induction s as [|c s IH]; simpl; [reflexivity|].
  destruct (N.eqb c nl); simpl; [discriminate|].
  intros H. now rewrite IH.
Qed.

Lemma single_line_app (a b : jsstring) :
  single_line (a ++ b) = single_line a && single_line b.
Proof. apply forallb_app. Qed.

Lemma ends_line_inv (pre : jsstring) :
  ends_line pre = true -> pre = [] \/ exists pre', pre = pre' ++ [nl].
Proof.
  unfold ends_line. destruct (rev pre) as [|c r] eqn:E.
  - intros _. left. apply (f_equal (@rev char)) in E.
    now rewrite rev_involutive in E.
  - intros H. apply N.eqb_eq in H. subst c. right. exists (rev r).
    apply (f_equal (@rev char)) in E. now rewrite rev_involutive in E.
Qed.

Lemma update_last_app (f : Message -> Message) (ms : list Message) (m : Message) :
  update_last f (ms ++ [m]) =
  ms ++ [match role m with assistant => f m | user => m end].
Proof.
  induction ms as [|x ms IH]; simpl; [reflexivity|].
  rewrite IH. destruct (ms ++ [m]) eqn:E; [|reflexivity].
  destruct ms; discriminate.
Qed.



(** With no sentinel among the first lines, the loop over the two lists is
    the loop over the first and then over the second. *)
Lemma for_lines_app (l1 l2 : list jsstring) :
  existsb done_line l1 = false ->
  forall msgs acc,
    for_lines host (l1 ++ l2) msgs acc =
    let '(msgs', acc') := for_lines host l1 msgs acc in
    for_lines host l2 msgs' acc'.
Proof.
  induction l1 as [|x l1 IH]; intros Hd msgs acc.
  - reflexivity.
  - cbn [existsb] in Hd. apply orb_false_iff in Hd. destruct Hd as [Hx Hd].
    unfold done_line in Hx. cbn [for_lines app].
    destruct (strip_prefix data_prefix x) as [data|]; [|now apply IH].
    rewrite Hx. destruct (on_data host data msgs acc). now apply IH.
Qed.


(** What a delta frame and an error frame do to the loop's state. *)
Lemma on_data_delta (p d : jsstring) (msgs : list Message) (acc : jsstring) :
  delta_of host p = Some d ->
  on_data host p msgs acc = (update_last (set_content (acc ++ d)) msgs, acc ++ d).
Proof.
  unfold delta_of, on_data, try_data.
  destruct (parse p) as [[| | | | |ms]|]; try discriminate.
  cbn [get].
  destruct (truthy host (find_member (str "error") ms)); [discriminate|].
  destruct (find_member (str "content") ms) as [[| | |c| |]|]; try discriminate.
  destruct (nonempty c) eqn:Hc; [|discriminate].
  intros H. inversion H; subst. cbn [truthy append_value]. rewrite Hc. reflexivity.
Qed.

Lemma on_data_error (p : jsstring) (msgs : list Message) (acc : jsstring) :
  carries_error host p = true -> on_data host p msgs acc = (msgs, acc).
Proof.
  unfold carries_error, on_data, try_data.
  destruct (parse p) as [[| | | | |ms]|]; try discriminate.
  cbn [get]. intros ->. reflexivity.
Qed.

Lemma frame_lines (p rest : jsstring) :
  single_line p = true ->
  split_nl (frame p ++ rest) = (data_prefix ++ p) :: split_nl rest.
Proof.
  intros Hp. unfold frame.
  replace ((data_prefix ++ p ++ [nl]) ++ rest)
    with ((data_prefix ++ p) ++ nl :: rest)
    by (rewrite <- !app_assoc; reflexivity).
  rewrite split_nl_app, split_nl_single; [reflexivity|].
  rewrite single_line_app, Hp. reflexivity.
Qed.

End StreamDecoder.

(* ================================================================== *)
(** * Properties of the session controller                               *)
(* ================================================================== *)

Ltac sys :=
  cbn [finally_ catch_error submit fetch setPhase setMessages setInput
       setIsLoading setIsRecording setError setAbortController
       messages input isLoading isRecording error abortControllerRef phase outbox].

Section SessionController.
Variable host : Host.

(** ** The read loop touches the trailing message only *)

Lemma on_data_shape (d : jsstring) (m : Message) (acc : jsstring) :
  role m = assistant ->
  exists m' acc',
    (forall ms, on_data host d (ms ++ [m]) acc = (ms ++ [m'], acc'))
    /\ role m' = assistant
    /\ isStreaming m' = isStreaming m
    /\ (content m = acc -> content m' = acc').
Proof.
  intros Hr. unfold on_data, try_data.
  assert (Hsame : exists m' acc',
            (forall ms : list Message, (ms ++ [m], acc) = (ms ++ [m'], acc'))
            /\ role m' = assistant
            /\ isStreaming m' = isStreaming m /\ (content m = acc -> content m' = acc'))
    by (exists m, acc; auto).
  destruct (parse d) as [parsed|]; [|exact Hsame].
  destruct (get parsed (str "error")) as [e|]; [|exact Hsame].
  destruct (truthy host e); [exact Hsame|].
  destruct (get parsed (str "content")) as [c|]; [|exact Hsame].
  destruct (truthy host c); [|exact Hsame].
  destruct (append_value host acc _) as [acc'|]; [|exact Hsame].
  exists (set_content acc' m), acc'. repeat split; auto.
  intros ms. now rewrite update_last_app, Hr.
Qed.

Lemma for_lines_shape (lines : list jsstring) :
  forall (m : Message) (acc : jsstring),
    role m = assistant ->
    exists m' acc',
      (forall ms, for_lines host lines (ms ++ [m]) acc = (ms ++ [m'], acc'))
      /\ role m' = assistant
      /\ (streaming m' = true -> streaming m = true)
      /\ (content m = acc -> content m' = acc').
Proof.
  induction lines as [|line lines IH]; intros m acc Hr; cbn [for_lines].
  - exists m, acc. auto.
  - destruct (strip_prefix data_prefix line) as [data|]; [|now apply IH].
    destruct (eqb data DONE).
    + exists (clear_streaming m), acc. repeat split; auto; [|discriminate].
      intros ms. now rewrite update_last_app, Hr.
    + destruct (on_data_shape data m acc Hr) as (m1 & acc1 & H1 & Hr1 & Hs1 & Hc1).
      destruct (IH m1 acc1 Hr1) as (m2 & acc2 & H2 & Hr2 & Hs2 & Hc2).
      exists m2, acc2. repeat split; auto.
      * intros ms. now rewrite H1, H2.
      * intros H. apply Hs2 in H. unfold streaming in *. now rewrite <- Hs1.
Qed.

(** The loop on a transcript is the loop on its trailing message. *)
Lemma for_lines_trailing (lines : list jsstring) (ms : list Message)
      (m m' : Message) (acc acc' : jsstring) :
  role m = assistant ->
  for_lines host lines [m] acc = ([m'], acc') ->
  for_lines host lines (ms ++ [m]) acc = (ms ++ [m'], acc').
Proof.
  intros Hr H.
  destruct (for_lines_shape lines m acc Hr) as (m1 & acc1 & H1 & _).
  pose proof (H1 []) as H0. cbn [app] in H0. rewrite H in H0.
  inversion H0; subst. apply H1.
Qed.

(** ** Reachable states are well formed *)

Lemma wf_finally (s : Sys) : wf (finally_ s).
Proof. unfold wf. sys. auto. Qed.

Lemma wf_submit (u : Message) (shot : option jsstring) (s : Sys) :
  isLoading s = true -> role u = user -> isStreaming u = None ->
  wf (submit u shot s).
Proof.
  intros Hl Hr Hs. unfold wf. sys. repeat split; auto.
  exists (messages s), u. auto.
Qed.

Lemma wf_quiet (s : Sys) : wf s -> isLoading s = false -> phase s = Quiet.
Proof.
  unfold wf. destruct (phase s); auto.
  - intros (H & _) E. congruence.
  - intros (H & _) E. congruence.
Qed.

Lemma wf_sendMessage (w : bool) (a : ShotAnswer) (now : N) (s : Sys) :
  wf s -> wf (sendMessage w a now s).
Proof.
  intros Hwf. unfold sendMessage.
  destruct (_ || isLoading s) eqn:G; [exact Hwf|].
  destruct w; cbn [andb].
  - unfold captureScreenshot.
    destruct a as [shot|e|msg']; cbn [truthy_string].
    + destruct (truthy_string shot); cbn [negb].
      * apply (wf_submit _ _ _); reflexivity.
      * apply wf_finally.
    + apply wf_finally.
    + apply wf_finally.
  - apply (wf_submit _ _ _); reflexivity.
Qed.

Lemma wf_toggleVoiceRecording (sa : StartAnswer) (aa : AudioAnswer) (now : N) (s : Sys) :
  wf s -> wf (toggleVoiceRecording sa aa now s).
Proof.
  intros Hwf. unfold toggleVoiceRecording.
  destruct (isLoading s) eqn:Hl; [exact Hwf|].
  destruct (negb (isRecording s)).
  - pose proof (wf_quiet s Hwf Hl) as Hq.
    destruct sa; unfold wf in *; sys; rewrite Hq in *; exact Hwf.
  - destruct aa as [msg'|msg'|e|[t|]]; try apply wf_finally.
    destruct (nonempty t && nonempty (trim t)); [|apply wf_finally].
    apply wf_submit; reflexivity.
Qed.

Lemma wf_step (e : Event) (s : Sys) : wf s -> wf (step host e s).
Proof.
  intros Hwf. destruct e; cbn [step].
  - unfold wf in *. sys. exact Hwf.
  - now apply wf_sendMessage.
  - now apply wf_toggleVoiceRecording.
  - unfold stopGeneration. destruct (abortControllerRef s); [apply wf_finally|exact Hwf].
  - unfold on_response. destruct (phase s) as [|um|acc] eqn:Hp; try exact Hwf.
    destruct ok; [|apply wf_finally].
    destruct hasBody; [|apply wf_finally].
    unfold wf in *. rewrite Hp in Hwf. destruct Hwf as (Hl & Ha & _). sys.
    repeat split; auto. eexists _, _. split; [reflexivity|]. auto.
  - destruct (phase s); [exact Hwf|apply wf_finally|apply wf_finally].
  - destruct (phase s) as [|um|acc] eqn:Hp; try exact Hwf.
    unfold wf in Hwf. rewrite Hp in Hwf.
    destruct Hwf as (Hl & Ha & ms & m & Hm & Hr & Hc).
    unfold on_chunk. rewrite Hm.
    destruct (for_lines_shape (split_nl chunk) m acc Hr)
      as (m' & acc' & H' & Hr' & _ & Hc').
    rewrite H'. unfold wf. sys. repeat split; auto. exists ms, m'. auto.
  - destruct (phase s); [exact Hwf|exact Hwf|apply wf_finally].
Qed.

Lemma wf_init : wf init.
Proof. unfold wf. simpl. auto. Qed.

Lemma reachable_wf (s : Sys) : reachable host s -> wf s.
Proof.
  induction 1 as [|e s _ IH]; [apply wf_init | now apply wf_step].
Qed.

Lemma reachable_run_events (es : list Event) (s : Sys) :
  reachable host s -> reachable host (run_events host es s).
Proof.
  revert s. induction es as [|e es IH]; intros s H; simpl; [exact H|].
  apply IH. now constructor.
Qed.

(** While the read loop runs, the transcript ends with the assistant
    message (the updaters never meet an empty transcript). *)
Lemma reading_has_assistant (s : Sys) (acc : jsstring) :
  reachable host s -> phase s = Reading acc ->
  exists ms m, messages s = ms ++ [m] /\ role m = assistant /\ content m = acc.
Proof.
  intros Hr Hp. apply reachable_wf in Hr. unfold wf in Hr. rewrite Hp in Hr. tauto.
Qed.

(** ** Symbolic execution of the read loop *)

Lemma step_chunk (s : Sys) (acc c : jsstring) (ms : list Message)
      (m m' : Message) (acc' : jsstring) :
  phase s = Reading acc -> messages s = ms ++ [m] -> role m = assistant ->
  for_lines host (split_nl c) [m] acc = ([m'], acc') ->
  step host (ChunkArrives c) s = setPhase (Reading acc') (setMessages (ms ++ [m']) s).
Proof.
  intros Hp Hm Hr H. cbn [step]. rewrite Hp. unfold on_chunk.
  rewrite Hm, (for_lines_trailing _ ms _ _ _ _ Hr H). reflexivity.
Qed.

Lemma delta_not_done (p d : jsstring) : delta_of host p = Some d -> eqb p DONE = false.
Proof.
  intros H. destruct (eqb p DONE) eqn:E; [|reflexivity].
  apply eqb_eq in E. subst p. discriminate.
Qed.

Lemma carries_error_not_done (p : jsstring) :
  carries_error host p = true -> eqb p DONE = false.
Proof.
  intros H. destruct (eqb p DONE) eqn:E; [|reflexivity].
  apply eqb_eq in E. subst p. discriminate.
Qed.

Lemma for_lines_delta (p d : jsstring) (rest : list jsstring)
      (msgs : list Message) (acc : jsstring) :
  delta_of host p = Some d ->
  for_lines host ((data_prefix ++ p) :: rest) msgs acc =
  for_lines host rest (update_last (set_content (acc ++ d)) msgs) (acc ++ d).
Proof.
  intros H. cbn [for_lines].
  rewrite strip_prefix_app, (delta_not_done _ _ H), (on_data_delta host _ _ _ _ H).
  reflexivity.
Qed.

Lemma for_lines_last_empty (msgs : list Message) (acc : jsstring) :
  for_lines host [[]] msgs acc = (msgs, acc).
Proof. reflexivity. Qed.

Lemma frame_alone_lines (p : jsstring) :
  single_line p = true -> split_nl (frame p) = [data_prefix ++ p; []].
Proof.
  intros H. rewrite <- (app_nil_r (frame p)). now rewrite frame_lines.
Qed.

Lemma run_events_cons (e : Event) (es : list Event) (s : Sys) :
  run_events host (e :: es) s = run_events host es (step host e s).
Proof. reflexivity. Qed.

Lemma quiet_ignores_stream (s : Sys) (later : list Event) :
  phase s = Quiet -> forallb stream_event later = true ->
  run_events host later s = s.
Proof.
  intros Hp. induction later as [|e later IH]; cbn [run_events forallb]; [reflexivity|].
  intros H. apply andb_true_iff in H. destruct H as [He Hl].
  assert (Hs : step host e s = s).
  { destruct e; try discriminate; cbn [step]; unfold on_response; now rewrite Hp. }
  rewrite Hs. now apply IH.
Qed.

Lemma transcript_ok_app (ms : list Message) (m : Message) :
  transcript_ok (ms ++ [m]) = none_streaming ms.
Proof. unfold transcript_ok. now rewrite removelast_last. Qed.

Lemma none_streaming_app (a b : list Message) :
  none_streaming (a ++ b) = none_streaming a && none_streaming b.
Proof. apply forallb_app. Qed.

Lemma none_streaming_transcript_ok (ms : list Message) :
  none_streaming ms = true -> transcript_ok ms = true.
Proof.
  destruct ms as [|m ms] using rev_ind; [reflexivity|].
  rewrite transcript_ok_app, none_streaming_app. intros H.
  apply andb_true_iff in H. tauto.
Qed.

Lemma stopGeneration_active (s : Sys) :
  abortControllerRef s = true ->
  stopGeneration s = finally_ (setIsLoading false (setAbortController false s)).
Proof. intros H. unfold stopGeneration. now rewrite H. Qed.

(** The invariant read on positions: a streaming message has no message
    after it (so there is at most one, and it is the last). *)
Lemma transcript_ok_spec (ms : list Message) :
  transcript_ok ms = true <->
  forall a m b, ms = a ++ m :: b -> streaming m = true -> b = [].
Proof.
  destruct ms as [|l ms] using rev_ind.
  - split; [|reflexivity]. intros _ a m b H. destruct a; discriminate.
  - clear IHms. rewrite transcript_ok_app. unfold none_streaming.
    rewrite forallb_forall. split.
    + intros H a m b E Hs.
      destruct b as [|x b] using rev_ind; [reflexivity|]. clear IHb.
      change (a ++ m :: b ++ [x]) with (a ++ (m :: b) ++ [x]) in E.
      rewrite app_assoc in E. apply app_inj_tail in E. destruct E as [E _].
      assert (Hin : In m ms) by (rewrite E; apply in_elt).
      apply H in Hin. rewrite Hs in Hin. discriminate.
    + intros H m Hin. apply in_split in Hin. destruct Hin as (a & b & ->).
      destruct (streaming m) eqn:Hs; [|reflexivity].
      specialize (H a m (b ++ [l])). rewrite <- app_assoc in H.
      specialize (H eq_refl Hs). destruct b; discriminate.
Qed.

(** ** The claims *)

(** A frame whose JSON payload carries a truthy error field applies no
    delta and leaves the transcript as it is. *)
Lemma error_frame_keeps_transcript (s : Sys) (p : jsstring) :
  single_line p = true ->
  carries_error host p = true ->
  messages (step host (ChunkArrives (frame p)) s) = messages s.
Proof.
  intros Hp He. cbn [step]. destruct (phase s); try reflexivity.
  unfold on_chunk. rewrite (frame_alone_lines _ Hp). cbn [for_lines].
  rewrite strip_prefix_app, (carries_error_not_done _ He),
    (on_data_error host _ _ _ He).
  reflexivity.
Qed.

(** C2, amended.  Nothing is buffered between reads: each chunk is split
    into lines and decoded by itself.  Two chunks read one after the other
    are decoded as one chunk would be with a line feed put where the first
    chunk ends, when the first holds no sentinel line: a line split across
    two chunks is decoded as two lines.  So when the first chunk ends at a
    line boundary, decoding the two chunks one after the other is decoding
    them as one chunk. *)
Theorem chunks_decoded_apart (s : Sys) (c1 c2 : jsstring) :
  has_done c1 = false ->
  run_events host [ChunkArrives c1; ChunkArrives c2] s
  = step host (ChunkArrives (c1 ++ [nl] ++ c2)) s
  /\ run_events host [ChunkArrives (c1 ++ [nl]); ChunkArrives c2] s
     = step host (ChunkArrives (c1 ++ [nl] ++ c2)) s.
Proof.
  intros Hd. unfold has_done in Hd. cbn [run_events step app].
  destruct (phase s) as [|um|acc] eqn:Hp; try (rewrite Hp; split; reflexivity).
  unfold on_chunk.
  rewrite (split_nl_app c1 []), (split_nl_app c1 c2).
  rewrite !(for_lines_app host _ _ Hd).
  destruct (for_lines host (split_nl c1) (messages s) acc) as [m1 a1].
  cbn [split_nl]. rewrite for_lines_last_empty. sys.
  destruct (for_lines host (split_nl c2) m1 a1) as [m2 a2]. split; reflexivity.
Qed.

(** C3, amended.  Cancelling a turn right after a delta leaves the trailing
    assistant message with exactly the content accumulated so far and with
    its isStreaming flag as it was (the flag is not cleared: only the
    sentinel frame clears it); no error is raised, the controller is idle
    again, and whatever arrives later on the response stream changes
    nothing. *)
Theorem cancel_after_delta (s : Sys) (acc p d : jsstring) (later : list Event) :
  reachable host s ->
  phase s = Reading acc ->
  single_line p = true ->
  delta_of host p = Some d ->
  forallb stream_event later = true ->
  let s1 := step host (ChunkArrives (frame p)) s in
  let s2 := step host StopGeneration s1 in
  exists ms m,
    messages s = ms ++ [m] /\ role m = assistant /\ content m = acc
    /\ messages s2 = ms ++ [set_content (acc ++ d) m]
    /\ isStreaming (set_content (acc ++ d) m) = isStreaming m
    /\ error s2 = error s /\ isLoading s2 = false /\ phase s2 = Quiet
    /\ run_events host later s2 = s2.
Proof.
  intros Hreach Hp Hl Hd Hlater. cbv zeta.
  destruct (reading_has_assistant s acc Hreach Hp) as (ms & m & Hm & Hr & Hc).
  assert (Hw : abortControllerRef s = true).
  { apply reachable_wf in Hreach. unfold wf in Hreach. rewrite Hp in Hreach. tauto. }
  assert (E1 : step host (ChunkArrives (frame p)) s
               = setPhase (Reading (acc ++ d))
                   (setMessages (ms ++ [set_content (acc ++ d) m]) s)).
  { apply (step_chunk s acc _ ms m _ _ Hp Hm Hr).
    rewrite (frame_alone_lines _ Hl), (for_lines_delta _ _ _ _ _ Hd).
    cbn [update_last]. rewrite Hr. reflexivity. }
  rewrite E1. cbn [step]. rewrite stopGeneration_active by exact Hw.
  exists ms, m. repeat split; auto.
  apply quiet_ignores_stream; [reflexivity|exact Hlater].
Qed.

(** C4, amended.  Every operation preserves the transcript invariant (no
    message but the last is streaming) provided a new turn starts only on a
    transcript with no streaming message; and the sentinel frame leaves no
    message streaming.  Cancel, an error frame and the end of the stream
    without the sentinel leave the trailing flag set. *)
Theorem transcript_invariant_step (e : Event) (s : Sys) :
  reachable host s ->
  transcript_ok (messages s) = true ->
  (starts_turn e = true -> none_streaming (messages s) = true) ->
  transcript_ok (messages (step host e s)) = true
  /\ (forall acc, phase s = Reading acc ->
        none_streaming (messages (step host (ChunkArrives (frame DONE)) s)) = true).
Proof.
  intros Hreach Hok Hturn. pose proof (reachable_wf s Hreach) as Hwf. split.
  - destruct e; cbn [step starts_turn] in Hturn |- *.
    + exact Hok.
    + specialize (Hturn eq_refl).
      unfold sendMessage. destruct (_ || isLoading s); [exact Hok|].
      destruct withScreenshot; cbn [andb].
      * unfold captureScreenshot. destruct a as [shot|e|msg']; cbn [truthy_string negb].
        -- destruct (truthy_string shot); cbn [negb].
           ++ cbn [submit setInput setMessages messages]. unfold submit. cbn [messages setInput setPhase fetch setAbortController setMessages setError setIsLoading].
              rewrite transcript_ok_app. exact Hturn.
           ++ exact Hok.
        -- exact Hok.
        -- exact Hok.
      * unfold submit. cbn [messages setInput setPhase fetch setAbortController setMessages setError setIsLoading].
        rewrite transcript_ok_app. exact Hturn.
    + specialize (Hturn eq_refl).
      unfold toggleVoiceRecording. destruct (isLoading s); [exact Hok|].
      destruct (negb (isRecording s)).
      * destruct sa; exact Hok.
      * destruct aa as [msg'|msg'|e|[t|]]; try exact Hok.
        destruct (nonempty t && nonempty (trim t)); [|exact Hok].
        unfold submit. cbn [messages setInput setPhase fetch setAbortController setMessages setError setIsLoading setIsRecording].
        rewrite transcript_ok_app. exact Hturn.
    + unfold stopGeneration. destruct (abortControllerRef s); exact Hok.
    + unfold on_response. destruct (phase s) as [|um|acc] eqn:Hp; try exact Hok.
      unfold wf in Hwf. rewrite Hp in Hwf.
      destruct Hwf as (_ & _ & Hm & ms & u & Hum & Hr & Hs).
      destruct ok; [|exact Hok].
      assert (Hn : none_streaming um = true).
      { rewrite Hm, Hum, transcript_ok_app in Hok.
        rewrite Hum, none_streaming_app, Hok. unfold none_streaming, streaming.
        cbn [forallb]. now rewrite Hs. }
      destruct hasBody; cbn [finally_ messages setPhase setIsLoading setAbortController setMessages];
        now rewrite transcript_ok_app.
    + destruct (phase s); exact Hok.
    + destruct (phase s) as [|um|acc] eqn:Hp; try exact Hok.
      unfold wf in Hwf. rewrite Hp in Hwf.
      destruct Hwf as (_ & _ & ms & m & Hm & Hr & _).
      unfold on_chunk. rewrite Hm in Hok |- *.
      destruct (for_lines_shape (split_nl chunk) m acc Hr) as (m' & acc' & H' & _).
      rewrite H'. cbn [messages setPhase setMessages].
      now rewrite transcript_ok_app in Hok |- *.
    + destruct (phase s); exact Hok.
  - intros acc Hp. unfold wf in Hwf. rewrite Hp in Hwf.
    destruct Hwf as (_ & _ & ms & m & Hm & Hr & _).
    rewrite (step_chunk s acc _ ms m (clear_streaming m) acc Hp Hm Hr).
    + cbn [messages setPhase setMessages]. rewrite Hm, transcript_ok_app in Hok.
      rewrite none_streaming_app, Hok. reflexivity.
    + rewrite (frame_alone_lines DONE eq_refl).
      cbn [for_lines]. rewrite strip_prefix_app.
      replace (eqb DONE DONE) with true by reflexivity.
      cbn [update_last]. now rewrite Hr.
Qed.

(** C5.  For the frames with contents "Hello" and " world" and then the
    sentinel, each a complete line, however they are cut into chunks at
    frame boundaries: the trailing assistant message ends with content
    "Hello world" and isStreaming false (the deltas are applied in the
    order of arrival), and the turn is over without an error. *)
Theorem hello_world_stream (s : Sys) (cs : list jsstring) :
  reachable host s ->
  phase s = Reading [] ->
  In cs hello_chunkings ->
  let s' := run_events host (map ChunkArrives cs ++ [StreamEnds]) s in
  exists ms m,
    messages s = ms ++ [m]
    /\ messages s' =
       ms ++ [ {| role := assistant; content := str "Hello world";
                  timestamp := timestamp m; screenshot := screenshot m;
                  isStreaming := Some false |} ]
    /\ phase s' = Quiet /\ isLoading s' = false /\ error s' = error s.
Proof.
  intros Hreach Hp Hin s'.
  destruct (reading_has_assistant s [] Hreach Hp) as (ms & m & Hm & Hr & Hc).
  exists ms, m. split; [exact Hm|].
  destruct m as [r c t sc st]. cbn in Hr, Hc. subst r c. cbn [timestamp screenshot].
  subst s'. unfold hello_chunkings in Hin. cbn [In] in Hin.
  destruct Hin as [<-|[<-|[<-|[<-|[]]]]]; cbn [map app].
  all: rewrite run_events_cons;
    erewrite (step_chunk s); [|exact Hp|exact Hm|reflexivity|vm_compute; reflexivity].
  all: repeat (rewrite run_events_cons;
               erewrite step_chunk;
               [|reflexivity|reflexivity|reflexivity|vm_compute; reflexivity]).
  all: cbn [run_events step]; sys; split; [reflexivity|]; repeat split.
Qed.


(** C9.  When stopping a recording yields an empty or whitespace-only
    transcription (or none), the controller is idle again, the notice
    "No speech detected" is shown, no message was appended to the
    transcript, and the only requests sent were those that stop the
    recording and fetch the transcription: no chat request. *)
Theorem empty_transcription_returns_to_idle
        (s : Sys) (sa : StartAnswer) (t : option jsstring) (now : N) :
  isLoading s = false ->
  isRecording s = true ->
  blank t = true ->
  let s' := step host (ToggleVoiceRecording sa (AudioOk t) now) s in
  isRecording s' = false /\ isLoading s' = false /\ phase s' = Quiet
  /\ error s' = Some (str "No speech detected")
  /\ messages s' = messages s
  /\ outbox s' = outbox s ++ [stop_recording; process_audio].
Proof.
  intros Hl Hr Hb s'. subst s'. cbn [step]. unfold toggleVoiceRecording.
  rewrite Hl, Hr. cbn [negb].
  assert (E : match t with
              | Some t0 => nonempty t0 && nonempty (trim t0)
              | None => false
              end = false).
  { destruct t as [t0|]; [|reflexivity]. cbn [blank] in Hb.
    apply negb_true_iff in Hb. rewrite Hb. apply andb_false_r. }
  destruct t as [t0|]; [rewrite E|]; sys; rewrite <- app_assoc; repeat split.
Qed.

End SessionController.

(* ================================================================== *)
(** * Closed instances: where the claims fail, and sample uses           *)
(* ================================================================== *)

Section Instances.

Lemma opened_turn_reachable : reachable example_host opened_turn.
Proof. unfold opened_turn. apply reachable_run_events. constructor. Qed.

Lemma opened_turn_state :
  phase opened_turn = Reading []
  /\ map (fun m => (role m, content m, isStreaming m)) (messages opened_turn)
     = [(user, str "hi", None); (assistant, [], Some true)].
Proof. vm_compute. split; reflexivity. Qed.

(** C1.  The code on a stream with an error frame: a delta, a frame with
    an error field and one more delta.  The error thrown for the frame is
    caught by the handler meant for invalid JSON, in the same [try]: no
    error is shown, the read loop is still running and has decoded the
    frame after the error frame, and the trailing message is still
    streaming; the end of the stream changes none of this but the loading
    flag.  The claim has the decoding stop at the error frame, the error
    shown and the turn ended. *)
Lemma error_frame_is_swallowed :
  let frames :=
    [ChunkArrives (frame (dq "{'content':'par'}"));
     ChunkArrives (frame (dq "{'error':'boom'}"));
     ChunkArrives (frame (dq "{'content':'tial'}"))] in
  let s := run_events example_host frames opened_turn in
  let s' := run_events example_host (frames ++ [StreamEnds]) opened_turn in
  carries_error example_host (dq "{'error':'boom'}") = true
  /\ error s = None /\ phase s = Reading (str "partial") /\ isLoading s = true
  /\ option_map content (trailing s) = Some (str "partial")
  /\ option_map isStreaming (trailing s) = Some (Some true)
  /\ error s' = None
  /\ option_map isStreaming (trailing s') = Some (Some true).
Proof. vm_compute. repeat split. Qed.

(** C2, as the claim states it, fails: the frame with content "x" yields
    its delta when it arrives in one chunk, and yields nothing when the
    chunk boundary falls inside its line. *)
Lemma split_line_loses_delta :
  let whole := [ChunkArrives (dq "data: {'content':'x'}" ++ [nl])] in
  let halves := [ChunkArrives (dq "data: {'con"); ChunkArrives (dq "tent':'x'}" ++ [nl])] in
  dq "data: {'con" ++ dq "tent':'x'}" ++ [nl] = dq "data: {'content':'x'}" ++ [nl]
  /\ option_map content (trailing (run_events example_host whole opened_turn))
     = Some (str "x")
  /\ option_map content (trailing (run_events example_host halves opened_turn))
     = Some []
  /\ phase (run_events example_host halves opened_turn) = Reading [].
Proof. vm_compute. repeat split. Qed.

Lemma chunks_decoded_apart_witness :
  run_events example_host
    [ChunkArrives (dq "data: {'con"); ChunkArrives (dq "tent':'x'}" ++ [nl])] opened_turn
  = step example_host
      (ChunkArrives (dq "data: {'con" ++ [nl] ++ dq "tent':'x'}" ++ [nl])) opened_turn
  /\ run_events example_host
       [ChunkArrives (dq "data: {'con" ++ [nl]); ChunkArrives (dq "tent':'x'}" ++ [nl])]
       opened_turn
     = step example_host
         (ChunkArrives (dq "data: {'con" ++ [nl] ++ dq "tent':'x'}" ++ [nl])) opened_turn.
Proof.
  apply (chunks_decoded_apart example_host). vm_compute; reflexivity.
Defined.

(** C3, as the claim states it, fails: after the first delta and the
    cancel, the content is kept and no error is raised, but the trailing
    message is still streaming. *)
Lemma cancel_leaves_streaming_flag :
  let s := run_events example_host
             [ChunkArrives (frame (dq "{'content':'Hel'}")); StopGeneration]
             opened_turn in
  option_map content (trailing s) = Some (str "Hel")
  /\ option_map isStreaming (trailing s) = Some (Some true)
  /\ error s = None /\ isLoading s = false /\ phase s = Quiet.
Proof. vm_compute. repeat split. Qed.

Lemma cancel_after_delta_witness :
  let s1 := step example_host (ChunkArrives (frame (dq "{'content':'Hel'}"))) opened_turn in
  let s2 := step example_host StopGeneration s1 in
  exists ms m,
    messages opened_turn = ms ++ [m] /\ role m = assistant /\ content m = []
    /\ messages s2 = ms ++ [set_content ([] ++ str "Hel") m]
    /\ isStreaming (set_content ([] ++ str "Hel") m) = isStreaming m
    /\ error s2 = error opened_turn /\ isLoading s2 = false /\ phase s2 = Quiet
    /\ run_events example_host
         [ChunkArrives (frame (dq "{'content':'lo'}")); StreamEnds] s2 = s2.
Proof.
  apply (cancel_after_delta example_host opened_turn [] (dq "{'content':'Hel'}")
           (str "Hel") [ChunkArrives (frame (dq "{'content':'lo'}")); StreamEnds]).
  - exact opened_turn_reachable.
  - vm_compute; reflexivity.
  - vm_compute; reflexivity.
  - vm_compute; reflexivity.
  - vm_compute; reflexivity.
Defined.

(** C4, as the claim states it, fails: a turn that is cancelled, then a
    second turn, reach a transcript with two streaming messages, one of
    which is not the last. *)
Lemma second_turn_after_cancel :
  let s := run_events example_host
             [ChunkArrives (frame (dq "{'content':'Hel'}")); StopGeneration;
              TypeInput (str "again"); SendMessage false (ShotOk None) 3;
              ResponseArrives true true 4]
             opened_turn in
  reachable example_host s
  /\ map streaming (messages s) = [false; true; false; true]
  /\ transcript_ok (messages s) = false.
Proof.
  split.
  - apply reachable_run_events. exact opened_turn_reachable.
  - vm_compute. split; reflexivity.
Qed.

Lemma transcript_invariant_step_witness :
  let s := run_events example_host
             [ChunkArrives (frame (dq "{'content':'Hel'}")); ChunkArrives (frame DONE);
              StreamEnds; TypeInput (str "again")]
             opened_turn in
  transcript_ok (messages (step example_host (SendMessage false (ShotOk None) 3) s)) = true.
Proof.
  intros s.
  refine (proj1 (transcript_invariant_step example_host
                   (SendMessage false (ShotOk None) 3) s _ _ _)).
  - apply reachable_run_events. exact opened_turn_reachable.
  - vm_compute; reflexivity.
  - intros _. vm_compute; reflexivity.
Defined.

Lemma hello_world_stream_witness :
  let cs := [frame (dq "{'content':'Hello'}") ++ frame (dq "{'content':' world'}");
             frame DONE] in
  let s' := run_events example_host (map ChunkArrives cs ++ [StreamEnds]) opened_turn in
  exists ms m,
    messages opened_turn = ms ++ [m]
    /\ messages s' =
       ms ++ [ {| role := assistant; content := str "Hello world";
                  timestamp := timestamp m; screenshot := screenshot m;
                  isStreaming := Some false |} ]
    /\ phase s' = Quiet /\ isLoading s' = false /\ error s' = error opened_turn.
Proof.
  apply (hello_world_stream example_host opened_turn).
  - exact opened_turn_reachable.
  - vm_compute; reflexivity.
  - right. right. left. reflexivity.
Defined.


Lemma empty_transcription_returns_to_idle_witness :
  let s := step example_host (ToggleVoiceRecording StartOk (AudioOk None) 0) init in
  let s' := step example_host
              (ToggleVoiceRecording StartOk (AudioOk (Some (str "   "))) 1) s in
  isRecording s' = false /\ isLoading s' = false /\ phase s' = Quiet
  /\ error s' = Some (str "No speech detected")
  /\ messages s' = messages s
  /\ outbox s' = outbox s ++ [stop_recording; process_audio].
Proof.
  apply (empty_transcription_returns_to_idle example_host); vm_compute; reflexivity.
Defined.

End Instances.

(* ================================================================== *)
(** * Further properties of the segmenter                                *)
(* ================================================================== *)

Section SegmenterMore.

Lemma run_lits {R : Type} (l : jsstring) :
  forall s c (k : jsstring -> captures -> option R),
    run (lits l) s c k =
    match strip_prefix l s with
    | Some s' => k s' c
    | None => None
    end.
Proof.
  induction l as [|a l IH]; intros s c k; cbn [lits run strip_prefix].
  - reflexivity.
  - destruct s as [|x s']; [reflexivity|].
    rewrite (N.eqb_sym a x). destruct (N.eqb x a); [apply IH|reflexivity].
Qed.

(** Each of the three patterns starts with the fence. *)
Lemma match_at_fence (re : RegExp) (s : jsstring) :
  In re patterns -> startsWith s (str "```") = false -> match_at re s = None.
Proof.
  intros Hin Hs. unfold startsWith in Hs.
  destruct (strip_prefix (str "```") s) eqn:E; [discriminate|].
  unfold match_at.
  cbn [patterns In] in Hin. destruct Hin as [<-|[<-|[<-|[]]]];
    cbn [body pattern1 pattern2 pattern3 run]; unfold fence;
    rewrite run_lits, E; reflexivity.
Qed.

Lemma search_no_fence (re : RegExp) (s : jsstring) :
  In re patterns -> has_fence s = false -> forall i, search re s i = None.
Proof.
  intros Hin. induction s as [|x s IH]; intros Hf i.
  - cbn [search]. rewrite (match_at_fence re [] Hin eq_refl). reflexivity.
  - cbn [has_fence] in Hf. apply orb_false_iff in Hf. destruct Hf as [H1 H2].
    cbn [search]. rewrite (match_at_fence re _ Hin H1). now apply IH.
Qed.

Lemma matchAll_no_fence (re : RegExp) (t : jsstring) :
  In re patterns -> has_fence t = false -> matchAll re t = [].
Proof.
  intros Hin Hf. unfold matchAll. cbn [plus matchAll_from Nat.add].
  unfold exec. cbn [Nat.ltb Nat.leb skipn].
  now rewrite (search_no_fence re t Hin Hf 0).
Qed.

(** X1.  A text with no run of three backticks is never cut: it comes
    back whole and untrimmed as one prose part, or as no part at all when
    it is blank. *)
Theorem parseContent_no_fence (t : jsstring) :
  has_fence t = false ->
  parseContent t = if nonempty (trim t) then [text t] else [].
Proof.
  intros Hf. unfold parseContent, patterns. cbn [try_patterns].
  rewrite !matchAll_no_fence; cbn [patterns In]; auto.
Qed.

Lemma parseContent_no_fence_witness :
  parseContent (str "  two `` ticks  ") = [text (str "  two `` ticks  ")]
  /\ parseContent (str "   ") = [].
Proof.
  split.
  - apply (parseContent_no_fence (str "  two `` ticks  ")). reflexivity.
  - apply (parseContent_no_fence (str "   ")). reflexivity.
Defined.

(** ** Trimming twice is trimming once *)

Lemma trimStart_suffix (s : jsstring) :
  exists ws, s = ws ++ trimStart s /\ forallb isWhiteSpace ws = true.
Proof.
  induction s as [|c s (ws & IH & Hws)]; cbn [trimStart].
  - exists []. auto.
  - destruct (isWhiteSpace c) eqn:E.
    + exists (c :: ws). cbn [app forallb]. rewrite E, Hws. split; [congruence|reflexivity].
    + exists []. auto.
Qed.

Lemma trimStart_head (s : jsstring) :
  match trimStart s with
  | [] => True
  | x :: _ => isWhiteSpace x = false
  end.
Proof.
  induction s as [|c s IH]; cbn [trimStart]; [exact I|].
  destruct (isWhiteSpace c) eqn:E; [exact IH|exact E].
Qed.

Lemma trimStart_fixed (s : jsstring) :
  match s with [] => True | x :: _ => isWhiteSpace x = false end ->
  trimStart s = s.
Proof.
  destruct s as [|x s]; [reflexivity|]. cbn [trimStart]. now intros ->.
Qed.

Lemma trimStart_idem (s : jsstring) : trimStart (trimStart s) = trimStart s.
Proof. apply trimStart_fixed, trimStart_head. Qed.

Lemma trim_idem (s : jsstring) : trim (trim s) = trim s.
Proof.
  unfold trim, trimEnd.
  set (u := trimStart s). set (v := trimStart (rev u)).
  assert (Hw : trimStart (rev v) = rev v).
  { apply trimStart_fixed.
    destruct (trimStart_suffix (rev u)) as (ws & E & _). fold v in E.
    apply (f_equal (@rev char)) in E. rewrite rev_involutive, rev_app_distr in E.
    pose proof (trimStart_head s) as Hu. fold u in Hu.
    destruct (rev v) as [|x w]; [exact I|]. rewrite E in Hu. exact Hu. }
  rewrite Hw, rev_involutive. subst v. now rewrite trimStart_idem.
Qed.

Lemma language_of_nonempty (m : Match) : nonempty (language_of m) = true.
Proof.
  unfold language_of. destruct (Nat.eqb _ 3); [|reflexivity].
  destruct (group m 1) as [l|]; [|reflexivity].
  destruct (nonempty l) eqn:E; [exact E|reflexivity].
Qed.

Lemma text_trim_good (x : jsstring) :
  nonempty (trim x) = true -> part_good (text (trim x)).
Proof.
  intros H. split; cbn [part_filled part_trimmed]; rewrite trim_idem; auto.
Qed.

Lemma push_match_good (t : jsstring) (li : nat) (parts : list Part) (m : Match) :
  Forall part_good parts -> Forall part_good (push_match t li parts m).
Proof.
  intros Hp. unfold push_match.
  set (parts1 := if li <? index m then _ else parts).
  assert (H1 : Forall part_good parts1).
  { subst parts1. destruct (li <? index m); [|exact Hp].
    destruct (nonempty (trim (slice t li (index m)))) eqn:E; [|exact Hp].
    apply Forall_app. split; [exact Hp|]. constructor; [|constructor].
    now apply text_trim_good. }
  destruct (codeContent_of m) as [c|]; [|exact H1].
  destruct (nonempty c) eqn:E; [|exact H1].
  apply Forall_app. split; [exact H1|]. constructor; [|constructor].
  split; [|exact I]. cbn [part_filled]. now rewrite E, language_of_nonempty.
Qed.

Lemma scan_matches_good (t : jsstring) (ms : list Match) :
  forall li parts,
    Forall part_good parts -> Forall part_good (snd (scan_matches t ms li parts)).
Proof.
  induction ms as [|m ms IH]; intros li parts Hp; cbn [scan_matches].
  - exact Hp.
  - apply IH. now apply push_match_good.
Qed.

Lemma parts_of_matches_good (t : jsstring) (ms : list Match) :
  Forall part_good (parts_of_matches t ms).
Proof.
  unfold parts_of_matches.
  pose proof (scan_matches_good t ms 0 [] (Forall_nil _)) as H.
  destruct (scan_matches t ms 0 []) as [li parts]. cbn [snd] in H.
  destruct (li <? length t); [|exact H].
  destruct (nonempty (trim (slice_from t li))) eqn:E; [|exact H].
  apply Forall_app. split; [exact H|]. constructor; [|constructor].
  now apply text_trim_good.
Qed.

(** X2.  No part of the output is empty: a prose part has a content that
    is not blank, a code part has a content and a language; and when a
    grammar matched somewhere, every prose part is trimmed. *)
Theorem parseContent_parts_filled (t : jsstring) (p : Part) :
  In p (parseContent t) ->
  part_filled p = true
  /\ (select t patterns <> None -> part_trimmed p).
Proof.
  unfold parseContent. rewrite try_patterns_select.
  destruct (select t patterns) as [[re ms]|]; cbn [option_map snd].
  - intros Hin. pose proof (parts_of_matches_good t ms) as H.
    rewrite Forall_forall in H. destruct (H p Hin). auto.
  - destruct (nonempty (trim t)) eqn:E; [|intros []].
    intros [<-|[]]. split; [exact E|congruence].
Qed.

Lemma parseContent_parts_filled_witness :
  part_filled (text (str "post")) = true
  /\ (select (str " pre ```x``` post ") patterns <> None -> part_trimmed (text (str "post"))).
Proof.
  apply (parseContent_parts_filled (str " pre ```x``` post ")).
  vm_compute. right. right. left. reflexivity.
Defined.

End SegmenterMore.

(* ================================================================== *)
(** * Further properties of the inline annotator                         *)
(* ================================================================== *)

Ltac list_len :=
  repeat first [progress cbn [length] | rewrite length_app | rewrite length_firstn]; lia.

Section InlineAnnotatorMore.

(** What a successful search of the inline pattern returns. *)
Lemma search_inline_inv (s : jsstring) :
  forall i m,
    search inlineCodeRegex s i = Some m ->
    exists pre b rest,
      s = pre ++ backtick :: b ++ backtick :: rest
      /\ index m = i + length pre
      /\ whole m = backtick :: b ++ [backtick]
      /\ groups m = [Some b]
      /\ b <> [] /\ forallb not_backtick b = true.
Proof.
  induction s as [|x s IH]; intros i m; cbn [search].
  - destruct (match_at inlineCodeRegex []) as [[rest c]|] eqn:E; [|discriminate].
    apply match_at_inline_inv in E. destruct E as (b & E & _). discriminate.
  - destruct (match_at inlineCodeRegex (x :: s)) as [[rest c]|] eqn:E.
    + apply match_at_inline_inv in E. destruct E as (b & E & Hne & Hb & ->).
      intros H. inversion H; subst m. clear H.
      injection E as -> ->.
      exists [], b, rest. cbn [app index whole groups mkMatch].
      repeat split; auto.
      * change (backtick :: b ++ backtick :: rest)
          with ((backtick :: b) ++ [backtick] ++ rest).
        rewrite app_assoc. apply firstn_exact. list_len.
    + intros H. destruct (IH _ _ H) as (pre & b & rest & -> & Hi & Hw & Hg & Hne & Hb).
      exists (x :: pre), b, rest. cbn [app length]. repeat split; auto. lia.
Qed.

Lemma exec_inline_inv (t : jsstring) (li : nat) (m : Match) :
  exec inlineCodeRegex t li = Some m ->
  exists pre b rest,
    t = firstn li t ++ pre ++ backtick :: b ++ backtick :: rest
    /\ li <= length t
    /\ index m = li + length pre
    /\ whole m = backtick :: b ++ [backtick]
    /\ groups m = [Some b]
    /\ b <> [] /\ forallb not_backtick b = true.
Proof.
  unfold exec. destruct (length t <? li) eqn:El; [discriminate|].
  apply Nat.ltb_ge in El. intros H.
  destruct (search_inline_inv _ _ _ H) as (pre & b & rest & E & Hi & Hw & Hg & Hne & Hb).
  exists pre, b, rest. repeat split; auto.
  rewrite <- E. symmetry. apply firstn_skipn.
Qed.

Lemma runs_source_app (a b : list Run) :
  runs_source (a ++ b) = runs_source a ++ runs_source b.
Proof. unfold runs_source. apply flat_map_app. Qed.

(** The loop keeps: the runs so far were cut from the text before
    [lastIndex], and none of them is empty. *)
Lemma inline_loop_inv (t : jsstring) (fuel : nat) :
  forall li parts,
    li <= length t ->
    runs_source parts = firstn li t ->
    forallb run_filled parts = true ->
    let '(li', parts') := inline_loop fuel t li parts in
    li' <= length t
    /\ runs_source parts' = firstn li' t
    /\ forallb run_filled parts' = true.
Proof.
  induction fuel as [|fuel IH]; intros li parts Hli Hsrc Hok; cbn [inline_loop].
  - auto.
  - destruct (exec inlineCodeRegex t li) as [m|] eqn:E; [|auto].
    destruct (exec_inline_inv _ _ _ E) as (pre & b & rest & Ht & _ & Hi & Hw & Hg & Hne & Hb).
    assert (Hlen : length (firstn li t) = li) by (apply firstn_length_le; exact Hli).
    assert (Hslice : slice t li (index m) = pre).
    { unfold slice. rewrite Hi. replace (li + length pre - li) with (length pre) by lia.
      rewrite Ht at 1. rewrite skipn_app, Hlen, Nat.sub_diag.
      rewrite skipn_all2 by lia. cbn [skipn app]. now apply firstn_exact. }
    assert (Hend : match_end m = li + length pre + S (length b + 1)).
    { unfold match_end. rewrite Hi, Hw. list_len. }
    assert (Hfirst : firstn (match_end m) t
                     = firstn li t ++ pre ++ backtick :: b ++ [backtick]).
    { rewrite Ht at 1.
      replace (firstn li t ++ pre ++ backtick :: b ++ backtick :: rest)
        with ((firstn li t ++ pre ++ backtick :: b ++ [backtick]) ++ rest)
        by (rewrite <- !app_assoc; cbn [app]; rewrite <- !app_assoc; reflexivity).
      apply firstn_exact. rewrite Hend, !length_app, Hlen. list_len. }
    unfold group. rewrite Hg. cbn [nth_error].
    apply IH.
    + rewrite Hend. rewrite Ht at 1. rewrite !length_app, Hlen. list_len.
    + rewrite Hfirst, runs_source_app. cbn [runs_source flat_map run_source].
      rewrite app_nil_r.
      destruct (li <? index m) eqn:Elt.
      * rewrite runs_source_app, Hsrc, Hslice. cbn [runs_source flat_map run_source].
        rewrite app_nil_r, <- !app_assoc. reflexivity.
      * apply Nat.ltb_ge in Elt.
        assert (Hp : pre = []) by (destruct pre; [reflexivity|cbn [length] in Hi; lia]).
        rewrite Hp, Hsrc. reflexivity.
    + rewrite forallb_app. cbn [forallb run_filled].
      assert (Hb' : nonempty b = true) by (destruct b; [congruence|reflexivity]).
      rewrite Hb', Hb. cbn [andb]. rewrite andb_true_r.
      destruct (li <? index m) eqn:Elt; [|exact Hok].
      rewrite forallb_app, Hok, Hslice. cbn [forallb run_filled].
      apply Nat.ltb_lt in Elt. destruct pre; [cbn [length] in Hi; lia|reflexivity].
Qed.

(** X3.  Nothing of the text is lost or added: putting the backticks back
    around the inline-code runs and joining the runs gives the text. *)
Theorem processInlineCode_source (t : jsstring) :
  runs_source (processInlineCode t) = t.
Proof.
  unfold processInlineCode.
  pose proof (inline_loop_inv t (S (length t)) 0 [] (Nat.le_0_l _) eq_refl eq_refl) as H.
  destruct (inline_loop (S (length t)) t 0 []) as [li parts].
  destruct H as (Hli & Hsrc & _).
  assert (Hall : runs_source
            (if li <? length t then parts ++ [plain (slice_from t li)] else parts) = t).
  { destruct (li <? length t) eqn:E.
    - rewrite runs_source_app, Hsrc. cbn [runs_source flat_map run_source].
      rewrite app_nil_r. apply firstn_skipn.
    - apply Nat.ltb_ge in E. rewrite Hsrc. apply firstn_all2. exact E. }
  destruct (if li <? length t then parts ++ [plain (slice_from t li)] else parts)
    as [|r rs]; [|exact Hall].
  cbn [runs_source flat_map] in Hall. subst t. reflexivity.
Qed.

(** X4.  The output always has a run; an inline-code run has a content
    with no backtick in it, and no run is empty unless the text is. *)
Theorem processInlineCode_runs_filled (t : jsstring) :
  processInlineCode t <> []
  /\ (t <> [] -> forallb run_filled (processInlineCode t) = true)
  /\ (forall c, In (inline_code c) (processInlineCode t) ->
        c <> [] /\ ~ In backtick c).
Proof.
  unfold processInlineCode.
  pose proof (inline_loop_inv t (S (length t)) 0 [] (Nat.le_0_l _) eq_refl eq_refl) as H.
  destruct (inline_loop (S (length t)) t 0 []) as [li parts].
  destruct H as (Hli & Hsrc & Hok).
  set (parts1 := if li <? length t then parts ++ [plain (slice_from t li)] else parts).
  assert (Hok1 : forallb run_filled parts1 = true).
  { subst parts1. destruct (li <? length t) eqn:E; [|exact Hok].
    rewrite forallb_app, Hok. cbn [forallb run_filled andb]. rewrite andb_true_r.
    apply Nat.ltb_lt in E. unfold slice_from.
    destruct (skipn li t) eqn:Es; [|reflexivity].
    apply (f_equal (@length char)) in Es. rewrite length_skipn in Es. cbn [length] in Es. lia. }
  assert (Hinl : forall rs c, forallb run_filled rs = true -> In (inline_code c) rs ->
                   c <> [] /\ ~ In backtick c).
  { intros rs c Hf Hin. rewrite forallb_forall in Hf. apply Hf in Hin.
    cbn [run_filled] in Hin. apply andb_true_iff in Hin. destruct Hin as [Hn Hb].
    split; [destruct c; [discriminate|discriminate]|].
    rewrite forallb_forall in Hb. intros Hc. apply Hb in Hc.
    unfold not_backtick in Hc. rewrite N.eqb_refl in Hc. discriminate. }
  destruct parts1 as [|r rs] eqn:Ep.
  - split; [discriminate|]. split.
    + intros Hne. cbn [forallb run_filled]. destruct t; [congruence|reflexivity].
    + intros c [Hc|[]]. discriminate.
  - split; [discriminate|]. split; [intros _; exact Hok1|].
    intros c Hin. exact (Hinl _ c Hok1 Hin).
Qed.

Lemma processInlineCode_runs_filled_witness :
  forallb run_filled (processInlineCode (str "a `b` c")) = true.
Proof.
  refine (proj1 (proj2 (processInlineCode_runs_filled (str "a `b` c"))) _).
  discriminate.
Defined.

(** A greedy repetition of a class runs to the end of the characters of
    the class when the rest of the pattern matches there. *)
Lemma repeat_greedy_class {R : Type} (p : char -> bool)
      (k : jsstring -> captures -> option R) (s' : jsstring) (c : captures) (r : R) :
  match s' with [] => True | x :: _ => p x = false end ->
  k s' c = Some r ->
  forall b fuel,
    forallb p b = true -> length (b ++ s') < fuel ->
    repeat_ true (run (Class p)) k fuel (b ++ s') c = Some r.
Proof.
  intros Hs' Hk. induction b as [|x b IH]; intros fuel Hb Hf.
  - destruct fuel as [|fuel]; [lia|]. cbn [app repeat_ run].
    destruct s' as [|y s'']; [exact Hk|]. rewrite Hs'. exact Hk.
  - destruct fuel as [|fuel]; [cbn [length app] in Hf; lia|].
    cbn [forallb] in Hb. apply andb_true_iff in Hb. destruct Hb as [Hx Hb].
    cbn [app repeat_ run]. rewrite Hx.
    assert (Hlt : (length (b ++ s') <? length (x :: b ++ s')) = true)
      by (apply Nat.ltb_lt; cbn [length]; lia).
    rewrite Hlt, IH; [reflexivity|exact Hb|cbn [length app] in Hf; lia].
Qed.

Lemma match_at_inline_complete (b rest : jsstring) :
  b <> [] -> forallb not_backtick b = true ->
  exists c, match_at inlineCodeRegex (backtick :: b ++ backtick :: rest) = Some (rest, c).
Proof.
  intros Hne Hb. destruct b as [|y b]; [congruence|].
  cbn [forallb] in Hb. apply andb_true_iff in Hb. destruct Hb as [Hy Hb].
  unfold match_at, inlineCodeRegex, plus. cbn [body run app].
  rewrite N.eqb_refl. unfold not_backtick in Hy. rewrite Hy.
  eexists. apply repeat_greedy_class.
  - cbn. reflexivity.
  - cbn [run]. rewrite N.eqb_refl. reflexivity.
  - exact Hb.
  - lia.
Qed.

Lemma search_inline_complete (s : jsstring) :
  has_span s = true -> forall i, exists m, search inlineCodeRegex s i = Some m.
Proof.
  induction s as [|x s IH]; intros Hs i; [discriminate|].
  cbn [search].
  destruct (match_at inlineCodeRegex (x :: s)) as [[rest c]|] eqn:E; [eauto|].
  cbn [has_span] in Hs. apply orb_true_iff in Hs. destruct Hs as [Hs|Hs]; [|now apply IH].
  apply andb_true_iff in Hs. destruct Hs as [Hx Hc].
  apply N.eqb_eq in Hx. subst x.
  apply closes_after_inv in Hc. destruct Hc as (b & rest & -> & Hb & [Hf|Hne]);
    [discriminate|].
  destruct (match_at_inline_complete b rest Hne) as (c & Hm).
  - apply forallb_forall. intros y Hy. unfold not_backtick.
    apply negb_true_iff, N.eqb_neq. intros ->. tauto.
  - rewrite Hm in E. discriminate.
Qed.

Lemma inline_loop_keeps (t : jsstring) (r : Run) (fuel : nat) :
  forall li parts, In r parts -> In r (snd (inline_loop fuel t li parts)).
Proof.
  induction fuel as [|fuel IH]; intros li parts Hin; cbn [inline_loop]; [exact Hin|].
  destruct (exec inlineCodeRegex t li) as [m|]; [|exact Hin].
  apply IH. apply in_or_app. left.
  destruct (li <? index m); [apply in_or_app; now left|exact Hin].
Qed.

Lemma exec_zero (re : RegExp) (t : jsstring) : exec re t 0 = search re t 0.
Proof. reflexivity. Qed.

(** X5.  The output has an inline-code run exactly when the text has a
    span: a backtick, one character or more that are not backticks, a
    backtick. *)
Theorem processInlineCode_finds_span (t : jsstring) :
  existsb is_inline_code (processInlineCode t) = has_span t.
Proof.
  destruct (has_span t) eqn:Hs.
  - destruct (search_inline_complete t Hs 0) as (m & Hm).
    unfold processInlineCode. cbn [inline_loop]. rewrite exec_zero, Hm.
    set (g := match group m 1 with Some g => g | None => [] end).
    set (parts2 := (if 0 <? index m then [] ++ [plain (slice t 0 (index m))] else [])
                   ++ [inline_code g]).
    pose proof (inline_loop_keeps t (inline_code g) (length t) (match_end m) parts2) as Hk.
    destruct (inline_loop (length t) t (match_end m) parts2) as [li parts].
    cbn [snd] in Hk.
    assert (Hin : In (inline_code g) parts)
      by (apply Hk; subst parts2; apply in_or_app; right; now left).
    assert (Hin1 : In (inline_code g)
              (if li <? length t then parts ++ [plain (slice_from t li)] else parts))
      by (destruct (li <? length t); [apply in_or_app; now left|exact Hin]).
    destruct (if li <? length t then parts ++ [plain (slice_from t li)] else parts)
      as [|r rs]; [destruct Hin1|].
    apply existsb_exists. exists (inline_code g). split; [exact Hin1|reflexivity].
  - unfold processInlineCode. cbn [inline_loop].
    rewrite exec_zero, (search_inline_none t 0 Hs).
    destruct t; reflexivity.
Qed.

End InlineAnnotatorMore.

(* ================================================================== *)
(** * Further properties of the session controller                       *)
(* ================================================================== *)

Section SessionControllerMore.
Variable host : Host.

Lemma reachable_flags (s : Sys) :
  reachable host s ->
  abortControllerRef s = in_flight s /\ (in_flight s = true -> isLoading s = true).
Proof.
  intros H. apply reachable_wf in H. unfold wf, in_flight in *.
  destruct (phase s); intuition congruence.
Qed.


(** X7.  While a request is in flight neither sender does anything: a
    second submit sends nothing and appends nothing. *)
Theorem senders_wait (s : Sys) (w : bool) (a : ShotAnswer)
        (sa : StartAnswer) (aa : AudioAnswer) (now : N) :
  reachable host s ->
  in_flight s = true ->
  step host (SendMessage w a now) s = s
  /\ step host (ToggleVoiceRecording sa aa now) s = s.
Proof.
  intros Hr Hf. destruct (reachable_flags s Hr) as [_ Hl].
  specialize (Hl Hf). cbn [step]. unfold sendMessage, toggleVoiceRecording.
  rewrite Hl, orb_true_r. auto.
Qed.


(** ** What the read loop does to the trailing message *)

Lemma on_data_effect (d : jsstring) (m : Message) (acc : jsstring) :
  role m = assistant ->
  exists m' suffix,
    (forall ms, on_data host d (ms ++ [m]) acc = (ms ++ [m'], acc ++ suffix))
    /\ role m' = assistant /\ timestamp m' = timestamp m
    /\ screenshot m' = screenshot m /\ isStreaming m' = isStreaming m
    /\ (m' = m /\ suffix = [] \/ content m' = acc ++ suffix).
Proof.
  intros Hr. unfold on_data, try_data.
  assert (Hsame : exists m' suffix,
            (forall ms : list Message, (ms ++ [m], acc) = (ms ++ [m'], acc ++ suffix))
            /\ role m' = assistant /\ timestamp m' = timestamp m
            /\ screenshot m' = screenshot m /\ isStreaming m' = isStreaming m
            /\ (m' = m /\ suffix = [] \/ content m' = acc ++ suffix)).
  { exists m, []. rewrite app_nil_r. auto 10. }
  destruct (parse d) as [parsed|]; [|exact Hsame].
  destruct (get parsed (str "error")) as [e|]; [|exact Hsame].
  destruct (truthy host e); [exact Hsame|].
  destruct (get parsed (str "content")) as [c|]; [|exact Hsame].
  destruct (truthy host c); [|exact Hsame].
  unfold append_value.
  assert (Happ : forall suffix, exists m' suffix',
            (forall ms, (update_last (set_content (acc ++ suffix)) (ms ++ [m]), acc ++ suffix)
                        = (ms ++ [m'], acc ++ suffix'))
            /\ role m' = assistant /\ timestamp m' = timestamp m
            /\ screenshot m' = screenshot m /\ isStreaming m' = isStreaming m
            /\ (m' = m /\ suffix' = [] \/ content m' = acc ++ suffix')).
  { intros suffix. exists (set_content (acc ++ suffix) m), suffix.
    repeat split; auto. intros ms. now rewrite update_last_app, Hr. }
  destruct (match c with Some v => v | None => JNull end); try apply Happ;
    (destruct (to_primitive_string host _); [apply Happ|exact Hsame]).
Qed.

Lemma for_lines_effect (lines : list jsstring) :
  forall (m : Message) (acc : jsstring),
    role m = assistant ->
    exists m' suffix,
      (forall ms, for_lines host lines (ms ++ [m]) acc = (ms ++ [m'], acc ++ suffix))
      /\ role m' = assistant /\ timestamp m' = timestamp m
      /\ screenshot m' = screenshot m
      /\ (isStreaming m' = isStreaming m \/ isStreaming m' = Some false)
      /\ (content m' = content m /\ suffix = [] \/ content m' = acc ++ suffix).
Proof.
  induction lines as [|line lines IH]; intros m acc Hr; cbn [for_lines].
  - exists m, []. rewrite app_nil_r. auto 10.
  - destruct (strip_prefix data_prefix line) as [data|]; [|now apply IH].
    destruct (eqb data DONE).
    + exists (clear_streaming m), []. rewrite app_nil_r. repeat split; auto.
      intros ms. now rewrite update_last_app, Hr.
    + destruct (on_data_effect data m acc Hr)
        as (m1 & s1 & H1 & Hr1 & Ht1 & Hs1 & Hi1 & Hc1).
      destruct (IH m1 (acc ++ s1) Hr1) as (m2 & s2 & H2 & Hr2 & Ht2 & Hs2 & Hi2 & Hc2).
      exists m2, (s1 ++ s2). rewrite app_assoc.
      split; [intros ms; now rewrite H1, H2|].
      split; [exact Hr2|]. split; [congruence|]. split; [congruence|].
      split; [rewrite <- Hi1; exact Hi2|].
      destruct Hc2 as [[E2 ->]|E2]; [|right; exact E2].
      rewrite !app_nil_r. destruct Hc1 as [[-> ->]|E1]; [left; auto|].
      right. congruence.
Qed.

(** X9.  No step rewrites history: the messages before the last stay as
    they are and none is removed; the last message keeps its role, time
    stamp and screenshot, and is changed only if it is the assistant's. *)
Theorem history_kept (e : Event) (s : Sys) (ms : list Message) (m : Message) :
  reachable host s ->
  messages s = ms ++ [m] ->
  exists m' tail,
    messages (step host e s) = ms ++ m' :: tail
    /\ role m' = role m /\ timestamp m' = timestamp m /\ screenshot m' = screenshot m
    /\ (role m = user -> m' = m).
Proof.
  intros Hreach Hm. pose proof (reachable_wf host s Hreach) as Hwf.
  assert (Hsame : forall s', messages s' = messages s ->
            exists m' tail, messages s' = ms ++ m' :: tail
              /\ role m' = role m /\ timestamp m' = timestamp m
              /\ screenshot m' = screenshot m /\ (role m = user -> m' = m)).
  { intros s' E. exists m, []. rewrite E, Hm. auto. }
  assert (Hadd : forall s' x, messages s' = messages s ++ [x] ->
            exists m' tail, messages s' = ms ++ m' :: tail
              /\ role m' = role m /\ timestamp m' = timestamp m
              /\ screenshot m' = screenshot m /\ (role m = user -> m' = m)).
  { intros s' x E. exists m, [x]. rewrite E, Hm, <- app_assoc. auto. }
  destruct e; cbn [step].
  - now apply Hsame.
  - unfold sendMessage. destruct (_ || isLoading s); [now apply Hsame|].
    destruct withScreenshot; cbn [andb].
    + unfold captureScreenshot. destruct a as [shot|e|msg']; cbn [truthy_string negb];
        try (now apply Hsame).
      destruct (truthy_string shot); cbn [negb]; [|now apply Hsame].
      eapply Hadd. reflexivity.
    + eapply Hadd. reflexivity.
  - unfold toggleVoiceRecording. destruct (isLoading s); [now apply Hsame|].
    destruct (negb (isRecording s)).
    + destruct sa; now apply Hsame.
    + destruct aa as [msg'|msg'|e|[t|]]; try (now apply Hsame).
      destruct (nonempty t && nonempty (trim t)); [|now apply Hsame].
      eapply Hadd. reflexivity.
  - unfold stopGeneration. destruct (abortControllerRef s); now apply Hsame.
  - unfold on_response. destruct (phase s) as [|um|acc] eqn:Hp; try (now apply Hsame).
    unfold wf in Hwf. rewrite Hp in Hwf. destruct Hwf as (_ & _ & Hum & _).
    destruct ok; [|now apply Hsame].
    destruct hasBody; eapply Hadd; cbn; rewrite Hum; reflexivity.
  - destruct (phase s); now apply Hsame.
  - destruct (phase s) as [|um|acc] eqn:Hp; try (now apply Hsame).
    unfold wf in Hwf. rewrite Hp in Hwf.
    destruct Hwf as (_ & _ & ms0 & m0 & Hm0 & Hr0 & _).
    rewrite Hm in Hm0. apply app_inj_tail in Hm0. destruct Hm0 as [<- <-].
    unfold on_chunk. rewrite Hm.
    destruct (for_lines_effect (split_nl chunk) m acc Hr0)
      as (m' & suffix & H' & Hr' & Ht' & Hs' & _).
    rewrite H'. exists m', []. cbn [messages setPhase setMessages].
    repeat split; auto; congruence.
  - destruct (phase s); now apply Hsame.
Qed.

(** X10.  A chunk only extends the reply: the accumulated content and the
    content of the trailing assistant message grow by the same suffix (the
    deltas of the chunk), the streaming flag is never set again, and
    nothing else of the state changes. *)
Theorem chunk_extends_content (s : Sys) (acc chunk : jsstring) :
  reachable host s ->
  phase s = Reading acc ->
  exists ms m m' suffix,
    messages s = ms ++ [m] /\ content m = acc
    /\ step host (ChunkArrives chunk) s
       = setPhase (Reading (acc ++ suffix)) (setMessages (ms ++ [m']) s)
    /\ content m' = acc ++ suffix
    /\ role m' = assistant /\ timestamp m' = timestamp m /\ screenshot m' = screenshot m
    /\ (isStreaming m' = isStreaming m \/ isStreaming m' = Some false).
Proof.
  intros Hreach Hp.
  destruct (reading_has_assistant host s acc Hreach Hp) as (ms & m & Hm & Hr & Hc).
  destruct (for_lines_effect (split_nl chunk) m acc Hr)
    as (m' & suffix & H' & Hr' & Ht' & Hs' & Hi' & Hc').
  exists ms, m, m', suffix. repeat split; auto.
  - cbn [step]. rewrite Hp. unfold on_chunk. rewrite Hm, H'. reflexivity.
  - destruct Hc' as [[E ->]|E]; [|exact E]. rewrite app_nil_r. congruence.
Qed.

(** ** One chat request per user message *)

Lemma follows_user_snoc_user (rs : list Role) :
  forall p, follows_user p (rs ++ [user]) = follows_user p rs.
Proof.
  induction rs as [|r rs IH]; intros p; cbn [app follows_user]; [reflexivity|].
  destruct r; now rewrite IH.
Qed.

Lemma follows_user_snoc_reply (rs : list Role) :
  forall p, follows_user p (rs ++ [user; assistant]) = follows_user p rs.
Proof.
  induction rs as [|r rs IH]; intros p; cbn [app follows_user andb]; [reflexivity|].
  destruct r; now rewrite IH.
Qed.

(** A step that appends no message, sends no chat request and does not
    end up waiting for a response. *)
Lemma requests_ok_aside (s s' : Sys) (extra : list Request) :
  requests_ok s ->
  messages s' = messages s ->
  outbox s' = outbox s ++ extra ->
  filter is_send extra = [] ->
  match phase s' with AwaitResponse _ => False | _ => True end ->
  requests_ok s'.
Proof.
  intros (Hc & Hf & _) Hm Ho He Hp. unfold requests_ok.
  rewrite Hm, Ho, filter_app, He, app_nil_r.
  repeat split; auto. destruct (phase s'); tauto.
Qed.

Lemma requests_ok_submit (s s2 : Sys) (extra : list Request)
      (u : Message) (shot : option jsstring) :
  requests_ok s ->
  messages s2 = messages s ->
  outbox s2 = outbox s ++ extra ->
  filter is_send extra = [] ->
  role u = user ->
  requests_ok (submit u shot s2).
Proof.
  intros (Hc & Hf & _) Hm Ho He Hu. unfold requests_ok. sys.
  rewrite Hm, Ho, !filter_app, He, map_app, !length_app. cbn [map filter is_send length].
  unfold is_user at 2. rewrite Hu. cbn [length app].
  rewrite follows_user_snoc_user. repeat split; auto.
  - lia.
  - eexists _, _. reflexivity.
Qed.

Lemma requests_ok_setInput (v : jsstring) (s : Sys) :
  requests_ok s -> requests_ok (setInput v s).
Proof. intros H. exact H. Qed.

Lemma requests_ok_step (e : Event) (s : Sys) :
  wf s -> requests_ok s -> requests_ok (step host e s).
Proof.
  intros Hwf Hok. destruct e; cbn [step].
  - exact Hok.
  - unfold sendMessage. destruct (_ || isLoading s) eqn:G; [exact Hok|].
    apply orb_false_iff in G. destruct G as [_ Hl].
    pose proof (wf_quiet s Hwf Hl) as Hq.
    destruct withScreenshot; cbn [andb].
    + unfold captureScreenshot. destruct a as [shot|e|msg']; cbn [truthy_string negb].
      * destruct (truthy_string shot); cbn [negb].
        -- apply requests_ok_setInput.
           apply (requests_ok_submit s _ [capture_screenshot]); auto.
        -- apply (requests_ok_aside s _ [capture_screenshot]); auto. exact I.
      * apply (requests_ok_aside s _ [capture_screenshot]); auto. exact I.
      * apply (requests_ok_aside s _ [capture_screenshot]); auto. exact I.
    + apply requests_ok_setInput.
      apply (requests_ok_submit s _ []); auto. cbn. now rewrite app_nil_r.
  - unfold toggleVoiceRecording. destruct (isLoading s) eqn:Hl; [exact Hok|].
    pose proof (wf_quiet s Hwf Hl) as Hq.
    destruct (negb (isRecording s)).
    + destruct sa; apply (requests_ok_aside s _ [start_recording]); auto;
        cbn; now rewrite Hq.
    + destruct aa as [msg'|msg'|e|[t|]].
      * apply (requests_ok_aside s _ [stop_recording]); auto. exact I.
      * apply (requests_ok_aside s _ [stop_recording; process_audio]); auto;
          [cbn; now rewrite <- app_assoc|exact I].
      * apply (requests_ok_aside s _ [stop_recording; process_audio]); auto;
          [cbn; now rewrite <- app_assoc|exact I].
      * destruct (nonempty t && nonempty (trim t)).
        -- apply (requests_ok_submit s _ [stop_recording; process_audio]); auto.
           cbn. now rewrite <- app_assoc.
        -- apply (requests_ok_aside s _ [stop_recording; process_audio]); auto;
             [cbn; now rewrite <- app_assoc|exact I].
      * apply (requests_ok_aside s _ [stop_recording; process_audio]); auto;
          [cbn; now rewrite <- app_assoc|exact I].
  - unfold stopGeneration. destruct (abortControllerRef s); [|exact Hok].
    apply (requests_ok_aside s _ []); auto; [cbn; now rewrite app_nil_r|exact I].
  - unfold on_response. destruct (phase s) as [|um|acc] eqn:Hp; try exact Hok.
    unfold wf in Hwf. rewrite Hp in Hwf.
    destruct Hwf as (_ & _ & Hum & ms & u & Hms & Hu & _).
    destruct ok.
    + destruct Hok as (Hc & Hf & _). rewrite Hum, Hms in Hc, Hf.
      assert (Hgoal : forall s', messages s' = (ms ++ [u]) ++ [{| role := assistant; content := [];
                         timestamp := now; screenshot := None; isStreaming := Some true |}] ->
                outbox s' = outbox s ->
                match phase s' with AwaitResponse _ => False | _ => True end ->
                requests_ok s').
      { intros s' Em Eo Ep. unfold requests_ok. rewrite Em, Eo, <- Hc.
        rewrite <- app_assoc. cbn [app]. rewrite map_app, !filter_app. cbn [map filter is_user role].
        rewrite Hu, follows_user_snoc_reply. rewrite map_app in Hf. cbn [map] in Hf.
        rewrite Hu, follows_user_snoc_user in Hf.
        repeat split; auto. destruct (phase s'); tauto. }
      destruct hasBody; apply Hgoal; cbn; try rewrite Hms; auto.
    + apply (requests_ok_aside s _ []); auto; [cbn; now rewrite app_nil_r|exact I].
  - destruct (phase s); [exact Hok| |];
      (apply (requests_ok_aside s _ []); auto; [cbn; now rewrite app_nil_r|exact I]).
  - destruct (phase s) as [|um|acc] eqn:Hp; try exact Hok.
    unfold wf in Hwf. rewrite Hp in Hwf.
    destruct Hwf as (_ & _ & ms & m & Hm & Hr & _).
    unfold on_chunk. rewrite Hm.
    destruct (for_lines_effect (split_nl chunk) m acc Hr) as (m' & suffix & H' & Hr' & _).
    rewrite H'. destruct Hok as (Hc & Hf & _). rewrite Hm in Hc, Hf.
    unfold requests_ok. cbn [messages outbox phase setPhase setMessages].
    rewrite map_app, filter_app in *. cbn [map filter] in *.
    unfold is_user in *. rewrite Hr in Hc, Hf. rewrite Hr'. auto.
  - destruct (phase s); try exact Hok.
    apply (requests_ok_aside s _ []); auto; [cbn; now rewrite app_nil_r|exact I].
Qed.

Lemma reachable_requests_ok (s : Sys) : reachable host s -> requests_ok s.
Proof.
  induction 1 as [|e s Hr IH].
  - unfold requests_ok. cbn. auto.
  - apply requests_ok_step; [now apply (reachable_wf host)|exact IH].
Qed.

(** X11.  In every reachable state the chat requests sent are as many as
    the user messages of the transcript, every assistant message comes
    right after a user message, and while the response is awaited the last
    request sent is the chat request that carries the role and content of
    every message of the transcript, which ends with the user's. *)
Theorem requests_match_transcript (s : Sys) :
  reachable host s ->
  length (filter is_user (messages s)) = length (filter is_send (outbox s))
  /\ follows_user false (map role (messages s)) = true
  /\ (forall um, phase s = AwaitResponse um ->
        messages s = um
        /\ (exists ms u, um = ms ++ [u] /\ role u = user)
        /\ exists sent shot,
             outbox s = sent ++ [send_message (request_body (messages s)) shot]).
Proof.
  intros Hr. destruct (reachable_requests_ok s Hr) as (Hc & Hf & Hp).
  apply reachable_wf in Hr. split; [exact Hc|]. split; [exact Hf|].
  intros um E. unfold wf in Hr. rewrite E in Hr, Hp.
  destruct Hr as (_ & _ & Hum & ms & u & Hms & Hu & _).
  split; [exact Hum|]. split; [eauto|]. rewrite Hum. exact Hp.
Qed.

(** ** More of the read loop *)

Lemma step_same (s : Sys) (acc : jsstring) :
  phase s = Reading acc ->
  setPhase (Reading acc) (setMessages (messages s) s) = s.
Proof.
  destruct s as [ms0 i0 l0 r0 e0 a0 p0 o0]. cbn. intros ->. reflexivity.
Qed.

Lemma for_lines_unprefixed (lines : list jsstring) (msgs : list Message) (acc : jsstring) :
  forallb (fun line => negb (startsWith line data_prefix)) lines = true ->
  for_lines host lines msgs acc = (msgs, acc).
Proof.
  induction lines as [|line lines IH]; cbn [forallb for_lines]; [reflexivity|].
  intros H. apply andb_true_iff in H. destruct H as [Hl Hs].
  unfold startsWith in Hl.
  destruct (strip_prefix data_prefix line); [discriminate|]. now apply IH.
Qed.

(** X12.  Lines that do not start with the event prefix are ignored: a
    chunk with no such line (blank lines, comments, other fields) changes
    nothing at all. *)
Theorem unprefixed_lines_ignored (s : Sys) (chunk : jsstring) :
  forallb (fun line => negb (startsWith line data_prefix)) (split_nl chunk) = true ->
  step host (ChunkArrives chunk) s = s.
Proof.
  intros H. cbn [step]. destruct (phase s) as [|um|acc] eqn:Hp; try reflexivity.
  unfold on_chunk. rewrite (for_lines_unprefixed _ _ _ H). now apply step_same.
Qed.

Lemma on_data_no_content (p : jsstring) (msgs : list Message) (acc : jsstring) :
  has_content host p = false -> on_data host p msgs acc = (msgs, acc).
Proof.
  unfold has_content, on_data, try_data.
  destruct (parse p) as [[| | | | |ms]|]; try reflexivity.
  cbn [get]. destruct (truthy host (find_member (str "error") ms)); [reflexivity|].
  cbn [negb andb]. intros ->. reflexivity.
Qed.

(** X13.  A frame changes something only if it is the sentinel or its
    payload is a JSON object with a truthy content: any other frame (not
    JSON, not an object, [null], an object without content or with an
    empty one) leaves the whole state as it is and the loop running. *)
Theorem frame_without_content_ignored (s : Sys) (p : jsstring) :
  single_line p = true ->
  eqb p DONE = false ->
  has_content host p = false ->
  step host (ChunkArrives (frame p)) s = s.
Proof.
  intros Hl Hd Hc. cbn [step]. destruct (phase s) as [|um|acc] eqn:Hp; try reflexivity.
  unfold on_chunk. rewrite (frame_alone_lines _ Hl). cbn [for_lines].
  rewrite strip_prefix_app, Hd, (on_data_no_content _ _ _ Hc).
  now apply step_same.
Qed.

Lemma for_lines_after_done (l1 l2 l3 : list jsstring) :
  forall msgs acc,
    for_lines host (l1 ++ (data_prefix ++ DONE) :: l2) msgs acc
    = for_lines host (l1 ++ (data_prefix ++ DONE) :: l3) msgs acc.
Proof.
  induction l1 as [|x l1 IH]; intros msgs acc; cbn [app for_lines].
  - rewrite strip_prefix_app. replace (eqb DONE DONE) with true by reflexivity.
    reflexivity.
  - destruct (strip_prefix data_prefix x) as [data|]; [|apply IH].
    destruct (eqb data DONE); [reflexivity|].
    destruct (on_data host data msgs acc). apply IH.
Qed.

(** X14.  The sentinel ends the decoding of its chunk, not of the stream:
    what follows it in the same chunk is dropped, while a delta in a later
    chunk is still appended (to a message no longer streaming) and the loop
    goes on. *)
Theorem sentinel_ends_chunk_only (s : Sys) (pre post : jsstring) :
  ends_line pre = true ->
  step host (ChunkArrives (pre ++ frame DONE ++ post)) s
  = step host (ChunkArrives (pre ++ frame DONE)) s
  /\ forall acc p d,
       reachable host s -> phase s = Reading acc ->
       single_line p = true -> delta_of host p = Some d ->
       let s' := run_events host [ChunkArrives (frame DONE); ChunkArrives (frame p)] s in
       exists ms m,
         messages s = ms ++ [m]
         /\ messages s' = ms ++ [set_content (acc ++ d) (clear_streaming m)]
         /\ phase s' = Reading (acc ++ d).
Proof.
  intros Hpre. split.
  - cbn [step]. destruct (phase s); try reflexivity. unfold on_chunk.
    assert (Hd : forall rest, split_nl (frame DONE ++ rest)
                              = (data_prefix ++ DONE) :: split_nl rest)
      by (intros; now apply frame_lines).
    destruct (ends_line_inv _ Hpre) as [->|(pre' & ->)].
    + cbn [app]. rewrite <- (app_nil_r (frame DONE)) at 2. rewrite !Hd.
      now rewrite (for_lines_after_done [] (split_nl post) (split_nl [])).
    + rewrite <- !app_assoc. cbn [app].
      rewrite (split_nl_app pre' (frame DONE ++ post)), (split_nl_app pre' (frame DONE)).
      rewrite <- (app_nil_r (frame DONE)) at 2. rewrite !Hd.
      now rewrite (for_lines_after_done _ (split_nl post) (split_nl [])).
  - intros acc p d Hreach Hp Hl Hd s'.
    destruct (reading_has_assistant host s acc Hreach Hp) as (ms & m & Hm & Hr & Hc).
    exists ms, m. split; [exact Hm|]. subst s'.
    assert (E1 : step host (ChunkArrives (frame DONE)) s
                 = setPhase (Reading acc) (setMessages (ms ++ [clear_streaming m]) s)).
    { apply (step_chunk host s acc _ ms m _ _ Hp Hm Hr).
      rewrite (frame_alone_lines DONE eq_refl). cbn [for_lines].
      rewrite strip_prefix_app. replace (eqb DONE DONE) with true by reflexivity.
      cbn [update_last]. now rewrite Hr. }
    rewrite run_events_cons, E1, run_events_cons. cbn [run_events].
    rewrite (step_chunk host _ acc _ ms (clear_streaming m)
               (set_content (acc ++ d) (clear_streaming m)) (acc ++ d)).
    + split; reflexivity.
    + reflexivity.
    + reflexivity.
    + exact Hr.
    + rewrite (frame_alone_lines _ Hl), (for_lines_delta host _ _ _ _ _ Hd).
      cbn [update_last clear_streaming role]. rewrite Hr. reflexivity.
Qed.

(** X15.  Deltas are joined in the order of arrival: after a chunk of
    delta frames the trailing content is the content accumulated before,
    then the contents of the frames one after the other. *)
Theorem deltas_concatenate (s : Sys) (acc : jsstring) (frames : list (jsstring * jsstring)) :
  reachable host s ->
  phase s = Reading acc ->
  Forall (fun pd => single_line (fst pd) = true /\ delta_of host (fst pd) = Some (snd pd))
         frames ->
  let chunk := flat_map (fun pd => frame (fst pd)) frames in
  let total := acc ++ flat_map snd frames in
  exists ms m,
    messages s = ms ++ [m]
    /\ step host (ChunkArrives chunk) s
       = setPhase (Reading total) (setMessages (ms ++ [set_content total m]) s).
Proof.
  intros Hreach Hp Hf chunk total.
  destruct (reading_has_assistant host s acc Hreach Hp) as (ms & m & Hm & Hr & Hc).
  exists ms, m. split; [exact Hm|].
  apply (step_chunk host s acc _ ms m _ _ Hp Hm Hr). subst chunk total.
  assert (Hgen : forall fs m0 a,
            role m0 = assistant -> content m0 = a ->
            Forall (fun pd => single_line (fst pd) = true
                              /\ delta_of host (fst pd) = Some (snd pd)) fs ->
            for_lines host (split_nl (flat_map (fun pd => frame (fst pd)) fs)) [m0] a
            = ([set_content (a ++ flat_map snd fs) m0], a ++ flat_map snd fs)).
  { induction fs as [|[p d] fs IH]; intros m0 a Hr0 Hc0 Hfs.
    - cbn [flat_map split_nl]. rewrite for_lines_last_empty, app_nil_r.
      subst a. destruct m0. reflexivity.
    - inversion Hfs as [|x l [Hl Hd] Hrest]; subst x l. cbn [fst snd] in Hl, Hd.
      cbn [flat_map fst snd]. rewrite (frame_lines p _ Hl).
      rewrite (for_lines_delta host _ _ _ _ _ Hd). cbn [update_last]. rewrite Hr0.
      rewrite (IH (set_content (a ++ d) m0) (a ++ d)); auto.
      rewrite <- app_assoc. reflexivity. }
  now apply Hgen.
Qed.

(** X16.  A request that fails while in flight (or a response that is
    not ok) ends the turn with the error shown as "Error: " and the
    message, and leaves the transcript as it is: the user message stays,
    with no assistant message after it when the response never came. *)
Theorem failure_ends_turn (s : Sys) (message : jsstring) (hasBody : bool) (now : N) :
  reachable host s ->
  in_flight s = true ->
  (let s' := step host (RequestFails message) s in
   error s' = Some (str "Error: " ++ message)
   /\ messages s' = messages s /\ in_flight s' = false /\ isLoading s' = false)
  /\ (forall um, phase s = AwaitResponse um ->
        let s' := step host (ResponseArrives false hasBody now) s in
        error s' = Some (str "Error: Failed to send message")
        /\ messages s' = messages s /\ in_flight s' = false /\ isLoading s' = false
        /\ exists ms u, messages s' = ms ++ [u] /\ role u = user).
Proof.
  intros Hreach Hf. split.
  - cbn [step]. unfold in_flight in Hf. destruct (phase s); [discriminate| |];
      cbn; auto.
  - intros um Hp. cbn [step]. unfold on_response. rewrite Hp. cbn.
    apply reachable_wf in Hreach. unfold wf in Hreach. rewrite Hp in Hreach.
    destruct Hreach as (_ & _ & -> & ms & u & -> & Hu & _). eauto 10.
Qed.

(** X17.  When the screenshot cannot be taken (the capture fails, is
    refused, or returns nothing), sending with a screenshot appends no
    message, sends no chat request and keeps the typed input; the reason
    is shown when there is one, and the controller is idle again. *)
Theorem screenshot_failure_sends_nothing (s : Sys) (a : ShotAnswer) (now : N) :
  isLoading s = false ->
  shot_failed a = true ->
  let s' := step host (SendMessage true a now) s in
  messages s' = messages s /\ input s' = input s
  /\ outbox s' = outbox s ++ [capture_screenshot]
  /\ isLoading s' = false /\ in_flight s' = false
  /\ error s' = match a with
                | ShotOk _ => None
                | ShotNotOk e =>
                    Some (str "Screenshot failed: "
                          ++ or_default e (str "Failed to capture screenshot"))
                | ShotThrows message => Some (str "Screenshot failed: " ++ message)
                end.
Proof.
  intros Hl Ha. cbn [step]. unfold sendMessage. rewrite Hl.
  cbn [negb andb orb]. rewrite andb_false_r. cbn [orb].
  unfold captureScreenshot. destruct a as [shot|e|msg']; cbn [shot_failed] in Ha.
  - apply negb_true_iff in Ha. rewrite Ha. cbn. auto 10.
  - cbn. auto 10.
  - cbn. auto 10.
Qed.

End SessionControllerMore.

(* ================================================================== *)
(** * Closed instances of the further properties                         *)
(* ================================================================== *)

Section MoreInstances.


Lemma senders_wait_witness :
  step example_host (SendMessage false (ShotOk None) 9) opened_turn = opened_turn
  /\ step example_host (ToggleVoiceRecording StartOk (AudioOk None) 9) opened_turn
     = opened_turn.
Proof.
  apply (senders_wait example_host opened_turn).
  - exact opened_turn_reachable.
  - reflexivity.
Defined.


Lemma history_kept_witness :
  let m := {| role := assistant; content := []; timestamp := 2;
              screenshot := None; isStreaming := Some true |} in
  exists m' tail,
    messages (step example_host (ChunkArrives (frame (dq "{'content':'Hel'}"))) opened_turn)
    = firstn 1 (messages opened_turn) ++ m' :: tail
    /\ role m' = role m /\ timestamp m' = timestamp m /\ screenshot m' = screenshot m
    /\ (role m = user -> m' = m).
Proof.
  apply (history_kept example_host
           (ChunkArrives (frame (dq "{'content':'Hel'}"))) opened_turn).
  - exact opened_turn_reachable.
  - reflexivity.
Defined.

Lemma chunk_extends_content_witness :
  exists ms m m' suffix,
    messages opened_turn = ms ++ [m] /\ content m = []
    /\ step example_host (ChunkArrives (frame (dq "{'content':'Hel'}"))) opened_turn
       = setPhase (Reading ([] ++ suffix)) (setMessages (ms ++ [m']) opened_turn)
    /\ content m' = [] ++ suffix
    /\ role m' = assistant /\ timestamp m' = timestamp m /\ screenshot m' = screenshot m
    /\ (isStreaming m' = isStreaming m \/ isStreaming m' = Some false).
Proof.
  apply (chunk_extends_content example_host opened_turn []).
  - exact opened_turn_reachable.
  - reflexivity.
Defined.

Lemma requests_match_transcript_witness :
  length (filter is_user (messages opened_turn))
  = length (filter is_send (outbox opened_turn))
  /\ follows_user false (map role (messages opened_turn)) = true.
Proof.
  destruct (requests_match_transcript example_host opened_turn opened_turn_reachable)
    as (H1 & H2 & _).
  split; [exact H1|exact H2].
Defined.

Lemma unprefixed_lines_ignored_witness :
  step example_host (ChunkArrives (str ": keep-alive" ++ [nl; nl] ++ str "event: ping")) opened_turn
  = opened_turn.
Proof.
  apply (unprefixed_lines_ignored example_host). vm_compute. reflexivity.
Defined.

Lemma frame_without_content_ignored_witness :
  step example_host (ChunkArrives (frame (dq "{'content':'','role':'assistant'}"))) opened_turn
  = opened_turn.
Proof.
  apply (frame_without_content_ignored example_host); vm_compute; reflexivity.
Defined.

Lemma sentinel_ends_chunk_only_witness :
  step example_host
    (ChunkArrives (frame (dq "{'content':'a'}") ++ frame DONE ++ frame (dq "{'content':'b'}")))
    opened_turn
  = step example_host (ChunkArrives (frame (dq "{'content':'a'}") ++ frame DONE)) opened_turn.
Proof.
  refine (proj1 (sentinel_ends_chunk_only example_host opened_turn
                   (frame (dq "{'content':'a'}")) (frame (dq "{'content':'b'}")) _)).
  vm_compute. reflexivity.
Defined.

Lemma deltas_concatenate_witness :
  let frames := [(dq "{'content':'a'}", str "a"); (dq "{'content':'bc'}", str "bc")] in
  exists ms m,
    messages opened_turn = ms ++ [m]
    /\ step example_host (ChunkArrives (flat_map (fun pd => frame (fst pd)) frames)) opened_turn
       = setPhase (Reading ([] ++ flat_map snd frames))
           (setMessages (ms ++ [set_content ([] ++ flat_map snd frames) m]) opened_turn).
Proof.
  apply (deltas_concatenate example_host opened_turn []).
  - exact opened_turn_reachable.
  - reflexivity.
  - repeat constructor.
Defined.

Lemma failure_ends_turn_witness :
  let s' := step example_host (RequestFails (str "network down")) opened_turn in
  error s' = Some (str "Error: " ++ str "network down")
  /\ messages s' = messages opened_turn /\ in_flight s' = false /\ isLoading s' = false.
Proof.
  refine (proj1 (failure_ends_turn example_host opened_turn (str "network down") true 0 _ _)).
  - exact opened_turn_reachable.
  - reflexivity.
Defined.

Lemma screenshot_failure_sends_nothing_witness :
  let s' := step example_host (SendMessage true (ShotNotOk None) 5)
              (step example_host (TypeInput (str "look")) init) in
  messages s' = [] /\ input s' = str "look"
  /\ outbox s' = [] ++ [capture_screenshot]
  /\ isLoading s' = false /\ in_flight s' = false
  /\ error s' = Some (str "Screenshot failed: "
                      ++ or_default None (str "Failed to capture screenshot")).
Proof.
  apply (screenshot_failure_sends_nothing example_host
           (step example_host (TypeInput (str "look")) init) (ShotNotOk None) 5);
    reflexivity.
Defined.

End MoreInstances.

(* ================================================================== *)
(** * The matcher with alternatives and anchors                          *)
(* ================================================================== *)

Section Patterns.
Import RX.

Lemma loop_sound {R : Type} (greedy : bool)
      (once : option char -> jsstring -> captures -> cont R -> option R)
      (P : option char -> jsstring -> captures -> captures -> option char -> Prop)
      (k : cont R) (res : R)
      (Honce : forall prev s c (k0 : cont R),
          once prev s c k0 = Some res ->
          exists g s' c' prev', s = g ++ s' /\ P prev g c c' prev'
                                /\ k0 prev' s' c' = Some res) :
  forall fuel prev s c,
    loop greedy once k fuel prev s c = Some res ->
    exists g s' c' prev',
      s = g ++ s' /\ rounds P prev g c c' prev' /\ k prev' s' c' = Some res.
Proof.
  induction fuel as [|fuel IH]; intros prev s c H; cbn [loop] in H.
  - exists [], s, c, prev. repeat split; [constructor|exact H].
  - assert (Hcases :
      once prev s c (fun prev' s' c' =>
          if length s' <? length s then loop greedy once k fuel prev' s' c'
          else None) = Some res \/ k prev s c = Some res).
    { destruct greedy; unfold orelse in H;
        match type of H with
        | match ?x with _ => _ end = _ => destruct x eqn:E
        end; auto. }
    destruct Hcases as [Hm|Hk].
    + apply Honce in Hm. destruct Hm as (g1 & s1 & c1 & p1 & -> & HP & Hrest).
      destruct (length s1 <? length (g1 ++ s1)) eqn:Hlt; [|discriminate].
      apply Nat.ltb_lt in Hlt. rewrite length_app in Hlt.
      apply IH in Hrest. destruct Hrest as (g2 & s2 & c2 & p2 & -> & Hr & Hk).
      exists (g1 ++ g2), s2, c2, p2. rewrite <- app_assoc.
      repeat split; [|exact Hk].
      econstructor; [exact HP| |exact Hr].
      intros ->. cbn in Hlt. lia.
    + exists [], s, c, prev. repeat split; [constructor|exact Hk].
Qed.

(** Whatever the matcher finds, the pattern can match. *)
Lemma run_sound {R : Type} (r : rx) (res : R) :
  forall prev s c (k : cont R),
    run r prev s c k = Some res ->
    exists g s' c' prev',
      s = g ++ s' /\ sem r prev g c c' prev' /\ k prev' s' c' = Some res.
Proof.
  induction r as [|a|p|r1 IH1 r2 IH2|r1 IH1 r2 IH2|greedy r0 IH|i r0 IH|];
    intros prev s c k H; cbn [run] in H.
  - exists [], s, c, prev. cbn. auto.
  - destruct s as [|x s']; [discriminate|].
    destruct (N.eqb x a) eqn:E; [|discriminate]. apply N.eqb_eq in E. subst x.
    exists [a], s', c, (Some a). cbn. auto.
  - destruct s as [|x s']; [discriminate|].
    destruct (p x) eqn:E; [|discriminate].
    exists [x], s', c, (Some x). cbn. repeat split; eauto.
  - apply IH1 in H. destruct H as (g1 & s1 & c1 & p1 & -> & H1 & H).
    apply IH2 in H. destruct H as (g2 & s2 & c2 & p2 & -> & H2 & H).
    exists (g1 ++ g2), s2, c2, p2. rewrite <- app_assoc.
    repeat split; [|exact H]. cbn [sem]. eauto 10.
  - unfold orelse in H. destruct (run r1 prev s c k) eqn:E.
    + rewrite H in E. apply IH1 in E.
      destruct E as (g & s' & c' & p' & -> & Hs & Hk).
      exists g, s', c', p'. cbn [sem]. auto.
    + apply IH2 in H. destruct H as (g & s' & c' & p' & -> & Hs & Hk).
      exists g, s', c', p'. cbn [sem]. auto.
  - cbn [sem]. eapply loop_sound; [|exact H]. intros; now apply IH.
  - apply IH in H. destruct H as (g & s' & c' & p' & -> & Hs & Hk).
    rewrite length_app, Nat.add_sub, firstn_app, Nat.sub_diag, firstn_all in Hk.
    cbn [firstn] in Hk. rewrite app_nil_r in Hk.
    exists g, s', ((i, g) :: c'), p'. cbn [sem]. eauto.
  - exists [], s, c, prev. cbn [sem app].
    destruct prev as [x|]; [destruct (isLineTerminator x) eqn:E; [|discriminate]|];
      auto 10.
Qed.

Lemma match_at_sound (re : RegExp) (prev : option char) (s rest : jsstring) (c : captures) :
  match_at re prev s = Some (rest, c) ->
  exists g p', s = g ++ rest /\ sem (body re) prev g [] c p'.
Proof.
  unfold match_at. intros H. apply run_sound in H.
  destruct H as (g & s' & c' & p' & -> & Hs & Hk). injection Hk as -> ->.
  eauto.
Qed.

(** A match found by [search]: where it lies and that it is a match. *)
Lemma search_sound (re : RegExp) :
  forall s prev i m,
    search re prev s i = Some m ->
    exists before after,
      s = before ++ whole m ++ after
      /\ index m = i + length before
      /\ is_match re m.
Proof.
  induction s as [|x s IH]; intros prev i m H; cbn [search] in H.
  - destruct (match_at re prev []) as [[rest c]|] eqn:E; [|discriminate].
    injection H as <-. apply match_at_sound in E.
    destruct E as (g & p' & Hs & Hsem).
    symmetry in Hs. apply app_eq_nil in Hs. destruct Hs as [-> ->].
    exists [], []. cbn. repeat split; [lia|]. exists prev, c, p'. cbn. auto.
  - destruct (match_at re prev (x :: s)) as [[rest c]|] eqn:E.
    + injection H as <-. apply match_at_sound in E.
      destruct E as (g & p' & Hs & Hsem).
      assert (Hw : firstn (length (x :: s) - length rest) (x :: s) = g).
      { rewrite Hs, length_app, Nat.add_sub, firstn_app, Nat.sub_diag, firstn_all.
        cbn [firstn]. apply app_nil_r. }
      exists [], rest. unfold mkMatch. cbn [whole index groups].
      rewrite Hw. cbn [app length]. repeat split; [exact Hs|lia|].
      exists prev, c, p'. cbn [whole groups]. auto.
    + apply IH in H. destruct H as (before & after & -> & Hi & Hm).
      exists (x :: before), after. cbn [app length]. repeat split; [lia|exact Hm].
Qed.

Lemma exec_sound (re : RegExp) (t : jsstring) (lastIndex : nat) (m : Match) :
  exec re t lastIndex = Some m ->
  lastIndex <= index m
  /\ match_end m <= length t
  /\ skipn lastIndex t
     = slice t lastIndex (index m) ++ whole m ++ slice_from t (match_end m)
  /\ is_match re m.
Proof.
  unfold exec. destruct (length t <? lastIndex) eqn:E; [discriminate|].
  apply Nat.ltb_ge in E. intros H. apply search_sound in H.
  destruct H as (before & after & Hs & Hi & Hm).
  assert (Hl : length (skipn lastIndex t) = length t - lastIndex) by apply length_skipn.
  rewrite Hs in Hl. rewrite !length_app in Hl.
  assert (Ht : t = firstn lastIndex t ++ before ++ whole m ++ after)
    by (rewrite <- Hs; symmetry; apply firstn_skipn).
  assert (Hf : length (firstn lastIndex t) = lastIndex)
    by (rewrite length_firstn; lia).
  unfold match_end, slice, slice_from.
  repeat split; [lia|lia| |exact Hm].
  rewrite Hs. f_equal; [|f_equal].
  - rewrite Hi, Nat.add_comm, Nat.add_sub, firstn_app, Nat.sub_diag, firstn_all.
    cbn [firstn]. now rewrite app_nil_r.
  - rewrite Ht at 1.
    replace (index m + length (whole m))
      with (length (firstn lastIndex t ++ before ++ whole m) + 0)
      by (rewrite !length_app; lia).
    rewrite !app_assoc, skipn_app, Nat.add_comm.
    rewrite <- !app_assoc.
    rewrite skipn_all2 by (rewrite !length_app; lia).
    replace (0 + _ - _) with 0 by (rewrite !length_app; lia).
    reflexivity.
Qed.

Lemma matches_from_sound (re : RegExp) (t : jsstring) :
  forall fuel lastIndex m,
    In m (matches_from fuel re t lastIndex) ->
    is_match re m /\ exists before after, t = before ++ whole m ++ after.
Proof.
  induction fuel as [|fuel IH]; intros li m H; cbn [matches_from] in H.
  - destruct H.
  - destruct (exec re t li) as [m0|] eqn:E; [|destruct H].
    destruct H as [<-|H]; [|eauto].
    apply exec_sound in E. destruct E as (_ & _ & Hs & Hm). split; [exact Hm|].
    exists (firstn li t ++ slice t li (index m0)), (slice_from t (match_end m0)).
    rewrite <- app_assoc, <- Hs. symmetry. apply firstn_skipn.
Qed.

(** ** The bounds of the matcher are never met *)

Lemma rx_run_ext {R : Type} (r : rx) :
  forall prev s c (k1 k2 : cont R),
    (forall p' s' c', length s' <= length s -> k1 p' s' c' = k2 p' s' c') ->
    run r prev s c k1 = run r prev s c k2.
Proof.
  induction r as [|a|p|r1 IH1 r2 IH2|r1 IH1 r2 IH2|greedy r0 IH|i r0 IH|];
    intros prev s c k1 k2 Hk; cbn [run].
  - now apply Hk.
  - destruct s as [|x s']; [reflexivity|]. destruct (N.eqb x a); [|reflexivity].
    apply Hk. cbn [length]. lia.
  - destruct s as [|x s']; [reflexivity|]. destruct (p x); [|reflexivity].
    apply Hk. cbn [length]. lia.
  - apply IH1. intros p' s' c' Hl. apply IH2. intros p2 s2 c2 Hl2. apply Hk. lia.
  - rewrite (IH1 _ _ _ k1 k2 Hk), (IH2 _ _ _ k1 k2 Hk). reflexivity.
  - generalize (S (length s)) as fuel. intros fuel. revert prev s c Hk.
    induction fuel as [|fuel IHf]; intros prev s c Hk; cbn [loop]; [now apply Hk|].
    rewrite (Hk prev s c (le_n _)).
    rewrite (IH prev s c
               (fun prev' s' c' =>
                  if length s' <? length s then loop greedy (run r0) k1 fuel prev' s' c'
                  else None)
               (fun prev' s' c' =>
                  if length s' <? length s then loop greedy (run r0) k2 fuel prev' s' c'
                  else None)); [reflexivity|].
    intros p' s' c' Hl. destruct (length s' <? length s); [|reflexivity].
    apply IHf. intros p2 s2 c2 Hl2. apply Hk. lia.
  - apply IH. intros p' s' c' Hl. now rewrite Hk.
  - destruct prev as [x|]; [destruct (isLineTerminator x)|]; auto.
Qed.

Lemma loop_S {R : Type} (greedy : bool)
      (once : option char -> jsstring -> captures -> cont R -> option R)
      (k : cont R) (fuel : nat) (prev : option char) (s : jsstring) (c : captures) :
  loop greedy once k (S fuel) prev s c
  = let more :=
      once prev s c (fun prev' s' c' =>
        if length s' <? length s then loop greedy once k fuel prev' s' c'
        else None) in
    if greedy then orelse more (k prev s c) else orelse (k prev s c) more.
Proof. reflexivity. Qed.

(** The rounds of a repetition are bounded by the length of the text: more
    fuel changes nothing. *)
Lemma rx_loop_fuel {R : Type} (greedy : bool) (r0 : rx) (k : cont R) :
  forall fuel prev s c,
    length s < fuel ->
    loop greedy (run r0) k (S fuel) prev s c = loop greedy (run r0) k fuel prev s c.
Proof.
  induction fuel as [|fuel IH]; intros prev s c Hl; [lia|].
  rewrite (loop_S greedy (run r0) k (S fuel)), (loop_S greedy (run r0) k fuel).
  cbv zeta.
  rewrite (rx_run_ext r0 prev s c
             (fun prev' s' c' =>
                if length s' <? length s
                then loop greedy (run r0) k (S fuel) prev' s' c' else None)
             (fun prev' s' c' =>
                if length s' <? length s
                then loop greedy (run r0) k fuel prev' s' c' else None));
    [reflexivity|].
  intros p' s' c' _. destruct (length s' <? length s) eqn:E; [|reflexivity].
  apply Nat.ltb_lt in E. apply IH. lia.
Qed.

Lemma rx_star_fuel {R : Type} (greedy : bool) (r0 : rx) (k : cont R)
      (prev : option char) (s : jsstring) (c : captures) (n : nat) :
  run (Star greedy r0) prev s c k
  = loop greedy (run r0) k (n + S (length s)) prev s c.
Proof.
  induction n as [|n IH]; [reflexivity|].
  cbn [Nat.add]. rewrite rx_loop_fuel by lia. exact IH.
Qed.

(** The matches of a text are fewer than its length plus two: more fuel
    changes nothing. *)
Lemma rx_matches_fuel (re : RegExp) (t : jsstring) :
  forall fuel lastIndex,
    length t + 2 <= fuel + lastIndex ->
    matches_from (S fuel) re t lastIndex = matches_from fuel re t lastIndex.
Proof.
  induction fuel as [|fuel IH]; intros li Hl.
  - cbn [matches_from]. unfold exec.
    assert (E : (length t <? li) = true) by (apply Nat.ltb_lt; lia).
    now rewrite E.
  - cbn [matches_from]. destruct (exec re t li) as [m|] eqn:E; [|reflexivity].
    f_equal. apply exec_sound in E. destruct E as (Hi & _).
    apply (IH (if nonempty (whole m) then match_end m else S (match_end m))).
    unfold match_end. destruct (whole m); cbn [nonempty length]; lia.
Qed.

(** What [replace] does, seen from outside: the text is cut into stretches
    followed by matches, and every match gives way to its substitution. *)
Lemma accumulate_shape (re : RegExp) (tmpl : list item) (t : jsstring) :
  forall fuel lastIndex next acc,
    next <= lastIndex ->
    exists segs rest,
      skipn next t = source_of segs rest
      /\ (let '(next', out) :=
            accumulate t tmpl (matches_from fuel re t lastIndex) next acc in
          if length t <=? next' then out else out ++ slice_from t next')
         = acc ++ result_of tmpl segs rest
      /\ Forall (fun pm => is_match re (snd pm)) segs.
Proof.
  assert (Hend : forall next acc,
    exists segs rest,
      skipn next t = source_of segs rest
      /\ (if length t <=? next then acc else acc ++ slice_from t next)
         = acc ++ result_of tmpl segs rest
      /\ Forall (fun pm => is_match re (snd pm)) segs).
  { intros next acc. exists [], (skipn next t).
    unfold source_of, result_of, slice_from. cbn [flat_map app].
    repeat split; [|constructor].
    destruct (length t <=? next) eqn:E; [|reflexivity].
    apply Nat.leb_le in E. rewrite skipn_all2 by exact E. now rewrite app_nil_r. }
  induction fuel as [|fuel IH]; intros li next acc Hle;
    cbn [matches_from accumulate]; [apply Hend|].
  destruct (exec re t li) as [m|] eqn:E; cbn [accumulate]; [|apply Hend].
  apply exec_sound in E. destruct E as (Hi & He & Hs & Hm).
  assert (Hn : (next <=? index m) = true) by (apply Nat.leb_le; lia).
  rewrite Hn.
  destruct (IH (if nonempty (whole m) then match_end m else S (match_end m))
               (match_end m)
               (acc ++ slice t next (index m) ++ substitution tmpl m))
    as (segs & rest & Hsrc & Hres & Hall).
  { destruct (nonempty (whole m)); lia. }
  exists ((slice t next (index m), m) :: segs), rest.
  repeat split.
  - unfold source_of in *. cbn [flat_map fst snd]. rewrite <- !app_assoc, <- Hsrc.
    unfold slice, slice_from in *.
    assert (Hsplit : skipn next t
                     = firstn (index m - next) (skipn next t)
                       ++ skipn (index m - next) (skipn next t))
      by (symmetry; apply firstn_skipn).
    rewrite Hsplit at 1. f_equal. rewrite skipn_skipn.
    replace (index m - next + next) with (index m) by lia.
    assert (Hk : skipn (index m - li) (skipn li t)
                 = whole m ++ skipn (match_end m) t).
    { rewrite Hs at 1. rewrite skipn_app.
      assert (Hlen : length (firstn (index m - li) (skipn li t)) = index m - li).
      { rewrite length_firstn, length_skipn. unfold match_end in He. lia. }
      rewrite Hlen, Nat.sub_diag, skipn_all2 by lia. reflexivity. }
    rewrite skipn_skipn in Hk.
    replace (index m - li + li) with (index m) in Hk by lia. exact Hk.
  - rewrite Hres. unfold result_of. cbn [flat_map fst snd].
    now rewrite <- !app_assoc.
  - constructor; [exact Hm|exact Hall].
Qed.

Lemma replace_shape (re : RegExp) (tmpl : list item) (t : jsstring) :
  exists segs rest,
    t = source_of segs rest
    /\ replace re tmpl t = result_of tmpl segs rest
    /\ Forall (fun pm => is_match re (snd pm)) segs.
Proof.
  destruct (accumulate_shape re tmpl t (2 + length t) 0 0 [] (le_n 0))
    as (segs & rest & Hs & Hr & Hall).
  exists segs, rest. repeat split; [exact Hs| |exact Hall].
  unfold replace, matches. exact Hr.
Qed.

(** A reading of the text that splits over concatenation and is the same
    for every match and its substitution is the same before and after
    [replace]. *)
Lemma replace_keeps {B : Type} (f : jsstring -> list B)
      (re : RegExp) (tmpl : list item) (t : jsstring) :
  (forall a b, f (a ++ b) = f a ++ f b) ->
  (forall m, is_match re m -> f (substitution tmpl m) = f (whole m)) ->
  f (replace re tmpl t) = f t.
Proof.
  intros Hf Hm. destruct (replace_shape re tmpl t) as (segs & rest & Hs & -> & Hall).
  rewrite Hs. clear Hs. unfold source_of, result_of. rewrite !Hf. f_equal.
  induction Hall as [|[p m] segs H _ IH]; [reflexivity|].
  cbn [flat_map fst snd] in *. rewrite !Hf, IH. do 2 f_equal. now apply Hm.
Qed.

Lemma replace_length (re : RegExp) (tmpl : list item) (t : jsstring) :
  (forall m, is_match re m -> length (substitution tmpl m) <= length (whole m)) ->
  length (replace re tmpl t) <= length t.
Proof.
  intros Hm. destruct (replace_shape re tmpl t) as (segs & rest & Hs & -> & Hall).
  rewrite Hs. clear Hs. unfold source_of, result_of. rewrite !length_app.
  apply Nat.add_le_mono_r.
  induction Hall as [|[p m] segs H _ IH]; [reflexivity|].
  cbn [flat_map fst snd] in *. rewrite !length_app. apply Hm in H. lia.
Qed.

Lemma replace_nothing (re : RegExp) (tmpl : list item) (t : jsstring) (a : char) :
  (forall m, is_match re m -> In a (whole m)) ->
  ~ In a t ->
  replace re tmpl t = t.
Proof.
  intros Hm Hn. destruct (replace_shape re tmpl t) as (segs & rest & Hs & -> & Hall).
  destruct Hall as [|[p m] segs H _]; [now rewrite Hs|].
  exfalso. apply Hn. rewrite Hs. unfold source_of. cbn [flat_map fst snd].
  rewrite !in_app_iff. apply Hm in H. auto.
Qed.

Lemma replace_chars (P : char -> Prop) (re : RegExp) (tmpl : list item) (t : jsstring) :
  (forall m x, is_match re m -> In x (substitution tmpl m) -> In x (whole m) \/ P x) ->
  forall x, In x (replace re tmpl t) -> In x t \/ P x.
Proof.
  intros Hm x. destruct (replace_shape re tmpl t) as (segs & rest & Hs & -> & Hall).
  rewrite Hs. clear Hs. unfold source_of, result_of. rewrite !in_app_iff.
  intros [H|H]; [|auto].
  induction Hall as [|[p m] segs Hp _ IH]; [destruct H|].
  cbn [flat_map fst snd] in *. rewrite !in_app_iff in *.
  destruct H as [[H|H]|H]; [auto| |].
  - destruct (Hm m x Hp H); auto.
  - destruct (IH H) as [[H'|H']|H']; auto.
Qed.

(** ** What the patterns can match *)

Lemma sem_groupless (r : rx) :
  groupless r = true ->
  forall prev g c c' prev', sem r prev g c c' prev' -> c' = c.
Proof.
  induction r as [|a|p|r1 IH1 r2 IH2|r1 IH1 r2 IH2|greedy r0 IH|i r0 IH|];
    cbn [groupless sem]; intros Hg prev g c c' prev' H.
  - tauto.
  - tauto.
  - destruct H as (x & _ & _ & -> & _). reflexivity.
  - apply andb_true_iff in Hg. destruct Hg as [G1 G2].
    destruct H as (g1 & g2 & c1 & p1 & _ & H1 & H2).
    apply IH1 in H1; [|exact G1]. apply IH2 in H2; [|exact G2]. congruence.
  - apply andb_true_iff in Hg. destruct Hg as [G1 G2].
    destruct H as [H|H]; eauto.
  - induction H as [|prev g1 c c1 p1 g2 c2 p2 H1 _ _ IHr]; [reflexivity|].
    apply IH in H1; [|exact Hg]. congruence.
  - discriminate.
  - tauto.
Qed.

Lemma sem_within (P : char -> Prop) (r : rx) :
  within P r ->
  forall prev g c c' prev', sem r prev g c c' prev' -> Forall P g.
Proof.
  induction r as [|a|p|r1 IH1 r2 IH2|r1 IH1 r2 IH2|greedy r0 IH|i r0 IH|];
    cbn [within sem]; intros Hw prev g c c' prev' H.
  - destruct H as (-> & _). constructor.
  - destruct H as (-> & _). repeat constructor. exact Hw.
  - destruct H as (x & Hx & -> & _). repeat constructor. auto.
  - destruct Hw as [W1 W2]. destruct H as (g1 & g2 & c1 & p1 & -> & H1 & H2).
    apply Forall_app. split; eauto.
  - destruct Hw as [W1 W2]. destruct H as [H|H]; eauto.
  - induction H as [|prev g1 c c1 p1 g2 c2 p2 H1 _ _ IHr]; [constructor|].
    apply Forall_app. split; eauto.
  - destruct H as (c1 & H & _). eauto.
  - destruct H as (-> & _). constructor.
Qed.

Lemma sem_starts (a : char) (r : rx) :
  starts a r ->
  forall prev g c c' prev', sem r prev g c c' prev' -> exists g', g = a :: g'.
Proof.
  induction r as [|b|p|r1 IH1 r2 IH2|r1 IH1 r2 IH2|greedy r0 IH|i r0 IH|];
    cbn [starts sem]; intros Hs prev g c c' prev' H; try contradiction.
  - destruct H as (-> & _). subst b. now exists [].
  - destruct H as (g1 & g2 & c1 & p1 & -> & H1 & H2).
    destruct r1; try contradiction;
      try (destruct (IH1 Hs _ _ _ _ _ H1) as (g' & ->); now exists (g' ++ g2)).
    cbn [sem] in H1. destruct H1 as (-> & _). cbn [app]. eauto.
  - destruct H as (c1 & H & _). eauto.
Qed.

End Patterns.

(* ================================================================== *)
(** * The formatting of code and prose                                   *)
(* ================================================================== *)

Section Formatting.
Import RX Format.

Lemma apply_rules_keeps {B : Type} (f : jsstring -> list B)
      (rules : list (RegExp * list item)) :
  (forall a b, f (a ++ b) = f a ++ f b) ->
  Forall (fun rule => forall m, is_match (fst rule) m ->
                                f (substitution (snd rule) m) = f (whole m)) rules ->
  forall t, f (apply_rules rules t) = f t.
Proof.
  intros Hf Hall. unfold apply_rules.
  induction Hall as [|rule rules H _ IH]; intros t; cbn [fold_left]; [reflexivity|].
  rewrite IH. now apply replace_keeps.
Qed.

(** The match of a pattern made of three groups in a row. *)
Lemma three_groups (a b c : rx) (m : Match) :
  is_match {| body := Seq (Grp 1 a) (Seq (Grp 2 b) (Grp 3 c)); ngroups := 3 |} m ->
  groupless a = true -> groupless b = true -> groupless c = true ->
  exists g1 g2 g3,
    whole m = g1 ++ g2 ++ g3
    /\ groups m = [Some g1; Some g2; Some g3]
    /\ (exists p q c0 c1, sem a p g1 c0 c1 q)
    /\ (exists p q c0 c1, sem b p g2 c0 c1 q)
    /\ (exists p q c0 c1, sem c p g3 c0 c1 q).
Proof.
  intros (p0 & cs & p' & H & Hg) Ga Gb Gc. cbn [body ngroups sem] in H, Hg.
  destruct H as (g1 & g23 & c1 & p1 & Hw & (ca & Ha & ->) & H).
  destruct H as (g2 & g3 & c2 & p2 & -> & (cb & Hb & ->) & (cc & Hc & ->)).
  pose proof (sem_groupless a Ga _ _ _ _ _ Ha) as ->.
  pose proof (sem_groupless b Gb _ _ _ _ _ Hb) as ->.
  pose proof (sem_groupless c Gc _ _ _ _ _ Hc) as ->.
  exists g1, g2, g3. repeat split; [exact Hw|exact Hg|eauto 6..].
Qed.

Lemma two_groups (a b : rx) (m : Match) :
  is_match {| body := Seq (Grp 1 a) (Grp 2 b); ngroups := 2 |} m ->
  groupless a = true -> groupless b = true ->
  exists g1 g2,
    whole m = g1 ++ g2
    /\ groups m = [Some g1; Some g2]
    /\ (exists p q c0 c1, sem a p g1 c0 c1 q)
    /\ (exists p q c0 c1, sem b p g2 c0 c1 q).
Proof.
  intros (p0 & cs & p' & H & Hg) Ga Gb. cbn [body ngroups sem] in H, Hg.
  destruct H as (g1 & g2 & c1 & p1 & Hw & (ca & Ha & ->) & (cb & Hb & ->)).
  pose proof (sem_groupless a Ga _ _ _ _ _ Ha) as ->.
  pose proof (sem_groupless b Gb _ _ _ _ _ Hb) as ->.
  exists g1, g2. repeat split; [exact Hw|exact Hg|eauto 6..].
Qed.

(** The match of a pattern with one group between two group-free parts. *)
Lemma group_between (a b c : rx) (m : Match) :
  is_match {| body := Seq a (Seq (Grp 1 b) c); ngroups := 1 |} m ->
  groupless a = true -> groupless b = true -> groupless c = true ->
  exists g1 g2 g3,
    whole m = g1 ++ g2 ++ g3
    /\ groups m = [Some g2]
    /\ (exists p q c0 c1, sem a p g1 c0 c1 q).
Proof.
  intros (p0 & cs & p' & H & Hg) Ga Gb Gc. cbn [body ngroups sem] in H, Hg.
  destruct H as (g1 & g23 & c1 & p1 & Hw & Ha & H).
  destruct H as (g2 & g3 & c2 & p2 & -> & (cb & Hb & ->) & Hc).
  pose proof (sem_groupless a Ga _ _ _ _ _ Ha) as ->.
  pose proof (sem_groupless b Gb _ _ _ _ _ Hb) as ->.
  pose proof (sem_groupless c Gc _ _ _ _ _ Hc) as ->.
  exists g1, g2, g3. repeat split; [exact Hw|exact Hg|eauto 6].
Qed.

Lemma filter_spaces (g : jsstring) :
  Forall (fun x => isWhiteSpace x = true) g -> filter not_space g = [].
Proof.
  induction 1 as [|x g Hx _ IH]; [reflexivity|].
  cbn [filter]. unfold not_space at 1. now rewrite Hx.
Qed.

Lemma sem_spaces (n : nat) (p q : option char) (g : jsstring) (c0 c1 : captures) :
  sem (at_least n space) p g c0 c1 q -> filter not_space g = [].
Proof.
  intros H. apply filter_spaces.
  apply (sem_within (fun x => isWhiteSpace x = true)) in H; [exact H|].
  clear. induction n; cbn; auto.
Qed.

Lemma break_after_shape (a : char) (m : Match) :
  is_match (fst (break_after a)) m ->
  exists g1 g2 g3,
    whole m = g1 ++ g2 ++ g3
    /\ substitution (snd (break_after a)) m = g1 ++ [nl] ++ g2 ++ g3.
Proof.
  intros H. apply three_groups in H; try reflexivity.
  destruct H as (g1 & g2 & g3 & Hw & Hg & _).
  exists g1, g2, g3. split; [exact Hw|].
  unfold break_after, substitution, group. cbn [snd flat_map]. rewrite Hg.
  cbn [nth_error]. now rewrite app_nil_r.
Qed.

Lemma formatCodeContent_spaces (code language : jsstring) :
  filter not_space (formatCodeContent code language) = filter not_space code.
Proof.
  assert (Hgen : forall t, filter not_space (apply_rules general_rules t)
                           = filter not_space t).
  { apply apply_rules_keeps; [apply filter_app|].
    repeat constructor; intros m H; apply break_after_shape in H;
      destruct H as (g1 & g2 & g3 & -> & ->); now rewrite !filter_app. }
  unfold formatCodeContent.
  destruct (includes code [nl]); [reflexivity|].
  destruct (eqb language (str "python") || eqb language (str "py")); [|apply Hgen].
  rewrite Hgen. apply apply_rules_keeps; [apply filter_app|].
  repeat constructor; cbn [fst snd]; intros m H.
  - apply three_groups in H; try reflexivity.
    destruct H as (g1 & g2 & g3 & -> & Hg & (p & q & c0 & c1 & H1) & _).
    cbn [sem] in H1. destruct H1 as (-> & _).
    unfold substitution, group. cbn [flat_map]. rewrite Hg. cbn [nth_error].
    rewrite app_nil_r. rewrite !filter_app. reflexivity.
  - apply two_groups in H; try reflexivity.
    destruct H as (g1 & g2 & -> & Hg & (p & q & c0 & c1 & H1) & _).
    cbn [sem] in H1. destruct H1 as (ga & gb & c2 & p2 & -> & (-> & _) & H1).
    apply (sem_spaces 2) in H1.
    unfold substitution, group. cbn [flat_map]. rewrite Hg. cbn [nth_error].
    rewrite app_nil_r. rewrite !filter_app, H1. reflexivity.
  - apply three_groups in H; try reflexivity.
    destruct H as (g1 & g2 & g3 & -> & Hg & _ & (p & q & c0 & c1 & H2) & _).
    apply (sem_spaces 4) in H2.
    unfold substitution, group. cbn [flat_map]. rewrite Hg. cbn [nth_error].
    rewrite app_nil_r. rewrite !filter_app, H2. reflexivity.
Qed.

(** X18.  [formatCodeContent] changes white space only: with the white
    space taken out, the code it returns is the code it was given,
    whatever the language. *)
Theorem formatCodeContent_keeps_code (code language : jsstring) :
  filter not_space (formatCodeContent code language) = filter not_space code.
Proof.
  exact (formatCodeContent_spaces code language).
Qed.

(** X19.  For a language other than Python, [formatCodeContent] only puts
    line feeds in: with the line feeds taken out, the code it returns is
    the code it was given. *)
Theorem formatCodeContent_adds_line_feeds (code language : jsstring) :
  is_python language = false ->
  filter not_nl (formatCodeContent code language) = filter not_nl code.
Proof.
  intros Hl. unfold formatCodeContent. unfold is_python in Hl. rewrite Hl.
  destruct (includes code [nl]); [reflexivity|].
  apply apply_rules_keeps; [apply filter_app|].
  repeat constructor; intros m H; apply break_after_shape in H;
    destruct H as (g1 & g2 & g3 & -> & ->); now rewrite !filter_app.
Qed.

Lemma formatCodeContent_adds_line_feeds_witness :
  is_python (str "js") = false
  /\ filter not_nl (formatCodeContent (str "a;b{c}") (str "js"))
     = filter not_nl (str "a;b{c}").
Proof.
  split; [reflexivity|].
  apply (formatCodeContent_adds_line_feeds (str "a;b{c}") (str "js")). reflexivity.
Defined.

(** ** [stripMarkdown] *)

Lemma apply_rules_nothing (rules : list (RegExp * list item)) (t : jsstring) :
  Forall (fun rule => exists a, ~ In a t
                                /\ forall m, is_match (fst rule) m -> In a (whole m))
         rules ->
  apply_rules rules t = t.
Proof.
  unfold apply_rules. induction 1 as [|rule rules (a & Ha & H) _ IH];
    cbn [fold_left]; [reflexivity|].
  rewrite (replace_nothing _ _ _ a H Ha). exact IH.
Qed.

Lemma match_starts (a : char) (re : RegExp) (m : Match) :
  starts a (body re) -> is_match re m -> In a (whole m).
Proof.
  intros Hs (p0 & c & p' & H & _).
  destruct (sem_starts a _ Hs _ _ _ _ _ H) as (g' & ->). now left.
Qed.

Lemma plain_text_spec (t : jsstring) (a : char) :
  plain_text t = true -> is_markdown_char a = true -> ~ In a t.
Proof.
  unfold plain_text. intros Hp Ha Hin.
  rewrite forallb_forall in Hp. apply Hp in Hin. now rewrite Ha in Hin.
Qed.

Lemma stripMarkdown_id (t : jsstring) :
  plain_text t = true -> stripMarkdown t = t.
Proof.
  intros Hp. unfold stripMarkdown. apply apply_rules_nothing.
  unfold markdown_rules.
  repeat match goal with
         | |- Forall _ [] => constructor
         | |- Forall _ (_ :: _) => constructor
         end; cbn [fst].
  1-2: exists 42%N. 3-4: exists 95%N. 5: exists 35%N. 6-7: exists 91%N.
  8: exists 62%N. 9: exists 42%N. 10: exists 45%N. 11: exists 43%N.
  all: split; [apply plain_text_spec; [exact Hp|reflexivity]|].
  all: try (intros m; apply match_starts; cbn; reflexivity).
  intros m (p0 & c & p' & H & _). cbn [body sem lits str map String.list_ascii_of_string] in H.
  destruct H as (g1 & g2 & c1 & p1 & -> & H & _).
  cbn in H. destruct H as (ga & gb & ca & pa & -> & (-> & _) & H).
  destruct H as (gc & gd & cb & pb & -> & (-> & _) & _).
  cbn. auto.
Qed.

(** X20.  A text with none of the characters [* _ # [ > - +] goes through
    [stripMarkdown] unchanged. *)
Theorem stripMarkdown_plain (t : jsstring) :
  plain_text t = true -> stripMarkdown t = t.
Proof.
  exact (stripMarkdown_id t).
Qed.

Lemma stripMarkdown_plain_witness :
  plain_text (str "Nothing to strip here.") = true
  /\ stripMarkdown (str "Nothing to strip here.") = str "Nothing to strip here.".
Proof.
  split; [reflexivity|]. apply stripMarkdown_plain. reflexivity.
Defined.

Lemma apply_rules_length (rules : list (RegExp * list item)) :
  Forall (fun rule => forall m, is_match (fst rule) m ->
            length (substitution (snd rule) m) <= length (whole m)) rules ->
  forall t, length (apply_rules rules t) <= length t.
Proof.
  unfold apply_rules. induction 1 as [|rule rules H _ IH]; intros t;
    cbn [fold_left]; [reflexivity|].
  etransitivity; [apply IH|]. now apply replace_length.
Qed.

Lemma sem_lits_length (l : jsstring) :
  forall p g c c' q, sem (lits l) p g c c' q -> length g = length l.
Proof.
  induction l as [|x l IH]; intros p g c c' q H; cbn [lits sem] in H.
  - now destruct H as (-> & _).
  - destruct H as (g1 & g2 & c1 & p1 & -> & (-> & _) & H).
    apply IH in H. cbn [app length]. now rewrite H.
Qed.

Lemma stripMarkdown_shorter (t : jsstring) :
  length (stripMarkdown t) <= length t.
Proof.
  unfold stripMarkdown. apply apply_rules_length. unfold markdown_rules.
  repeat match goal with
         | |- Forall _ [] => constructor
         | |- Forall _ (_ :: _) => constructor
         end; cbn [fst snd]; intros m H.
  1-4, 6: apply group_between in H; try reflexivity;
    destruct H as (g1 & g2 & g3 & -> & Hg & _);
    unfold substitution, group; cbn [flat_map]; rewrite Hg; cbn [nth_error];
    rewrite app_nil_r, !length_app; lia.
  1-3: cbn; lia.
  all: destruct H as (p0 & c & p' & H & _); cbn [body sem] in H;
    destruct H as (g1 & g2 & c1 & p1 & -> & (-> & _) & H);
    apply sem_lits_length in H; cbn [app]; rewrite H; cbn; lia.
Qed.

Lemma apply_rules_chars (P : char -> Prop) (rules : list (RegExp * list item)) :
  Forall (fun rule => forall m x, is_match (fst rule) m ->
            In x (substitution (snd rule) m) -> In x (whole m) \/ P x) rules ->
  forall t x, In x (apply_rules rules t) -> In x t \/ P x.
Proof.
  unfold apply_rules. induction 1 as [|rule rules H _ IH]; intros t x;
    cbn [fold_left]; [auto|].
  intros Hx. apply IH in Hx. destruct Hx as [Hx|Hx]; [|auto].
  eapply replace_chars; eauto.
Qed.

Lemma stripMarkdown_chars (t : jsstring) (x : char) :
  In x (stripMarkdown t) -> In x t \/ x = 8226%N.
Proof.
  unfold stripMarkdown.
  apply (apply_rules_chars (fun y => y = 8226%N)). unfold markdown_rules.
  repeat match goal with
         | |- Forall _ [] => constructor
         | |- Forall _ (_ :: _) => constructor
         end; cbn [fst snd]; intros m y H.
  1-4, 6: apply group_between in H; try reflexivity;
    destruct H as (g1 & g2 & g3 & -> & Hg & _);
    unfold substitution, group; cbn [flat_map]; rewrite Hg; cbn [nth_error];
    rewrite app_nil_r, !in_app_iff; auto.
  1-3: cbn; tauto.
  all: destruct H as (p0 & c & p' & H & _); cbn in H;
    destruct H as (g1 & g2 & c1 & p1 & -> & (-> & _) & H);
    destruct H as (g3 & g4 & c2 & p2 & -> & (-> & _) & H);
    destruct H as (g5 & g6 & c3 & p3 & -> & (-> & _) & _);
    cbn; intros [<-|[<-|[]]]; auto.
Qed.

(** X21.  [stripMarkdown] never makes a text longer, and puts no character
    in that was not there, the bullet apart. *)
Theorem stripMarkdown_only_removes (t : jsstring) :
  length (stripMarkdown t) <= length t
  /\ forall x, In x (stripMarkdown t) -> In x t \/ x = 8226%N.
Proof.
  split; [apply stripMarkdown_shorter|apply stripMarkdown_chars].
Qed.

(** ** [formatTextPart] *)

Lemma trimStart_some (s : jsstring) :
  nonempty (trimStart s) = existsb not_space s.
Proof.
  induction s as [|x s IH]; [reflexivity|]. cbn [trimStart existsb].
  unfold not_space at 1. destruct (isWhiteSpace x); [exact IH|reflexivity].
Qed.

Lemma trimStart_keeps (s : jsstring) :
  existsb not_space (trimStart s) = existsb not_space s.
Proof.
  induction s as [|x s IH]; [reflexivity|]. cbn [trimStart].
  destruct (isWhiteSpace x) eqn:E; [|reflexivity].
  cbn [existsb]. unfold not_space at 2. now rewrite E.
Qed.

Lemma existsb_rev {A : Type} (p : A -> bool) (l : list A) :
  existsb p (rev l) = existsb p l.
Proof.
  induction l as [|x l IH]; [reflexivity|].
  cbn [rev existsb]. rewrite existsb_app, IH. cbn [existsb].
  rewrite orb_false_r. apply orb_comm.
Qed.

Lemma nonempty_rev (s : jsstring) : nonempty (rev s) = nonempty s.
Proof.
  destruct s as [|x s]; [reflexivity|]. cbn [rev].
  destruct (rev s); reflexivity.
Qed.

(** A text is not blank when one of its characters is not white space. *)
Lemma nonblank_some (s : jsstring) : nonblank s = existsb not_space s.
Proof.
  unfold nonblank, trim, trimEnd.
  now rewrite nonempty_rev, trimStart_some, existsb_rev, trimStart_keeps.
Qed.

Lemma nonblank_app (a b : jsstring) : nonblank (a ++ b) = nonblank a || nonblank b.
Proof. rewrite !nonblank_some. apply existsb_app. Qed.

Lemma nonblank_trim (s : jsstring) : nonblank (trim s) = nonblank s.
Proof. unfold nonblank. now rewrite trim_idem. Qed.

Lemma trimStart_in (s : jsstring) (x : char) : In x (trimStart s) -> In x s.
Proof.
  destruct (trimStart_suffix s) as (ws & E & _). intros H. rewrite E.
  apply in_or_app. now right.
Qed.

Lemma trim_in (s : jsstring) (x : char) : In x (trim s) -> In x s.
Proof.
  unfold trim, trimEnd. intros H. apply trimStart_in.
  apply in_rev in H. apply trimStart_in in H. now apply in_rev in H.
Qed.

Lemma trimmed_ok (l : list jsstring) :
  Forall paragraph_ok (map trim (filter nonblank l)).
Proof.
  induction l as [|p l IH]; cbn [filter map]; [constructor|].
  destruct (nonblank p) eqn:E; [|exact IH].
  cbn [map]. constructor; [|exact IH]. split; [exact E|apply trim_idem].
Qed.

Lemma chunk_ok (l : list jsstring) (rest : list jsstring) :
  Forall paragraph_ok rest ->
  Forall paragraph_ok
    ((if nonempty (trim (join_space l)) then [trim (join_space l)] else []) ++ rest).
Proof.
  intros Hr. destruct (nonempty (trim (join_space l))) eqn:E; [|exact Hr].
  constructor; [|exact Hr]. split; [exact E|apply trim_idem].
Qed.

Lemma group_sentences_ok (n : nat) :
  forall l, length l <= n -> Forall paragraph_ok (group_sentences l).
Proof.
  induction n as [|n IH]; intros l Hl.
  - destruct l; [constructor|cbn in Hl; lia].
  - destruct l as [|a [|b [|c rest]]]; cbn [group_sentences].
    + constructor.
    + pose proof (chunk_ok [a] [] (Forall_nil _)) as H.
      rewrite app_nil_r in H. exact H.
    + pose proof (chunk_ok [a; b] [] (Forall_nil _)) as H.
      rewrite app_nil_r in H. exact H.
    + apply chunk_ok. apply IH. cbn [length] in Hl. lia.
Qed.

(** X22.  Every paragraph [formatTextPart] renders is non-empty and has no
    white space around it. *)
Theorem formatTextPart_paragraphs (t : jsstring) (ps : list jsstring) :
  formatTextPart t = Some ps -> Forall paragraph_ok ps.
Proof.
  unfold formatTextPart. generalize (stripMarkdown t) as cleaned. intros cleaned.
  destruct (includes cleaned [nl; nl]).
  { intros H. injection H as <-. apply trimmed_ok. }
  destruct (1 <? length (filter nonblank (split_nl cleaned))).
  { intros H. injection H as <-. apply trimmed_ok. }
  destruct (nonempty (trim cleaned)); [|discriminate].
  intros H. injection H as <-.
  generalize (match match_g sentence (trim cleaned) with
              | Some ss => ss
              | None => [trim cleaned]
              end) as sentences.
  intros sentences. exact (group_sentences_ok (length sentences) sentences (le_n _)).
Qed.

Lemma formatTextPart_paragraphs_witness :
  Forall paragraph_ok [str "One.  Two!  Three?"; str "Four."].
Proof.
  apply (formatTextPart_paragraphs (str "  One. Two! **Three**? Four. Five ")).
  vm_compute. reflexivity.
Defined.

Lemma split_blank_cons (s : jsstring) : exists l ls, split_blank s = l :: ls.
Proof.
  destruct s as [|c s]; cbn [split_blank]; [eauto|].
  destruct s as [|d s]; [destruct (split_blank []); eauto|].
  destruct (N.eqb c nl && N.eqb d nl); [eauto|].
  destruct (split_blank (d :: s)); eauto.
Qed.

Lemma split_blank_some (p : char -> bool) (n : nat) :
  p nl = false ->
  forall s, length s <= n ->
            existsb (existsb p) (split_blank s) = existsb p s.
Proof.
  intros Hp. induction n as [|n IH]; intros s Hl.
  - destruct s; [reflexivity|cbn in Hl; lia].
  - destruct s as [|c s]; [reflexivity|]. cbn [length] in Hl.
    assert (Hkeep :
      existsb (existsb p)
        (match split_blank s with
         | l :: ls => (c :: l) :: ls
         | [] => [[c]]
         end) = existsb p (c :: s)).
    { change (existsb p (c :: s)) with (p c || existsb p s).
      rewrite <- (IH s) by lia. destruct (split_blank_cons s) as (l & ls & ->).
      cbn [existsb]. now rewrite orb_assoc. }
    cbn [split_blank]. destruct s as [|d s]; [exact Hkeep|].
    destruct (N.eqb c nl && N.eqb d nl) eqn:E; [|exact Hkeep].
    apply andb_true_iff in E. destruct E as [Ec Ed].
    apply N.eqb_eq in Ec, Ed. subst c d.
    cbn [existsb length] in *. rewrite Hp. cbn [orb]. apply IH. lia.
Qed.

Lemma split_nl_some (p : char -> bool) :
  p nl = false ->
  forall s, existsb (existsb p) (split_nl s) = existsb p s.
Proof.
  intros Hp. induction s as [|c s IH]; [reflexivity|].
  cbn [split_nl]. destruct (N.eqb c nl) eqn:E.
  - apply N.eqb_eq in E. subst c. cbn [existsb]. now rewrite Hp, IH.
  - change (existsb p (c :: s)) with (p c || existsb p s).
    rewrite <- IH. destruct (split_nl_cons s) as (l & ls & ->).
    cbn [existsb]. now rewrite orb_assoc.
Qed.

Lemma filter_some (l : list jsstring) :
  nonempty_list (filter nonblank l) = existsb (existsb not_space) l.
Proof.
  induction l as [|x l IH]; [reflexivity|]. cbn [filter existsb].
  rewrite <- nonblank_some. destruct (nonblank x); [reflexivity|exact IH].
Qed.

Lemma group_sentences_first (x : jsstring) (rest : list jsstring) :
  nonblank x = true -> nonempty_list (group_sentences (x :: rest)) = true.
Proof.
  intros Hx.
  assert (Hj : forall more, nonempty (trim (join_space (x :: more))) = true).
  { intros more. change (nonblank (join_space (x :: more)) = true).
    destruct more as [|y more]; cbn [join_space]; [exact Hx|].
    now rewrite nonblank_app, Hx. }
  destruct rest as [|b [|c rest]]; cbn [group_sentences].
  - now rewrite (Hj []).
  - now rewrite (Hj [b]).
  - now rewrite (Hj [b; c]).
Qed.

Lemma sentence_not_blank (m : Match) : is_match sentence m -> nonblank (whole m) = true.
Proof.
  intros (p0 & c & p' & H & _). cbn [body sentence sem plus] in H.
  destruct H as (g1 & g2 & c1 & p1 & -> & _ & H).
  destruct H as (g3 & g4 & c2 & p2 & -> & (x & Hx & -> & _) & _).
  rewrite !nonblank_app. replace (nonblank [x]) with true; [now rewrite !orb_true_r|].
  rewrite nonblank_some. cbn [existsb]. unfold not_space, isSentenceEnd in *.
  apply orb_true_iff in Hx. destruct Hx as [Hx|Hx];
    [apply orb_true_iff in Hx; destruct Hx as [Hx|Hx]|];
    apply N.eqb_eq in Hx; subst x; reflexivity.
Qed.

(** X23.  [formatTextPart] renders at least one paragraph exactly when the
    stripped text is not blank. *)
Theorem formatTextPart_renders (t : jsstring) :
  has_paragraph (formatTextPart t) = nonblank (stripMarkdown t).
Proof.
  assert (Hnl : not_space nl = false) by reflexivity.
  assert (Hmap : forall l, has_paragraph (Some (map trim (filter nonblank l)))
                           = existsb (existsb not_space) l).
  { intros l. rewrite <- filter_some. now destruct (filter nonblank l). }
  unfold formatTextPart. generalize (stripMarkdown t) as cleaned. intros cleaned.
  destruct (includes cleaned [nl; nl]).
  { rewrite Hmap, nonblank_some. eapply split_blank_some; [exact Hnl|reflexivity]. }
  destruct (1 <? length (filter nonblank (split_nl cleaned))) eqn:E.
  { rewrite Hmap, nonblank_some. now apply split_nl_some. }
  fold (nonblank cleaned). destruct (nonblank cleaned) eqn:Hc; [|reflexivity].
  unfold match_g, matches.
  destruct (matches_from (2 + length (trim cleaned)) sentence (trim cleaned) 0)
    as [|m ms] eqn:Em.
  - change (nonempty_list (group_sentences [trim cleaned]) = true).
    apply group_sentences_first. now rewrite nonblank_trim.
  - change (nonempty_list (group_sentences (whole m :: map whole ms)) = true).
    apply group_sentences_first. apply sentence_not_blank.
    eapply (matches_from_sound sentence (trim cleaned)).
    rewrite Em. now left.
Qed.

Lemma includes_in (t sub : jsstring) (a : char) :
  includes t (a :: sub) = true -> In a t.
Proof.
  induction t as [|y t IH]; cbn [includes]; unfold startsWith; cbn [strip_prefix].
  - discriminate.
  - destruct (N.eqb a y) eqn:E.
    + apply N.eqb_eq in E. subst y. now left.
    + cbn [orb]. right. auto.
Qed.

Lemma single_line_spec (t : jsstring) : single_line t = true -> ~ In nl t.
Proof.
  unfold single_line. rewrite forallb_forall. intros H Hin.
  apply H in Hin. unfold nl in Hin. now rewrite N.eqb_refl in Hin.
Qed.

Lemma forallb_trim (p : char -> bool) (t : jsstring) :
  forallb p t = true -> forallb p (trim t) = true.
Proof.
  rewrite !forallb_forall. intros H x Hx. apply H. now apply trim_in.
Qed.

Lemma sentence_end (m : Match) :
  is_match sentence m -> exists x, In x (whole m) /\ isSentenceEnd x = true.
Proof.
  intros (p0 & c & p' & H & _). cbn [body sentence sem plus] in H.
  destruct H as (g1 & g2 & c1 & p1 & -> & _ & H).
  destruct H as (g3 & g4 & c2 & p2 & -> & (x & Hx & -> & _) & _).
  exists x. split; [|exact Hx]. rewrite !in_app_iff. cbn [In]. auto.
Qed.

Lemma no_sentence (t : jsstring) :
  unpunctuated t = true -> match_g sentence t = None.
Proof.
  intros Hu. unfold match_g, matches.
  destruct (matches_from (2 + length t) sentence t 0) as [|m ms] eqn:E; [reflexivity|].
  exfalso.
  destruct (matches_from_sound sentence t (2 + length t) 0 m) as (Hm & a & b & Ht).
  { rewrite E. now left. }
  destruct (sentence_end m Hm) as (x & Hx & He).
  unfold unpunctuated in Hu. rewrite forallb_forall in Hu.
  assert (Hin : In x t) by (rewrite Ht, !in_app_iff; auto).
  apply Hu in Hin. now rewrite He in Hin.
Qed.

Lemma formatTextPart_line (t : jsstring) :
  plain_text t = true -> single_line t = true -> unpunctuated t = true ->
  nonblank t = true ->
  formatTextPart t = Some [trim t].
Proof.
  intros Hp Hs Hu Hn. unfold formatTextPart. rewrite (stripMarkdown_id t Hp).
  destruct (includes t [nl; nl]) eqn:Ei.
  { apply includes_in in Ei. now apply single_line_spec in Ei. }
  rewrite (split_nl_single t Hs). cbn [filter]. rewrite Hn. cbn [length Nat.ltb Nat.leb].
  fold (nonblank t). rewrite Hn.
  rewrite (no_sentence (trim t)) by (now apply forallb_trim).
  cbn [group_sentences join_space]. rewrite trim_idem. fold (nonblank t).
  now rewrite Hn.
Qed.

(** X24.  A non-blank line of plain words (no line feed, none of
    [* _ # [ > - +], no sentence end) is rendered as one paragraph, the
    line trimmed. *)
Theorem formatTextPart_plain_line (t : jsstring) :
  plain_text t = true -> single_line t = true -> unpunctuated t = true ->
  nonblank t = true ->
  formatTextPart t = Some [trim t].
Proof.
  exact (formatTextPart_line t).
Qed.

Lemma formatTextPart_plain_line_witness :
  formatTextPart (str "  just a few words ") = Some [str "just a few words"].
Proof.
  apply (formatTextPart_plain_line (str "  just a few words ")); reflexivity.
Defined.

Lemma ends_sentence_app (u p : jsstring) :
  ends_sentence p = true -> ends_sentence (u ++ p) = true.
Proof.
  unfold ends_sentence. rewrite rev_app_distr.
  destruct (rev p) as [|x r]; [discriminate|]. now cbn [app].
Qed.

Lemma sentence_end_not_space (x : char) :
  isSentenceEnd x = true -> isWhiteSpace x = false.
Proof.
  unfold isSentenceEnd. intros H.
  apply orb_true_iff in H. destruct H as [H|H];
    [apply orb_true_iff in H; destruct H as [H|H]|];
    apply N.eqb_eq in H; subst x; reflexivity.
Qed.

Lemma trimStart_last (s : jsstring) (x : char) :
  isWhiteSpace x = false -> exists u, trimStart (s ++ [x]) = u ++ [x].
Proof.
  intros Hx. induction s as [|y s (u & IH)]; cbn [app trimStart].
  - rewrite Hx. now exists [].
  - destruct (isWhiteSpace y); [eauto|]. now exists (y :: s).
Qed.

Lemma ends_sentence_trim (p : jsstring) :
  ends_sentence p = true -> ends_sentence (trim p) = true.
Proof.
  unfold ends_sentence, trim, trimEnd. rewrite rev_involutive.
  destruct (rev p) as [|x r] eqn:E; [discriminate|]. intros Hx.
  pose proof (sentence_end_not_space x Hx) as Hw.
  apply (f_equal (@rev char)) in E. rewrite rev_involutive in E. cbn [rev] in E.
  subst p. destruct (trimStart_last (rev r) x Hw) as (u & ->).
  rewrite rev_app_distr. cbn [rev app trimStart]. now rewrite Hw.
Qed.

Lemma sentence_ends (m : Match) :
  is_match sentence m -> ends_sentence (whole m) = true.
Proof.
  intros (p0 & c & p' & H & _). cbn [body sentence sem plus] in H.
  destruct H as (g1 & g2 & c1 & p1 & -> & _ & H).
  destruct H as (g3 & g4 & c2 & p2 & -> & (x & Hx & -> & _) & H).
  apply ends_sentence_app.
  apply (sem_within (fun y => isSentenceEnd y = true)
                    (Star true (Cls isSentenceEnd))) in H; [|cbn; auto].
  destruct (rev g4) as [|y r] eqn:E.
  - apply (f_equal (@rev char)) in E. rewrite rev_involutive in E. subst g4.
    unfold ends_sentence. cbn. exact Hx.
  - apply ends_sentence_app. unfold ends_sentence. rewrite E.
    rewrite Forall_forall in H. apply H. apply in_rev. rewrite E. now left.
Qed.

Lemma chunk_ends (l : list jsstring) (last_one : jsstring) (rest : list jsstring) :
  ends_sentence last_one = true ->
  Forall (fun p => ends_sentence p = true) rest ->
  (exists u, join_space l = u ++ last_one) ->
  Forall (fun p => ends_sentence p = true)
    ((if nonempty (trim (join_space l)) then [trim (join_space l)] else []) ++ rest).
Proof.
  intros He Hr (u & ->). destruct (nonempty (trim (u ++ last_one))); [|exact Hr].
  constructor; [|exact Hr]. now apply ends_sentence_trim, ends_sentence_app.
Qed.

Lemma group_sentences_end (n : nat) :
  forall l, length l <= n ->
            Forall (fun s => ends_sentence s = true) l ->
            Forall (fun p => ends_sentence p = true) (group_sentences l).
Proof.
  induction n as [|n IH]; intros l Hl Hall.
  - destruct l; [constructor|cbn in Hl; lia].
  - destruct l as [|a [|b [|c rest]]]; cbn [group_sentences].
    + constructor.
    + inversion Hall as [|? ? Ha _]; subst.
      pose proof (chunk_ends [a] a [] Ha (Forall_nil _)) as H.
      rewrite app_nil_r in H. apply H. now exists [].
    + inversion Hall as [|? ? Ha Hall1]; subst. inversion Hall1 as [|? ? Hb _]; subst.
      pose proof (chunk_ends [a; b] b [] Hb (Forall_nil _)) as H.
      rewrite app_nil_r in H. apply H. exists (a ++ [32%N]). cbn [join_space].
      now rewrite <- app_assoc.
    + inversion Hall as [|? ? Ha Hall1]; subst. inversion Hall1 as [|? ? Hb Hall2]; subst.
      inversion Hall2 as [|? ? Hc Hall3]; subst.
      apply (chunk_ends [a; b; c] c); [exact Hc| |].
      * apply IH; [cbn [length] in Hl; lia|exact Hall3].
      * exists (a ++ 32%N :: b ++ [32%N]). cbn [join_space].
        rewrite <- app_assoc. cbn [app]. now rewrite <- app_assoc.
Qed.

Lemma single_line_stripMarkdown (t : jsstring) :
  single_line t = true -> single_line (stripMarkdown t) = true.
Proof.
  unfold single_line. rewrite !forallb_forall. intros H x Hx.
  apply stripMarkdown_chars in Hx. destruct Hx as [Hx| ->]; [auto|reflexivity].
Qed.

(** X27.  On a text of one line, [formatTextPart] renders either the
    whole stripped line as one paragraph, or paragraphs that each end with
    a sentence end: what follows the last sentence end is left out. *)
Theorem formatTextPart_sentences (t : jsstring) (ps : list jsstring) :
  single_line t = true ->
  formatTextPart t = Some ps ->
  ps = [trim (stripMarkdown t)]
  \/ Forall (fun p => ends_sentence p = true) ps.
Proof.
  intros Hs. apply single_line_stripMarkdown in Hs. revert Hs.
  unfold formatTextPart. generalize (stripMarkdown t) as cleaned. intros cleaned Hs.
  destruct (includes cleaned [nl; nl]) eqn:Ei.
  { apply includes_in in Ei. now apply single_line_spec in Ei. }
  rewrite (split_nl_single cleaned Hs). cbn [filter].
  replace (1 <? length (if nonblank cleaned then [cleaned] else [])) with false
    by (now destruct (nonblank cleaned)).
  destruct (nonempty (trim cleaned)) eqn:En; [|discriminate].
  intros H. injection H as <-. unfold match_g, matches.
  destruct (matches_from (2 + length (trim cleaned)) sentence (trim cleaned) 0)
    as [|m ms] eqn:Em.
  - left. cbn [group_sentences join_space]. now rewrite trim_idem, En.
  - right.
    change (Forall (fun p => ends_sentence p = true)
                   (group_sentences (map whole (m :: ms)))).
    eapply group_sentences_end; [reflexivity|].
    apply Forall_forall. intros s Hin.
    apply in_map_iff in Hin. destruct Hin as (m' & <- & Hin).
    apply sentence_ends.
    apply (matches_from_sound sentence (trim cleaned) (2 + length (trim cleaned)) 0).
    now rewrite Em.
Qed.

Lemma formatTextPart_sentences_witness :
  [str "Done."] = [trim (stripMarkdown (str "Done. Thanks"))]
  \/ Forall (fun p => ends_sentence p = true) [str "Done."].
Proof.
  apply (formatTextPart_sentences (str "Done. Thanks")); [reflexivity|].
  vm_compute. reflexivity.
Defined.

(** ** [formatContent] *)

(** X25.  A non-blank line of plain words with no code fence is rendered
    as one block holding one paragraph: the runs of the trimmed line. *)
Theorem formatContent_plain_line (t : jsstring) :
  has_fence t = false ->
  plain_text t = true -> single_line t = true -> unpunctuated t = true ->
  nonblank t = true ->
  formatContent t = [div (Some [processInlineCode (trim t)])].
Proof.
  intros Hf Hp Hs Hu Hn. unfold formatContent.
  assert (Hparts : parseContent t = [text t]).
  { unfold parseContent, patterns. cbn [try_patterns].
    rewrite !matchAll_no_fence; cbn [patterns In]; auto.
    fold (nonblank t). now rewrite Hn. }
  rewrite Hparts. cbn [map]. now rewrite (formatTextPart_line t Hp Hs Hu Hn).
Qed.

Lemma formatContent_plain_line_witness :
  formatContent (str " use `npm test` to check ")
  = [div (Some [[plain (str "use "); inline_code (str "npm test");
                 plain (str " to check")]])].
Proof.
  apply (formatContent_plain_line (str " use `npm test` to check ")); reflexivity.
Defined.

(** X26.  Every code block [formatContent] renders is a code part of
    [parseContent] with the same language and, white space apart, the
    same code. *)
Theorem formatContent_code_blocks (t c' l : jsstring) :
  In (pre c' l) (formatContent t) ->
  exists c, In (code c l) (parseContent t)
            /\ filter not_space c' = filter not_space c.
Proof.
  unfold formatContent. intros H. apply in_map_iff in H.
  destruct H as ([c0|c l0] & E & Hin); [discriminate|].
  injection E as <- <-. exists c. split; [exact Hin|].
  apply formatCodeContent_spaces.
Qed.

Lemma formatContent_code_blocks_witness :
  exists c, In (code c (str "js"))
               (parseContent (str "Run: ```js" ++ nl :: str "a;b```"))
            /\ filter not_space (str "a;" ++ nl :: str "b") = filter not_space c.
Proof.
  apply (formatContent_code_blocks (str "Run: ```js" ++ nl :: str "a;b```")).
  vm_compute. right. left. reflexivity.
Defined.

End Formatting.

(* ================================================================== *)
(** * Following the end of the list                                      *)
(* ================================================================== *)

Section Following.
Import Scroll.

Lemma autoScroll_same (v : View) :
  isUserScrolling (autoScroll v) = isUserScrolling v
  /\ timers (autoScroll v) = timers v
  /\ scrollTimeoutRef (autoScroll v) = scrollTimeoutRef v
  /\ nextTimer (autoScroll v) = nextTimer v.
Proof. unfold autoScroll. destruct (negb (isUserScrolling v)); auto. Qed.

Lemma rerender_same (b : bool) (v : View) :
  isUserScrolling (rerender b v) = isUserScrolling v
  /\ timers (rerender b v) = timers v
  /\ scrollTimeoutRef (rerender b v) = scrollTimeoutRef v
  /\ nextTimer (rerender b v) = nextTimer v.
Proof.
  unfold rerender. destruct (Bool.eqb b (isUserScrolling v)); [auto|].
  apply autoScroll_same.
Qed.

Lemma timers_ok_same (v w : View) :
  isUserScrolling w = isUserScrolling v ->
  timers w = timers v ->
  scrollTimeoutRef w = scrollTimeoutRef v ->
  nextTimer w = nextTimer v ->
  timers_ok v -> timers_ok w.
Proof. unfold timers_ok. intros -> -> -> ->. auto. Qed.

Lemma handleScroll_timers (b : bool) (v : View) :
  timers_ok v ->
  timers_ok (handleScroll b v)
  /\ isUserScrolling (handleScroll b v) = negb b.
Proof.
  intros (Hn & Ht). unfold handleScroll. cbv zeta.
  set (v2 := match scrollTimeoutRef (setIsUserScrolling (negb b) v) with
             | Some id =>
                 if Nat.eqb id 0 then setIsUserScrolling (negb b) v
                 else clearTimeout id (setIsUserScrolling (negb b) v)
             | None => setIsUserScrolling (negb b) v
             end).
  assert (H2 : timers v2 = [] /\ nextTimer v2 = nextTimer v
               /\ isUserScrolling v2 = negb b).
  { subst v2. destruct Ht as [Ht|(id & Ht & Hr & Hid & _)].
    - cbn [scrollTimeoutRef setIsUserScrolling].
      destruct (scrollTimeoutRef v) as [id|]; [destruct (Nat.eqb id 0)|];
        cbn [timers nextTimer isUserScrolling clearTimeout setIsUserScrolling];
        rewrite Ht; auto.
    - cbn [scrollTimeoutRef setIsUserScrolling]. rewrite Hr.
      destruct (Nat.eqb id 0) eqn:E; [apply Nat.eqb_eq in E; lia|].
      cbn [timers nextTimer isUserScrolling clearTimeout setIsUserScrolling].
      rewrite Ht. cbn [filter]. rewrite Nat.eqb_refl. auto. }
  destruct H2 as (T2 & N2 & F2). destruct b.
  - unfold timers_ok, setTimeout. cbn [timers nextTimer isUserScrolling scrollTimeoutRef].
    rewrite T2, N2, F2. repeat split; [lia|]. right. exists (nextTimer v). auto.
  - unfold timers_ok. rewrite T2, N2, F2. auto.
Qed.

Lemma step_timers (e : Event) (v : View) : timers_ok v -> timers_ok (step e v).
Proof.
  intros H. destruct e as [b|id|]; cbn [step].
  - destruct (rerender_same (isUserScrolling v) (handleScroll b v)) as (A & B & C & D).
    apply (timers_ok_same _ _ A B C D). now apply handleScroll_timers.
  - destruct (existsb (Nat.eqb id) (timers v)) eqn:E; [|exact H].
    destruct (rerender_same (isUserScrolling v)
                (setIsUserScrolling false (clearTimeout id v))) as (A & B & C & D).
    apply (timers_ok_same _ _ A B C D).
    destruct H as (Hn & [Ht|(id' & Ht & Hr & Hid & Hf)]).
    + rewrite Ht in E. discriminate.
    + rewrite Ht in E. cbn [existsb] in E. rewrite orb_false_r in E.
      apply Nat.eqb_eq in E. subst id'.
      split; [exact Hn|]. left.
      cbn [timers setIsUserScrolling clearTimeout]. rewrite Ht. cbn [filter].
      now rewrite Nat.eqb_refl.
  - destruct (autoScroll_same v) as (A & B & C & D).
    now apply (timers_ok_same _ _ A B C D).
Qed.

Lemma run_snoc (es : list Event) (e : Event) (v : View) :
  run (es ++ [e]) v = step e (run es v).
Proof. unfold run. now rewrite fold_left_app. Qed.

Lemma run_timers (es : list Event) : timers_ok (run es mounted).
Proof.
  induction es as [|e es IH] using rev_ind.
  - split; [exact (le_n 1)|left; reflexivity].
  - rewrite run_snoc. now apply step_timers.
Qed.

Lemma timer_is_idle (v : View) (id : nat) :
  timers_ok v ->
  isUserScrolling (step (TimerFires id) v) = isUserScrolling v
  /\ scrolledIntoView (step (TimerFires id) v) = scrolledIntoView v.
Proof.
  intros (Hn & Ht). cbn [step].
  destruct (existsb (Nat.eqb id) (timers v)) eqn:E; [|auto].
  destruct Ht as [Ht|(id' & Ht & Hr & Hid & Hf)]; [rewrite Ht in E; discriminate|].
  unfold rerender. cbn [isUserScrolling setIsUserScrolling].
  rewrite Hf. cbn [Bool.eqb]. cbn [isUserScrolling scrolledIntoView setIsUserScrolling clearTimeout].
  auto.
Qed.

(** X28.  After every history at most one timer is armed. *)
Theorem one_timer_armed (es : list Event) :
  length (timers (run es mounted)) <= 1.
Proof.
  destruct (run_timers es) as (_ & [-> |(id & -> & _)]); cbn; lia.
Qed.

(** X29.  The timer of the scroll listener changes nothing when it fires:
    after every history the flag is already cleared, so the flag stays as
    it is and nothing is scrolled into view. *)
Theorem timer_changes_nothing (es : list Event) (id : nat) :
  let v := run es mounted in
  isUserScrolling (step (TimerFires id) v) = isUserScrolling v
  /\ scrolledIntoView (step (TimerFires id) v) = scrolledIntoView v.
Proof.
  cbv zeta. apply timer_is_idle, run_timers.
Qed.

(** X30.  After every history the user counts as scrolling exactly when
    the last scroll event found the list away from its bottom. *)
Theorem scrolling_follows_last_scroll (es : list Event) :
  isUserScrolling (run es mounted)
  = match last_scroll es with
    | Some isAtBottom => negb isAtBottom
    | None => false
    end.
Proof.
  induction es as [|e es IH] using rev_ind; [reflexivity|].
  rewrite run_snoc. unfold last_scroll in *. rewrite fold_left_app. cbn [fold_left].
  pose proof (run_timers es) as Hok.
  destruct e as [b|id|].
  - cbn [step].
    destruct (rerender_same (isUserScrolling (run es mounted))
                (handleScroll b (run es mounted))) as (-> & _).
    now apply handleScroll_timers.
  - destruct (timer_is_idle _ id Hok) as (-> & _). exact IH.
  - cbn [step]. destruct (autoScroll_same (run es mounted)) as (-> & _). exact IH.
Qed.

End Following.
